(** * ddb-locking-read: a lease lock over one DynamoDB item

    A shallow embedding of the hash-chain client (acquireLockAndRead,
    updateAndReleaseLock, generateNextHash, extendHashChain), of the
    sequence logger it writes to, and of the conditional UpdateItem
    requests it sends, followed by the properties of the lease protocol.

    Numbers are integers ([Z]); timestamps in seconds are
    [Math.floor(Date.now() / 1000)], that is [ms / 1000] with the floor
    division of [Z].  The service refuses the empty string as a key, and
    the document client refuses to marshall a number that is not a safe
    integer (up to 2^53 - 1 in size): the model takes the keys and the
    numbers of requests and records as they are accepted. *)

From Stdlib Require Import ZArith Ascii String List Lia Bool.
From stdpp Require Import base option gmap strings pretty.

Open Scope Z_scope.

(** ** The table: items as attribute maps *)

(** The two DynamoDB attribute types the client reads and writes. *)
Inductive AttributeValue :=
| AttrN (n : Z)
| AttrS (s : string).

#[global] Instance AttributeValue_eq_dec : EqDecision AttributeValue.
Proof. solve_decision. Defined.

(** An item is a finite map from attribute names to values; the table
    'Inventory' maps the partition key [id] to its item. *)
Abbreviation Item := (gmap string AttributeValue).
Abbreviation Table := (gmap string Item).

(** ** Conditional updates (UpdateItem)

    The fragment of the expression language that the two commands of the
    client use: a comparison has an attribute path on the left and an
    expression attribute value (":name") on the right. *)

Inductive Comparator := EQ | LT | GT.

#[global] Instance Comparator_eq_dec : EqDecision Comparator.
Proof. solve_decision. Defined.

Inductive Condition :=
| attribute_not_exists (path : string)
| Compare (path : string) (op : Comparator) (ref : string)
| AND (c1 c2 : Condition)
| OR (c1 c2 : Condition).

#[global] Instance Condition_eq_dec : EqDecision Condition.
Proof. solve_decision. Defined.

Inductive Action :=
| SET (path ref : string)
| REMOVE (path : string).

#[global] Instance Action_eq_dec : EqDecision Action.
Proof. solve_decision. Defined.

Inductive ReturnValue := NONE | ALL_OLD | ALL_NEW.

#[global] Instance ReturnValue_eq_dec : EqDecision ReturnValue.
Proof. solve_decision. Defined.

Record UpdateCommand := {
  Key : string;
  UpdateExpression : list Action;
  ConditionExpression : Condition;
  ExpressionAttributeValues : gmap string AttributeValue;
  ReturnValues : ReturnValue;
  ReturnValuesOnConditionCheckFailure : ReturnValue
}.

#[global] Instance UpdateCommand_eq_dec : EqDecision UpdateCommand.
Proof. solve_decision. Defined.

(** Values of different types never compare; numbers compare as numbers
    and strings in code-point order. *)
Definition compareValues (op : Comparator) (x y : AttributeValue) : bool :=
  match x, y with
  | AttrN a, AttrN b =>
      match op with EQ => a =? b | LT => a <? b | GT => a >? b end
  | AttrS a, AttrS b =>
      match op with
      | EQ => bool_decide (a = b)
      | LT => String.ltb a b
      | GT => String.ltb b a
      end
  | _, _ => false
  end.

(** [None] stands for a request the service rejects before it looks at
    the item: an expression attribute value that is used but not given. *)
Fixpoint evalCondition (values : gmap string AttributeValue) (item : Item)
    (c : Condition) : option bool :=
  match c with
  | attribute_not_exists path => Some (bool_decide (item !! path = None))
  | Compare path op ref =>
      match values !! ref with
      | None => None
      | Some v =>
          Some (match item !! path with
                | Some x => compareValues op x v
                | None => false
                end)
      end
  | AND c1 c2 =>
      match evalCondition values item c1, evalCondition values item c2 with
      | Some b1, Some b2 => Some (b1 && b2)
      | _, _ => None
      end
  | OR c1 c2 =>
      match evalCondition values item c1, evalCondition values item c2 with
      | Some b1, Some b2 => Some (b1 || b2)
      | _, _ => None
      end
  end.

Fixpoint applyActions (values : gmap string AttributeValue)
    (actions : list Action) (item : Item) : option Item :=
  match actions with
  | [] => Some item
  | SET path ref :: rest =>
      match values !! ref with
      | None => None
      | Some v => applyActions values rest (<[path := v]> item)
      end
  | REMOVE path :: rest => applyActions values rest (delete path item)
  end.

Inductive UpdateItemOutput :=
| Attributes (attrs : option Item)
| ConditionCheckFailed (old : option Item)
| ValidationFailed.

#[global] Instance UpdateItemOutput_eq_dec : EqDecision UpdateItemOutput.
Proof. solve_decision. Defined.

(** One UpdateItem request, evaluated atomically on the table, as the
    DynamoDB service (which is not part of the repository) documents it.
    The condition is evaluated on the stored item, or on an item without
    attributes when the key is not in the table; when it holds the
    actions are applied (to a new item holding only the key when there
    was none) and the item is written; when it does not hold nothing is
    written and the item as it stood is returned with the failure. *)
Definition updateItem (cmd : UpdateCommand) (t : Table)
    : Table * UpdateItemOutput :=
  let old := t !! Key cmd in
  match evalCondition (ExpressionAttributeValues cmd) (default ∅ old)
          (ConditionExpression cmd) with
  | None => (t, ValidationFailed)
  | Some false =>
      (t, ConditionCheckFailed
            match ReturnValuesOnConditionCheckFailure cmd with
            | ALL_OLD => old
            | _ => None
            end)
  | Some true =>
      match applyActions (ExpressionAttributeValues cmd)
              (UpdateExpression cmd)
              (default {[ "id" := AttrS (Key cmd) ]} old) with
      | None => (t, ValidationFailed)
      | Some new =>
          (<[Key cmd := new]> t,
           Attributes match ReturnValues cmd with
                      | ALL_NEW => Some new
                      | ALL_OLD => old
                      | NONE => None
                      end)
      end
  end.

(** ** Errors, the logger and the world of one client *)

Inductive Error :=
| ConditionalCheckFailedException (Item : option Item)
| LockError (message : string) (currentState : option Item)
| RangeError
| TypeError
| ServiceError (name : string).

#[global] Instance Error_eq_dec : EqDecision Error.
Proof. solve_decision. Defined.

(** logger.ts, [SequenceEvent]. *)
Record SequenceEvent := {
  time : Z;
  processId : string;
  action : string;
  quantity : option Z;
  success : option bool
}.

#[global] Instance SequenceEvent_eq_dec : EqDecision SequenceEvent.
Proof. solve_decision. Defined.

(** What one run of the client cannot decide itself: the readings of
    [Date.now()] in milliseconds, the values of
    [Math.floor(Math.random() * 100)], the identifier [ulid()] returns,
    the writes of the other clients that the table serializes before each
    request of this client, and the requests that fail in transport. *)
Record Env := {
  dateNow : nat → Z;
  random100 : nat → Z;
  ulid : string;
  concurrent : nat → Table → Table;
  fault : nat → option string;
  loggerStartTime : Z
}.

(** The world of one run: the table, how many clock readings and random
    numbers the run has consumed, the requests it has sent with what each
    came back with, the events of [sequenceLogger] and the delays of the
    timers it has awaited. *)
Record World := {
  table : Table;
  clockReads : nat;
  randomDraws : nat;
  exchanges : list (UpdateCommand * (Error + option Item));
  events : list SequenceEvent;
  timeouts : list Z
}.

#[global] Instance World_eq_dec : EqDecision World.
Proof. solve_decision. Defined.

(** Computations of the client: state passing with exceptions; the
    world reached is kept when an exception is thrown. *)
Definition M (A : Type) : Type := World → World * (Error + A).

#[global] Instance M_ret : MRet M := λ A a w, (w, inr a).

#[global] Instance M_bind : MBind M := λ A B f m w,
  match m w with
  | (w', inl e) => (w', inl e)
  | (w', inr a) => f a w'
  end.

Definition throw {A : Type} (e : Error) : M A := λ w, (w, inl e).

Definition tryCatch {A : Type} (body : M A) (handler : Error → M A) : M A :=
  λ w,
  match body w with
  | (w', inl e) => handler e w'
  | (w', inr a) => (w', inr a)
  end.

(** The time values of [Date], in milliseconds: 100 000 000 days on
    either side of the epoch. *)
Definition validTime (ms : Z) : bool :=
  (-8640000000000000 <=? ms) && (ms <=? 8640000000000000).

(** ** The client (the hash-chain example) *)

Section Client.

(** [createHash('sha256').update(s).digest('hex')] and
    [new Date(ms).toISOString()], both taken as given; timestamps are
    within the range of [Date], where the text of a date exists. *)
Variable sha256hex : string → string.
Variable toISOString : Z → string.
Variable env : Env.

Definition Date_now : M Z := λ w,
  ({| table := table w; clockReads := S (clockReads w);
      randomDraws := randomDraws w; exchanges := exchanges w;
      events := events w; timeouts := timeouts w |},
   inr (dateNow env (clockReads w))).

(** [Math.floor(Math.random() * 100)] *)
Definition Math_random_100 : M Z := λ w,
  ({| table := table w; clockReads := clockReads w;
      randomDraws := S (randomDraws w); exchanges := exchanges w;
      events := events w; timeouts := timeouts w |},
   inr (random100 env (randomDraws w))).

(** [await setTimeout(ms)] of timers/promises. *)
Definition setTimeout (ms : Z) : M unit := λ w,
  ({| table := table w; clockReads := clockReads w;
      randomDraws := randomDraws w; exchanges := exchanges w;
      events := events w; timeouts := timeouts w ++ [ms] |},
   inr ()).

Definition pushEvent (e : SequenceEvent) : M unit := λ w,
  ({| table := table w; clockReads := clockReads w;
      randomDraws := randomDraws w; exchanges := exchanges w;
      events := events w ++ [e]; timeouts := timeouts w |},
   inr ()).

(** logger.ts, [SequenceLogger.log]. *)
Definition sequenceLogger_log (pid act : string) (qty : option Z)
    (ok : option bool) : M unit :=
  now ← Date_now;
  pushEvent {| time := now - loggerStartTime env; processId := pid;
               action := act; quantity := qty; success := ok |}.

(** [await docClient.send(command)]: the table first takes the writes of
    the other clients that are serialized before this request, then
    evaluates the request; a failed condition check is thrown. *)
Definition docClient_send (command : UpdateCommand) : M (option Item) := λ w,
  let k := length (exchanges w) in
  let t := concurrent env k (table w) in
  let world t' r :=
    ({| table := t'; clockReads := clockReads w;
        randomDraws := randomDraws w;
        exchanges := exchanges w ++ [(command, r)];
        events := events w; timeouts := timeouts w |}, r) in
  match fault env k with
  | Some name => world t (inl (ServiceError name))
  | None =>
      match updateItem command t with
      | (t', Attributes attrs) => world t' (inr attrs)
      | (t', ConditionCheckFailed old) =>
          world t' (inl (ConditionalCheckFailedException old))
      | (t', ValidationFailed) =>
          world t' (inl (ServiceError "ValidationException"))
      end
  end.

(** JavaScript truthiness and template-literal text of an attribute. *)
Definition truthy (v : option AttributeValue) : bool :=
  match v with
  | Some (AttrS s) => negb (bool_decide (s = ""))
  | Some (AttrN n) => negb (n =? 0)
  | None => false
  end.

Definition toText (v : AttributeValue) : string :=
  match v with
  | AttrS s => s
  | AttrN n => pretty n
  end.

(** The [lockInfo] text of both catch blocks.  [new Date(ms)] holds a
    time value only for [ms] within 8.64e15 of the epoch, and
    [toISOString] throws a RangeError on the others: so the text exists
    for a [lockTime] within 8640000000000 seconds of the epoch and the
    RangeError is thrown beyond.  With [lockedBy] set and no [lockTime]
    the time value is NaN and the RangeError is thrown too.  [lockTime]
    is a number, as [HashChainItem] declares it and as the acquire
    request writes it; a [lockTime] of another type is answered here
    like one that JavaScript coerces to NaN. *)
Definition lockInfoOf (currentState : option Item) : M string :=
  match currentState with
  | Some st =>
      if truthy (st !! "lockedBy") then
        match st !! "lockedBy", st !! "lockTime" with
        | Some holder, Some (AttrN t) =>
            if validTime (t * 1000) then
              mret ("locked by process " +:+ toText holder +:+ " until "
                    +:+ toISOString (t * 1000))
            else throw RangeError
        | _, _ => throw RangeError
        end
      else mret "lock information not found"
  | None => mret "lock information not found"
  end.

Definition acquireCommand (itemId pid : string) (now lockExpiration : Z)
    : UpdateCommand :=
  {| Key := itemId;
     UpdateExpression := [SET "lockTime" ":lockTime";
                          SET "lockedBy" ":processId"];
     ConditionExpression :=
       OR (attribute_not_exists "lockTime") (Compare "lockTime" LT ":now");
     ExpressionAttributeValues :=
       {[ ":lockTime" := AttrN lockExpiration;
          ":processId" := AttrS pid;
          ":now" := AttrN now ]};
     ReturnValues := ALL_NEW;
     ReturnValuesOnConditionCheckFailure := ALL_OLD |}.

Definition acquireLockAndRead (itemId pid : string) (lockDuration : Z)
    : M (option Item) :=
  ms ← Date_now;
  let now := ms / 1000 in
  let lockExpiration := now + lockDuration in
  startTime ← Date_now;
  let command := acquireCommand itemId pid now lockExpiration in
  tryCatch
    (result ← docClient_send command;
     t ← Date_now;
     sequenceLogger_log pid
       ("Lock request took " +:+ pretty (t - startTime) +:+ "ms")
       None None;;
     mret result)
    (λ error,
       match error with
       | ConditionalCheckFailedException old =>
           t ← Date_now;
           sequenceLogger_log pid
             ("Lock failure response took " +:+ pretty (t - startTime)
              +:+ "ms") None None;;
           let currentState := old in
           lockInfo ← lockInfoOf currentState;
           throw (LockError
                    ("Failed to acquire lock for item " +:+ itemId +:+ " - "
                     +:+ lockInfo) currentState)
       | _ => throw error
       end).

Definition releaseCommand (itemId pid : string) (currentHash : AttributeValue)
    (lastUpdated now : Z) : UpdateCommand :=
  {| Key := itemId;
     UpdateExpression := [SET "currentHash" ":currentHash";
                          SET "lastUpdated" ":lastUpdated";
                          REMOVE "lockTime";
                          REMOVE "lockedBy"];
     ConditionExpression :=
       AND (Compare "lockedBy" EQ ":processId") (Compare "lockTime" GT ":now");
     ExpressionAttributeValues :=
       {[ ":currentHash" := currentHash;
          ":lastUpdated" := AttrN lastUpdated;
          ":processId" := AttrS pid;
          ":now" := AttrN now ]};
     ReturnValues := ALL_NEW;
     ReturnValuesOnConditionCheckFailure := ALL_OLD |}.

(** [updateData.currentHash] may be undefined at run time; the document
    client refuses to marshall an undefined value. *)
Definition updateAndReleaseLock (itemId pid : string) (updateData : Item)
    : M (option Item) :=
  ms ← Date_now;
  let now := ms / 1000 in
  ms' ← Date_now;
  let lastUpdated := ms' / 1000 in
  tryCatch
    (match updateData !! "currentHash" with
     | Some currentHash =>
         docClient_send (releaseCommand itemId pid currentHash lastUpdated now)
     | None => throw (ServiceError "Error")
     end)
    (λ error,
       match error with
       | ConditionalCheckFailedException old =>
           let currentState := old in
           lockInfo ← lockInfoOf currentState;
           throw (LockError
                    ("Failed to update item " +:+ itemId +:+ " - "
                     +:+ lockInfo) currentState)
       | _ => throw error
       end).

(** [workFactor] rounds of SHA-256 over the hex digest. *)
Definition generateNextHash (currentHash : string) (workFactor : Z) : string :=
  N.iter (Z.to_N workFactor) sha256hex currentHash.

(** One call [generateNextHash(nextHash)] with the default work factor;
    hashing a value that is not a string throws. *)
Definition nextHashOf (nextHash : option AttributeValue)
    : M (option AttributeValue) :=
  match nextHash with
  | Some (AttrS h) => mret (Some (AttrS (generateNextHash h 50000)))
  | _ => throw TypeError
  end.

(** The inner loop [for (let i = 0; i < iterations; i++)], by the number
    of rounds it still has to run. *)
Fixpoint generateHashes (rounds : nat) (pid : string) (i iterations : Z)
    (nextHash : option AttributeValue) : M (option AttributeValue) :=
  match rounds with
  | O => mret nextHash
  | S rounds' =>
      startTime ← Date_now;
      h ← nextHashOf nextHash;
      endTime ← Date_now;
      sequenceLogger_log pid
        ("Generated hash " +:+ pretty (i + 1) +:+ "/" +:+ pretty iterations
         +:+ " (took " +:+ pretty (endTime - startTime) +:+ "ms)")
        None None;;
      generateHashes rounds' pid (i + 1) iterations h
  end.

(** The object [{...item, currentHash: nextHash, lastUpdated: ...}]. *)
Definition updatedItemOf (item : Item) (nextHash : option AttributeValue)
    (lastUpdated : Z) : Item :=
  <["lastUpdated" := AttrN lastUpdated]>
    (match nextHash with
     | Some h => <["currentHash" := h]> item
     | None => delete "currentHash" item
     end).

(** The [try] block after the lock is acquired: the hash rounds, the
    updated item and the release. *)
Definition extendAndRelease (itemId pid : string) (iterations : Z)
    (acquired : option Item) : M unit :=
  sequenceLogger_log pid "Lock acquired" None (Some true);;
  sequenceLogger_log pid "Generating hashes" None None;;
  match acquired with
  | None => throw TypeError
  | Some item =>
      nextHash ← generateHashes (Z.to_nat iterations) pid 0 iterations
                   (item !! "currentHash");
      ms ← Date_now;
      let updatedItem := updatedItemOf item nextHash (ms / 1000) in
      updateAndReleaseLock itemId pid updatedItem;;
      sequenceLogger_log pid "Chain extended" (Some iterations) (Some true)
  end.

(** The [try] block up to the acquired item. *)
Definition acquireStep (itemId pid : string) : M (option Item) :=
  sequenceLogger_log pid "Acquiring lock" None None;;
  acquireLockAndRead itemId pid 30.

(** The body of the [try] block of one attempt. *)
Definition attemptBody (itemId pid : string) (iterations : Z) : M unit :=
  acquired ← acquireStep itemId pid;
  extendAndRelease itemId pid iterations acquired.

(** The [catch] block: [true] when the loop goes on to the next
    attempt. *)
Definition attemptCatch (pid : string) (attempt maxRetries : Z)
    (error : Error) : M bool :=
  match error with
  | LockError _ _ =>
      sequenceLogger_log pid "Lock failed" None (Some false);;
      if attempt <? maxRetries then
        backoff ← Math_random_100;
        sequenceLogger_log pid ("Retrying in " +:+ pretty backoff +:+ "ms")
          None None;;
        setTimeout backoff;;
        mret true
      else
        sequenceLogger_log pid "Max retries reached" None (Some false);;
        throw error
  | _ => throw error
  end.

(** The loop [for (let attempt = 1; attempt <= maxRetries; attempt++)].
    [Some ()] is the return of the function; [None] says that the fuel
    ran out before the loop ended. *)
Fixpoint attemptLoop (fuel : nat) (itemId pid : string)
    (iterations attempt maxRetries : Z) : M (option unit) :=
  if attempt <=? maxRetries then
    match fuel with
    | O => mret None
    | S fuel' =>
        again ← tryCatch (attemptBody itemId pid iterations;; mret false)
                  (attemptCatch pid attempt maxRetries);
        if (again : bool)
        then attemptLoop fuel' itemId pid iterations (attempt + 1)
               maxRetries
        else mret (Some ())
    end
  else mret (Some ()).

Definition extendHashChain (fuel : nat) (itemId : string)
    (iterations maxRetries : Z) : M (option unit) :=
  let pid := ulid env in
  sequenceLogger_log pid "Started" (Some iterations) None;;
  attemptLoop fuel itemId pid iterations 1 maxRetries.

End Client.

(** setup: the item [createInitialItem] puts into the table. *)
Definition zeroDigest : string :=
  "0000000000000000000000000000000000000000000000000000000000000000".

Definition initialItem (now : Z) : Item :=
  {[ "id" := AttrS "HASH-CHAIN-1";
     "currentHash" := AttrS zeroDigest;
     "lastUpdated" := AttrN now ]}.

Definition initialWorld (t : Table) : World :=
  {| table := t; clockReads := 0; randomDraws := 0; exchanges := [];
     events := []; timeouts := [] |}.

(** ** The report of the logger (logger.ts) *)

(** [s.includes(sub)], [s.padStart(n)] and [s.slice(-n)], on ASCII text:
    the times are numbers and the process identifiers are ULIDs. *)
Fixpoint includes (sub s : string) : bool :=
  match s with
  | EmptyString => String.prefix sub s
  | String _ rest => String.prefix sub s || includes sub rest
  end.

Definition padStart (n : nat) (s : string) : string :=
  string_of_list_ascii (replicate (n - String.length s) " "%char) +:+ s.

Definition sliceLast (n : nat) (s : string) : string :=
  String.substring (String.length s - n) n s.

Definition newline : string := String "010"%char "".

(** [quantity ? `${action} (qty: ${quantity})` : action] and the status
    mark of one event. *)
Definition messageOf (e : SequenceEvent) : string :=
  match quantity e with
  | Some q =>
      if q =? 0 then action e
      else action e +:+ " (qty: " +:+ pretty q +:+ ")"
  | None => action e
  end.

Definition statusOf (e : SequenceEvent) : string :=
  match success e with
  | Some true => "✓"
  | Some false => "✗"
  | None => ""
  end.

(** The lines a function writes with [console.log], in order. *)
Definition printProcessEvents (processId : string)
    (events : list SequenceEvent) : list string :=
  let pid := sliceLast 4 processId in
  [newline +:+ "Process-" +:+ pid +:+ " sequence:";
   "Time(ms) | Action";
   "---------+------------------"]
  ++ map (λ e, padStart 8 (pretty (time e)) +:+ " | " +:+ messageOf e
               +:+ " " +:+ statusOf e) events.

(** The [Map] from process to events, in the order of insertion. *)
Fixpoint groupInsert (e : SequenceEvent)
    (groups : list (string * list SequenceEvent))
    : list (string * list SequenceEvent) :=
  match groups with
  | [] => [(processId e, [e])]
  | (p, es) :: rest =>
      if bool_decide (p = processId e) then (p, es ++ [e]) :: rest
      else (p, es) :: groupInsert e rest
  end.

Definition processSummaries (events : list SequenceEvent)
    : list (string * list SequenceEvent) :=
  foldl (λ groups e, groupInsert e groups) [] events.

(** [events.find((e) => e.quantity !== undefined)?.quantity] *)
Fixpoint quantityOf (events : list SequenceEvent) : option Z :=
  match events with
  | [] => None
  | e :: rest =>
      match quantity e with
      | Some q => Some q
      | None => quantityOf rest
      end
  end.

Definition retriesOf (events : list SequenceEvent) : nat :=
  length (List.filter (λ e, includes "Retrying" (action e)) events).

Definition succeededOf (events : list SequenceEvent) : bool :=
  existsb (λ e, bool_decide (action e = "Chain extended")) events.

(** The summary of one process.  [events[0].time] throws a TypeError on
    an empty group, after the lines before it are written. *)
Definition processSummary (processId : string) (events : list SequenceEvent)
    : list string * option Error :=
  let pid := sliceLast 4 processId in
  let retries := retriesOf events in
  let lines :=
    printProcessEvents processId events
    ++ [newline +:+ "Process-" +:+ pid +:+ " summary:";
        "Attempted to extend: "
        +:+ default "undefined" (pretty <$> quantityOf events)]
    ++ (if (0 <? retries)%nat then ["Retries: " +:+ pretty retries] else []) in
  match head events, last events with
  | Some first, Some final =>
      (lines
       ++ ["Total time: " +:+ pretty (time final - time first) +:+ "ms";
           "Outcome: "
           +:+ (if succeededOf events then "Succeeded ✓" else "Failed ✗");
           "-------------+------------------"],
       None)
  | _, _ => (lines, Some TypeError)
  end.

Fixpoint printSummaries (groups : list (string * list SequenceEvent))
    : list string * option Error :=
  match groups with
  | [] => ([], None)
  | (processId, events) :: rest =>
      match processSummary processId events with
      | (lines, None) =>
          let (lines', thrown) := printSummaries rest in
          (lines ++ lines', thrown)
      | (lines, Some e) => (lines, Some e)
      end
  end.

(** [printSequence()] over the events logged so far. *)
Definition printSequence (events : list SequenceEvent)
    : list string * option Error :=
  let (lines, thrown) := printSummaries (processSummaries events) in
  ([newline +:+ "Full sequence of events:";
    "Time(ms) | Process      | Action";
    "---------+-------------+------------------"]
   ++ map (λ e, padStart 8 (pretty (time e)) +:+ " | Process-"
                +:+ sliceLast 4 (processId e) +:+ " | " +:+ messageOf e
                +:+ " " +:+ statusOf e) events
   ++ [newline +:+ "Per-process summary:";
       "-------------+------------------"]
   ++ lines,
   thrown).

(** ** The table scripts (setup and teardown) *)

(** The commands the scripts send, and what they tell apart in a
    rejected request: [error instanceof ResourceNotFoundException]. *)
Inductive AdminCommand :=
| CreateTableCommand (TableName hashKey : string)
| DescribeTableCommand (TableName : string)
| DeleteTableCommand (TableName : string)
| PutCommand (TableName : string) (Item : Item).

Inductive AdminError :=
| ResourceNotFoundException
| OtherError (name : string).

#[global] Instance AdminCommand_eq_dec : EqDecision AdminCommand.
Proof. solve_decision. Defined.

#[global] Instance AdminError_eq_dec : EqDecision AdminError.
Proof. solve_decision. Defined.

Inductive ConsoleLine :=
| console_log_line (text : string)
| console_error_line (text : string) (error : AdminError).

#[global] Instance ConsoleLine_eq_dec : EqDecision ConsoleLine.
Proof. solve_decision. Defined.

(** What a script cannot decide itself: how the service answers the
    request numbered [k] (it fails, or it succeeds, and a successful
    DescribeTable carries [Table?.TableStatus]), and the reading of
    [Date.now()] in [createInitialItem]. *)
Record AdminEnv := {
  answers : nat → AdminError + option string;
  adminNow : Z
}.

(** The world of a script: the items of the table, the commands sent,
    the console and the delays of the timers awaited. *)
Record Admin := {
  items : Table;
  sent : list AdminCommand;
  console : list ConsoleLine;
  sleeps : list Z
}.

#[global] Instance Admin_eq_dec : EqDecision Admin.
Proof. solve_decision. Defined.

Definition Script (A : Type) : Type := Admin → Admin * (AdminError + A).

#[global] Instance Script_ret : MRet Script := λ A x a, (a, inr x).

#[global] Instance Script_bind : MBind Script := λ A B f m a,
  match m a with
  | (a', inl e) => (a', inl e)
  | (a', inr x) => f x a'
  end.

Definition reject {A : Type} (e : AdminError) : Script A := λ a, (a, inl e).

Definition tryCatchScript {A : Type} (body : Script A)
    (handler : AdminError → Script A) : Script A := λ a,
  match body a with
  | (a', inl e) => handler e a'
  | (a', inr x) => (a', inr x)
  end.

Definition console_log (text : string) : Script unit := λ a,
  ({| items := items a; sent := sent a;
      console := console a ++ [console_log_line text];
      sleeps := sleeps a |}, inr ()).

Definition console_error (text : string) (error : AdminError) : Script unit :=
  λ a,
  ({| items := items a; sent := sent a;
      console := console a ++ [console_error_line text error];
      sleeps := sleeps a |}, inr ()).

(** [await new Promise((resolve) => setTimeout(resolve, ms))] *)
Definition sleep (ms : Z) : Script unit := λ a,
  ({| items := items a; sent := sent a; console := console a;
      sleeps := sleeps a ++ [ms] |}, inr ()).

(** What a command that the service accepts does to the items: a table
    that is created or deleted has none, and a put stores the item under
    its key, a string. *)
Definition accepted (command : AdminCommand) (t : Table)
    : AdminError + Table :=
  match command with
  | CreateTableCommand _ _ => inr ∅
  | DeleteTableCommand _ => inr ∅
  | DescribeTableCommand _ => inr t
  | PutCommand _ item =>
      match item !! "id" with
      | Some (AttrS k) => inr (<[k := item]> t)
      | _ => inl (OtherError "ValidationException")
      end
  end.

Section Scripts.

Variable env : AdminEnv.

(** [await client.send(command)]; the result is [Table?.TableStatus]. *)
Definition client_send (command : AdminCommand) : Script (option string) :=
  λ a,
  let world t :=
    {| items := t; sent := sent a ++ [command]; console := console a;
       sleeps := sleeps a |} in
  match answers env (length (sent a)) with
  | inl e => (world (items a), inl e)
  | inr status =>
      match accepted command (items a) with
      | inl e => (world (items a), inl e)
      | inr t => (world t, inr status)
      end
  end.

(** setup, the loop [while (true)] of [waitForTable]: [Some ()] after
    the [break], [None] when the fuel ran out before it. *)
Fixpoint waitForTableLoop (fuel : nat) (tableName : string)
    : Script (option unit) :=
  match fuel with
  | O => mret None
  | S fuel' =>
      again ← tryCatchScript
                (status ← client_send (DescribeTableCommand tableName);
                 if bool_decide (status = Some "ACTIVE") then
                   console_log "Table is now active";;
                   mret false
                 else
                   console_log ("Table status: "
                                +:+ default "undefined" status);;
                   sleep 1000;;
                   mret true)
                (λ error,
                   match error with
                   | ResourceNotFoundException =>
                       console_log "Table not found yet, waiting...";;
                       sleep 1000;;
                       mret true
                   | _ => reject error
                   end);
      if (again : bool) then waitForTableLoop fuel' tableName
      else mret (Some ())
  end.

Definition waitForTable (fuel : nat) (tableName : string)
    : Script (option unit) :=
  console_log "Waiting for table to become active...";;
  waitForTableLoop fuel tableName.

Definition createInitialItem : Script unit :=
  let command := PutCommand "Inventory" (initialItem (adminNow env / 1000)) in
  client_send command;;
  console_log "Initial hash chain created".

Definition createTable (fuel : nat) : Script (option unit) :=
  let command := CreateTableCommand "Inventory" "id" in
  tryCatchScript
    (client_send command;;
     console_log "Table created successfully";;
     active ← waitForTable fuel "Inventory";
     match active with
     | Some _ => createInitialItem;; mret (Some ())
     | None => mret None
     end)
    (λ error,
       console_error "Error creating table:" error;;
       reject error).

(** teardown.ts *)
Fixpoint waitForTableDeletionLoop (fuel : nat) (tableName : string)
    : Script (option unit) :=
  match fuel with
  | O => mret None
  | S fuel' =>
      again ← tryCatchScript
                (client_send (DescribeTableCommand tableName);;
                 console_log "Table still exists, waiting...";;
                 sleep 1000;;
                 mret true)
                (λ error,
                   match error with
                   | ResourceNotFoundException =>
                       console_log "Table deletion confirmed";;
                       mret false
                   | _ => reject error
                   end);
      if (again : bool) then waitForTableDeletionLoop fuel' tableName
      else mret (Some ())
  end.

Definition waitForTableDeletion (fuel : nat) (tableName : string)
    : Script (option unit) :=
  console_log "Waiting for table to be deleted...";;
  waitForTableDeletionLoop fuel tableName.

Definition deleteTable (fuel : nat) : Script (option unit) :=
  let command := DeleteTableCommand "Inventory" in
  tryCatchScript
    (client_send command;;
     console_log "Table deleted successfully";;
     waitForTableDeletion fuel "Inventory")
    (λ error,
       match error with
       | ResourceNotFoundException =>
           console_log "Table does not exist";;
           mret (Some ())
       | _ =>
           console_error "Error deleting table:" error;;
           reject error
       end).

End Scripts.

Definition emptyAdmin (t : Table) : Admin :=
  {| items := t; sent := []; console := []; sleeps := [] |}.

(** ** Vocabulary of the properties *)

(** The numbers the document client marshalls: the safe integers. *)
Definition safeInteger (n : Z) : bool :=
  (-9007199254740991 <=? n) && (n <=? 9007199254740991).

(** The condition of the acquire request, read on an item: no [lockTime],
    or a [lockTime] strictly before [now]. *)
Definition acquirable (now : Z) (it : Item) : bool :=
  match it !! "lockTime" with
  | None => true
  | Some (AttrN e) => e <? now
  | Some (AttrS _) => false
  end.

(** The condition of the release request, read on an item: [lockedBy] is
    the releasing process and [lockTime] is strictly after [now]. *)
Definition releasable (pid : string) (now : Z) (it : Item) : bool :=
  match it !! "lockedBy", it !! "lockTime" with
  | Some (AttrS h), Some (AttrN e) => bool_decide (h = pid) && (e >? now)
  | _, _ => false
  end.

(** The item an acquire writes, and the item a release writes. *)
Definition acquired (pid : string) (lockExpiration : Z) (it : Item) : Item :=
  <["lockedBy" := AttrS pid]> (<["lockTime" := AttrN lockExpiration]> it).

Definition released (currentHash : AttributeValue) (lastUpdated : Z)
    (it : Item) : Item :=
  delete "lockedBy"
    (delete "lockTime"
       (<["lastUpdated" := AttrN lastUpdated]>
          (<["currentHash" := currentHash]> it))).



(** ** Histories: the requests of all clients, in the order the table
    serves them *)

Inductive Request :=
| AcquireRequest (itemId pid : string) (now lockExpiration : Z)
| ReleaseRequest (itemId pid : string) (currentHash : AttributeValue)
    (lastUpdated now : Z).

Definition commandOf (q : Request) : UpdateCommand :=
  match q with
  | AcquireRequest itemId pid now lockExpiration =>
      acquireCommand itemId pid now lockExpiration
  | ReleaseRequest itemId pid currentHash lastUpdated now =>
      releaseCommand itemId pid currentHash lastUpdated now
  end.

Definition requestKey (q : Request) : string :=
  match q with
  | AcquireRequest itemId _ _ _ => itemId
  | ReleaseRequest itemId _ _ _ _ => itemId
  end.

Definition requestHolder (q : Request) : string :=
  match q with
  | AcquireRequest _ pid _ _ => pid
  | ReleaseRequest _ pid _ _ _ => pid
  end.

Definition isAcquireRequest (q : Request) : bool :=
  match q with AcquireRequest _ _ _ _ => true | _ => false end.

Definition serve (t : Table) (q : Request) : Table :=
  (updateItem (commandOf q) t).1.

Definition granted (t : Table) (q : Request) : bool :=
  match (updateItem (commandOf q) t).2 with
  | Attributes _ => true
  | _ => false
  end.

(** The table when the request at position [i] of the history arrives. *)
Definition stateAt (t0 : Table) (qs : list Request) (i : nat) : Table :=
  foldl serve t0 (take i qs).

Definition grantedAt (t0 : Table) (qs : list Request) (i : nat) : bool :=
  match qs !! i with
  | Some q => granted (stateAt t0 qs i) q
  | None => false
  end.

(** A successful acquire-to-release cycle of the holder [h] on the key
    [k]: a granted acquire at position [a], a granted release at position
    [r], and no request of [h] on [k] between the two (a client awaits
    each of its requests). *)
Definition cycle (t0 : Table) (qs : list Request) (k h : string)
    (a r : nat) : Prop :=
  (a < r)%nat
  ∧ (∃ q, qs !! a = Some q ∧ isAcquireRequest q = true
          ∧ requestKey q = k ∧ requestHolder q = h)
  ∧ (∃ q, qs !! r = Some q ∧ isAcquireRequest q = false
          ∧ requestKey q = k ∧ requestHolder q = h)
  ∧ grantedAt t0 qs a = true
  ∧ grantedAt t0 qs r = true
  ∧ (∀ j q, (a < j < r)%nat → qs !! j = Some q →
            ¬ (requestKey q = k ∧ requestHolder q = h)).

(** [h] holds a valid lease on the record [k] of the table at [now]. *)
Definition holdsLease (t : Table) (k h : string) (now : Z) : Prop :=
  ∃ (it : Item) (e : Z),
    t !! k = Some it ∧ it !! "lockedBy" = Some (AttrS h)
    ∧ it !! "lockTime" = Some (AttrN e) ∧ now < e.

(** The record [k] of the table does not name [h] as its holder. *)
Definition notHeldBy (k h : string) (t : Table) : Prop :=
  ∀ it : Item, t !! k = Some it → it !! "lockedBy" ≠ Some (AttrS h).

(** The two lock attributes are both present or both absent. *)
Definition leasePaired (it : Item) : Prop :=
  it !! "lockTime" = None ↔ it !! "lockedBy" = None.

Definition leaseFieldsPaired (t : Table) : Prop :=
  ∀ (k : string) (it : Item), t !! k = Some it → leasePaired it.

(** The tables the system can be in: the empty table of setup, the put
    of the initial item, and any request of the protocol served on a
    table it can be in. *)
Inductive reachable : Table → Prop :=
| reachable_created : reachable ∅
| reachable_put (now : Z) (t : Table) :
    reachable t → reachable (<["HASH-CHAIN-1" := initialItem now]> t)
| reachable_served (t : Table) (q : Request) :
    reachable t → reachable (serve t q).

(** ** Counting what a run did *)

(** A command is an acquire when its update sets [lockTime]. *)
Definition isAcquire (c : UpdateCommand) : bool :=
  match UpdateExpression c with
  | SET path _ :: _ => bool_decide (path = "lockTime")
  | _ => false
  end.

Fixpoint countAcquires (l : list (UpdateCommand * (Error + option Item)))
    : nat :=
  match l with
  | [] => O
  | x :: rest => (if isAcquire x.1 then 1 else 0) + countAcquires rest
  end.

(** The acquire requests the run has sent so far. *)
Definition acquireAttempts (w : World) : nat := countAcquires (exchanges w).

(** For each request of the run: is it an acquire, and was it granted. *)
Definition exchangeKinds (w : World) : list (bool * bool) :=
  map (λ x, (isAcquire x.1, match x.2 with inr _ => true | inl _ => false end))
    (exchanges w).

(** The work transform: one call [generateNextHash(nextHash)] with the
    default work factor. *)
Definition workTransform (sha256hex : string → string) (h : string) : string :=
  generateNextHash sha256hex h 50000.

(** The chained hash after [rounds] calls of [generateNextHash], as a
    function of the payload alone. *)
Fixpoint chained (sha256hex : string → string) (rounds : nat)
    (v : option AttributeValue) : Error + option AttributeValue :=
  match rounds with
  | O => inr v
  | S rounds' =>
      match v with
      | Some (AttrS h) =>
          chained sha256hex rounds'
            (Some (AttrS (generateNextHash sha256hex h 50000)))
      | _ => inl TypeError
      end
  end.

(** What a world looks like right after an attempt that returned. *)
Definition justReleased (itemId : string) (w : World) : Prop :=
  ∃ (cmd : UpdateCommand) (new : Item) (ev : SequenceEvent),
    last (exchanges w) = Some (cmd, inr (Some new))
    ∧ isAcquire cmd = false
    ∧ table w !! itemId = Some new
    ∧ new !! "lockTime" = None
    ∧ new !! "lockedBy" = None
    ∧ last (events w) = Some ev
    ∧ action ev = "Chain extended"
    ∧ success ev = Some true.

(** ** What a run writes to the log *)

(** [c] occurs in [s]. *)
Fixpoint occurs (c : ascii) (s : string) : bool :=
  match s with
  | EmptyString => false
  | String a rest => bool_decide (a = c) || occurs c rest
  end.

(** What a part of a run wrote to the log on the way from [w] to [w']:
    the events [new], all of process [pid], with one retry announcement
    for each timer awaited. *)
Definition logged (pid : string) (w w' : World) (new : list SequenceEvent)
    : Prop :=
  events w' = events w ++ new
  ∧ Forall (λ e, processId e = pid) new
  ∧ length (timeouts w') = (length (timeouts w) + retriesOf new)%nat.

(** An answer to DescribeTable that keeps [waitForTable] polling: the
    table is not found, or its status is not ACTIVE; and one that keeps
    [waitForTableDeletion] polling: the table is described. *)
Definition keepsWaiting (r : AdminError + option string) : bool :=
  match r with
  | inl ResourceNotFoundException => true
  | inl (OtherError _) => false
  | inr status => negb (bool_decide (status = Some "ACTIVE"))
  end.

Definition stillThere (r : AdminError + option string) : bool :=
  match r with
  | inl _ => false
  | inr _ => true
  end.

(** The events [new] were stamped, one after the other, with clock
    readings numbered from [lo] on and below [hi]. *)
Fixpoint stampedFrom (env : Env) (lo : nat) (new : list SequenceEvent)
    (hi : nat) : Prop :=
  match new with
  | [] => (lo ≤ hi)%nat
  | e :: rest =>
      ∃ k, time e = dateNow env k - loggerStartTime env
           ∧ (lo ≤ k)%nat
           ∧ stampedFrom env (S k) rest hi
  end.

(** On the way from [w] to [w'] the log grew by the events [new], each
    stamped with a clock reading of that stretch, in order. *)
Definition stamped (env : Env) (w w' : World) (new : list SequenceEvent)
    : Prop :=
  events w' = events w ++ new
  ∧ stampedFrom env (clockReads w) new (clockReads w').

(** ** Scenarios used to run the client *)

(** An environment that is calm for the record [itemId]: no request
    fails in transport, the other clients leave the record alone, and
    any two clock readings are less than a lease apart. *)
Definition calm (env : Env) (itemId : string) : Prop :=
  (∀ k, fault env k = None)
  ∧ (∀ k t, concurrent env k t !! itemId = t !! itemId)
  ∧ (∀ k k', dateNow env k' / 1000 < dateNow env k / 1000 + 30).

(** Transport fails for the request numbered [n], and only for it. *)
Definition failingAt (n : nat) (clock : nat → Z) (pid : string) : Env :=
  {| dateNow := clock; random100 := λ _, 42; ulid := pid;
     concurrent := λ _ t, t;
     fault := λ k, if (k =? n)%nat then Some "TimeoutError" else None;
     loggerStartTime := 0 |}.


(** Stand-ins for the digest and the date text in the scenarios: the
    digest moves the first character to the end. *)
Definition stubDigest (s : string) : string :=
  match s with
  | EmptyString => EmptyString
  | String c rest => rest +:+ String c EmptyString
  end.
Definition stubDate (ms : Z) : string := pretty ms.

(** A quiet environment: nobody else writes, no request fails in
    transport, and the clock is the given one. *)
Definition quietEnv (clock : nat → Z) (pid : string) : Env :=
  {| dateNow := clock; random100 := λ _, 42; ulid := pid;
     concurrent := λ _ t, t; fault := λ _, None; loggerStartTime := 0 |}.

(** The record of the example, with a lease of [holder] until [expiry]. *)
Definition leasedItem (holder : string) (expiry : Z) : Item :=
  <["lockedBy" := AttrS holder]>
    (<["lockTime" := AttrN expiry]> (initialItem 0)).

Definition chainTable (it : Item) : Table := {[ "HASH-CHAIN-1" := it ]}.

(** The second of the clock changes between the first reading and the
    second one. *)
Definition tickingClock (k : nat) : Z :=
  match k with O => 100999 | _ => 101000 end.

(** The clock stands at 0 for its first nine readings and at 31 s from
    then on: the hash round of the first attempt outlives the lease. *)
Definition slowClock (k : nat) : Z := if (k <? 9)%nat then 0 else 31000.

(** One run with two attempts allowed, alone on the table, under
    [slowClock]. *)
Definition slowRun : World * (Error + option ()) :=
  extendHashChain stubDigest stubDate (quietEnv slowClock "P1") 2
    "HASH-CHAIN-1" 1 2 (initialWorld (chainTable (initialItem 0))).

(** A run with [n] attempts allowed against a lease that "P1" holds
    until second 1000, the clock standing at 0. *)
Definition contendedRun (n : nat) : World * (Error + option ()) :=
  extendHashChain stubDigest stubDate (quietEnv (λ _, 0) "P2") n
    "HASH-CHAIN-1" 1 (Z.of_nat n)
    (initialWorld (chainTable (leasedItem "P1" 1000))).

(** The world of [slowRun] when its first attempt begins, after its
    acquire, and after the rest of the [try] block. *)
Definition slowEnv : Env := quietEnv slowClock "P1".

Definition slowStart : World :=
  (sequenceLogger_log slowEnv "P1" "Started" (Some 1) None
     (initialWorld (chainTable (initialItem 0)))).1.

Definition slowAcquired : World :=
  (acquireStep stubDate slowEnv "HASH-CHAIN-1" "P1" slowStart).1.

Definition slowRefused : World :=
  (extendAndRelease stubDigest stubDate slowEnv "HASH-CHAIN-1" "P1" 1
     (Some (acquired "P1" 30 (initialItem 0))) slowAcquired).1.

(** The world of [contendedRun] when its first attempt begins, and after
    its acquire is refused. *)
Definition contendedEnv : Env := quietEnv (λ _, 0) "P2".

Definition contendedStart : World :=
  (sequenceLogger_log contendedEnv "P2" "Started" (Some 1) None
     (initialWorld (chainTable (leasedItem "P1" 1000)))).1.

Definition contendedRefused : World :=
  (acquireStep stubDate contendedEnv "HASH-CHAIN-1" "P2" contendedStart).1.

(** A history of two clients: "P2" is refused while "P1" holds the
    lease, and acquires after the release of "P1". *)
Definition duel : list Request :=
  [ AcquireRequest "HASH-CHAIN-1" "P1" 0 30;
    AcquireRequest "HASH-CHAIN-1" "P2" 10 40;
    ReleaseRequest "HASH-CHAIN-1" "P1" (AttrS "h1") 20 20;
    AcquireRequest "HASH-CHAIN-1" "P2" 21 51;
    ReleaseRequest "HASH-CHAIN-1" "P2" (AttrS "h2") 25 25 ].

(** The example's table before any run, a clock that stands at second 5
    with nobody else on the table, and a record that has lost its
    hash. *)
Definition freshWorld : World := initialWorld (chainTable (initialItem 0)).

Definition steadyEnv : Env := quietEnv (λ _, 5000) "P1".

Definition hashlessItem : Item := {[ "id" := AttrS "HASH-CHAIN-1" ]}.

(** Two runs one after the other on the same table, by clients whose
    clocks disagree: the clock of "P1" stands at second 100 and that of
    "P2", which runs second, at second 40. *)
Definition aheadRun : World * (Error + option ()) :=
  extendHashChain stubDigest stubDate (quietEnv (λ _, 100000) "P1") 1
    "HASH-CHAIN-1" 1 1 freshWorld.

Definition behindRun : World * (Error + option ()) :=
  extendHashChain stubDigest stubDate (quietEnv (λ _, 40000) "P2") 1
    "HASH-CHAIN-1" 1 1 (initialWorld (table aheadRun.1)).

(** Answers of the service to the scripts: a setup that finds the table
    ACTIVE at its third poll, a table that stays in creation, a table
    that exists already, a teardown that sees the table once more before
    it is gone, and a table that is not there. *)
Definition setupEnv : AdminEnv :=
  {| answers := λ k,
       match k with
       | 1 => inl ResourceNotFoundException
       | 2 => inr (Some "CREATING")
       | 3 => inr (Some "ACTIVE")
       | _ => inr None
       end%nat;
     adminNow := 5500 |}.

Definition creatingEnv : AdminEnv :=
  {| answers := λ _, inr (Some "CREATING"); adminNow := 5500 |}.

Definition takenEnv : AdminEnv :=
  {| answers := λ _, inl (OtherError "ResourceInUseException");
     adminNow := 5500 |}.

Definition teardownEnv : AdminEnv :=
  {| answers := λ k,
       match k with
       | 0 => inr None
       | 1 => inr (Some "DELETING")
       | _ => inl ResourceNotFoundException
       end%nat;
     adminNow := 5500 |}.

Definition goneEnv : AdminEnv :=
  {| answers := λ _, inl ResourceNotFoundException; adminNow := 5500 |}.

(** * Properties *)

(** The 50000 rounds of [generateNextHash] are unfolded last when two
    terms are compared. *)
Strategy 100 [generateNextHash].

(** ** The two requests on the table *)

Lemma acquire_condition itemId pid now lockExpiration (it : Item) :
  evalCondition (ExpressionAttributeValues
                   (acquireCommand itemId pid now lockExpiration)) it
    (ConditionExpression (acquireCommand itemId pid now lockExpiration))
  = Some (acquirable now it).
Proof.
  unfold acquirable; cbn. simplify_map_eq.
  destruct (it !! "lockTime") as [[e|s]|]; by case_bool_decide.
Qed.

Lemma release_condition itemId pid h lastUpdated now (it : Item) :
  evalCondition (ExpressionAttributeValues
                   (releaseCommand itemId pid h lastUpdated now)) it
    (ConditionExpression (releaseCommand itemId pid h lastUpdated now))
  = Some (releasable pid now it).
Proof.
  unfold releasable; cbn. simplify_map_eq.
  destruct (it !! "lockedBy") as [[n|s]|], (it !! "lockTime") as [[e|s']|];
    cbn; try done.
  all: by rewrite ?andb_false_r.
Qed.

Lemma updateItem_acquire itemId pid now lockExpiration (t : Table) :
  updateItem (acquireCommand itemId pid now lockExpiration) t =
  if acquirable now (default ∅ (t !! itemId)) then
    let new := acquired pid lockExpiration
                 (default {[ "id" := AttrS itemId ]} (t !! itemId)) in
    (<[itemId := new]> t, Attributes (Some new))
  else (t, ConditionCheckFailed (t !! itemId)).
Proof.
  unfold updateItem. rewrite acquire_condition.
  change (Key (acquireCommand itemId pid now lockExpiration)) with itemId.
  destruct (acquirable now (default ∅ (t !! itemId))); [|done].
  cbn. simplify_map_eq. done.
Qed.

Lemma updateItem_release itemId pid h lastUpdated now (t : Table) :
  updateItem (releaseCommand itemId pid h lastUpdated now) t =
  if releasable pid now (default ∅ (t !! itemId)) then
    let new := released h lastUpdated
                 (default {[ "id" := AttrS itemId ]} (t !! itemId)) in
    (<[itemId := new]> t, Attributes (Some new))
  else (t, ConditionCheckFailed (t !! itemId)).
Proof.
  unfold updateItem. rewrite release_condition.
  change (Key (releaseCommand itemId pid h lastUpdated now)) with itemId.
  destruct (releasable pid now (default ∅ (t !! itemId))); [|done].
  cbn. simplify_map_eq. done.
Qed.

Lemma updateItem_acquire_item itemId pid now lockExpiration (t : Table)
    (it : Item) :
  t !! itemId = Some it →
  updateItem (acquireCommand itemId pid now lockExpiration) t =
  if acquirable now it then
    (<[itemId := acquired pid lockExpiration it]> t,
     Attributes (Some (acquired pid lockExpiration it)))
  else (t, ConditionCheckFailed (Some it)).
Proof. intros H. rewrite updateItem_acquire, H. done. Qed.

Lemma updateItem_release_item itemId pid h lastUpdated now (t : Table)
    (it : Item) :
  t !! itemId = Some it →
  updateItem (releaseCommand itemId pid h lastUpdated now) t =
  if releasable pid now it then
    (<[itemId := released h lastUpdated it]> t,
     Attributes (Some (released h lastUpdated it)))
  else (t, ConditionCheckFailed (Some it)).
Proof. intros H. rewrite updateItem_release, H. done. Qed.

(** Symbolic execution of the state-passing primitives. *)
Ltac mstep :=
  unfold mbind, M_bind, mret, M_ret, tryCatch, throw, Date_now,
    Math_random_100, setTimeout, sequenceLogger_log, pushEvent;
  cbn [fst snd table clockReads randomDraws exchanges events timeouts].

Ltac mrun := repeat progress mstep.

Section ClientProperties.

Variable sha256hex : string → string.
Variable toISOString : Z → string.
Variable env : Env.

Lemma lockInfoOf_world (currentState : option Item) (w : World) :
  (lockInfoOf toISOString currentState w).1 = w.
Proof.
  unfold lockInfoOf. destruct currentState as [st|]; [|done].
  destruct (truthy (st !! "lockedBy")); [|done].
  destruct (st !! "lockedBy"), (st !! "lockTime") as [[t|?]|]; try done.
  by destruct (validTime (t * 1000)).
Qed.

Lemma lockInfoOf_throws (currentState : option Item) (w : World) (e : Error) :
  (lockInfoOf toISOString currentState w).2 = inl e → e = RangeError.
Proof.
  unfold lockInfoOf. destruct currentState as [st|]; [|done].
  destruct (truthy (st !! "lockedBy")); [|done].
  destruct (st !! "lockedBy"), (st !! "lockTime") as [[t|?]|];
    try destruct (validTime (t * 1000)); cbn; congruence.
Qed.

Lemma lockInfoOf_number (currentState : option Item) (w : World) :
  ∀ st, currentState = Some st →
        (∃ e, st !! "lockTime" = Some (AttrN e)
              ∧ validTime (e * 1000) = true) →
        ∃ text, (lockInfoOf toISOString currentState w).2 = inr text.
Proof.
  intros st -> (e & He & Hrange). unfold lockInfoOf. rewrite He.
  destruct (truthy (st !! "lockedBy")) eqn:Htr; [|by eexists].
  destruct (st !! "lockedBy"); [|done]. rewrite Hrange. by eexists.
Qed.

(** Beyond the range of [Date] the text of the expiry does not exist. *)
Lemma lockInfoOf_beyond (st : Item) (e : Z) (w : World) :
  truthy (st !! "lockedBy") = true →
  st !! "lockTime" = Some (AttrN e) →
  validTime (e * 1000) = false →
  lockInfoOf toISOString (Some st) w = (w, inl RangeError).
Proof.
  intros Htr He Hrange. unfold lockInfoOf. rewrite Htr, He.
  destruct (st !! "lockedBy"); [|done]. by rewrite Hrange.
Qed.

Lemma acquirable_iff (now : Z) (it : Item) :
  acquirable now it = true ↔
  (it !! "lockTime" = None ∨
   ∃ e, it !! "lockTime" = Some (AttrN e) ∧ e < now).
Proof.
  unfold acquirable. destruct (it !! "lockTime") as [[e|s]|].
  - rewrite Z.ltb_lt. split; [intros; right; eauto|].
    intros [?|(e' & [= ->] & ?)]; done.
  - split; [done|]. intros [?|(e' & ? & ?)]; done.
  - split; [by left|done].
Qed.

Lemma releasable_iff (pid : string) (now : Z) (it : Item) :
  releasable pid now it = true ↔
  (it !! "lockedBy" = Some (AttrS pid) ∧
   ∃ e, it !! "lockTime" = Some (AttrN e) ∧ now < e).
Proof.
  unfold releasable.
  destruct (it !! "lockedBy") as [[n|h]|], (it !! "lockTime") as [[e|s]|];
    try (split; [done|intros [? (? & ? & ?)]; done]).
  rewrite andb_true_iff, bool_decide_eq_true, Z.gtb_lt.
  split; [intros [-> ?]; eauto|]. intros [[= ->] (e' & [= ->] & ?)]. done.
Qed.

(** The run of a granted acquire. *)
Lemma acquire_granted_run itemId pid lockDuration (w : World) (it : Item) :
  fault env (length (exchanges w)) = None →
  concurrent env (length (exchanges w)) (table w) !! itemId = Some it →
  acquirable (dateNow env (clockReads w) / 1000) it = true →
  let now := dateNow env (clockReads w) / 1000 in
  let new := acquired pid (now + lockDuration) it in
  let run := acquireLockAndRead toISOString env itemId pid lockDuration w in
  run.2 = inr (Some new)
  ∧ table run.1 =
      <[itemId := new]> (concurrent env (length (exchanges w)) (table w))
  ∧ exchanges run.1 =
      exchanges w ++ [(acquireCommand itemId pid now (now + lockDuration),
                       inr (Some new))]
  ∧ timeouts run.1 = timeouts w.
Proof.
  intros Hf Ht Ha now new run. subst run.
  unfold acquireLockAndRead, docClient_send. mrun.
  rewrite Hf, (updateItem_acquire_item _ _ _ _ _ _ Ht), Ha. by mrun.
Qed.

(** The run of a refused acquire. *)
Lemma acquire_refused_run itemId pid lockDuration (w : World) (it : Item) :
  fault env (length (exchanges w)) = None →
  concurrent env (length (exchanges w)) (table w) !! itemId = Some it →
  acquirable (dateNow env (clockReads w) / 1000) it = false →
  let now := dateNow env (clockReads w) / 1000 in
  let run := acquireLockAndRead toISOString env itemId pid lockDuration w in
  (∃ e, run.2 = inl e)
  ∧ ((∃ e, it !! "lockTime" = Some (AttrN e)
           ∧ validTime (e * 1000) = true) →
     ∃ msg, run.2 = inl (LockError msg (Some it)))
  ∧ table run.1 = concurrent env (length (exchanges w)) (table w)
  ∧ exchanges run.1 =
      exchanges w ++ [(acquireCommand itemId pid now (now + lockDuration),
                       inl (ConditionalCheckFailedException (Some it)))]
  ∧ timeouts run.1 = timeouts w.
Proof.
  intros Hf Ht Ha now run. subst run.
  unfold acquireLockAndRead, docClient_send. mrun.
  rewrite Hf, (updateItem_acquire_item _ _ _ _ _ _ Ht), Ha. mrun.
  match goal with |- context [lockInfoOf _ _ ?W] =>
    pose proof (lockInfoOf_world (Some it) W) as Hw;
    pose proof (lockInfoOf_number (Some it) W) as Hn;
    destruct (lockInfoOf toISOString (Some it) W) as [w2 [e|a]]
  end; cbn in Hw, Hn; subst w2; cbn [fst snd table exchanges timeouts].
  - split; [eauto|]. split; [|done].
    intros (e' & He' & Hrange). exfalso.
    destruct (Hn it eq_refl) as [a Ha']; eauto. done.
  - split; [eauto|]. split; [eauto|done].
Qed.

(** The run of a granted release. *)
Lemma release_granted_run itemId pid (updateData : Item)
    (newHash : AttributeValue) (w : World) (it : Item) :
  fault env (length (exchanges w)) = None →
  concurrent env (length (exchanges w)) (table w) !! itemId = Some it →
  updateData !! "currentHash" = Some newHash →
  releasable pid (dateNow env (clockReads w) / 1000) it = true →
  let now := dateNow env (clockReads w) / 1000 in
  let stamp := dateNow env (S (clockReads w)) / 1000 in
  let new := released newHash stamp it in
  let run := updateAndReleaseLock toISOString env itemId pid updateData w in
  run.2 = inr (Some new)
  ∧ table run.1 =
      <[itemId := new]> (concurrent env (length (exchanges w)) (table w))
  ∧ exchanges run.1 =
      exchanges w ++ [(releaseCommand itemId pid newHash stamp now,
                       inr (Some new))]
  ∧ timeouts run.1 = timeouts w.
Proof.
  intros Hf Ht Hh Hr now stamp new run. subst run.
  unfold updateAndReleaseLock, docClient_send. mrun.
  rewrite Hh. mrun.
  rewrite Hf, (updateItem_release_item _ _ _ _ _ _ _ Ht), Hr. by mrun.
Qed.

(** The run of a refused release. *)
Lemma release_refused_run itemId pid (updateData : Item)
    (newHash : AttributeValue) (w : World) (it : Item) :
  fault env (length (exchanges w)) = None →
  concurrent env (length (exchanges w)) (table w) !! itemId = Some it →
  updateData !! "currentHash" = Some newHash →
  releasable pid (dateNow env (clockReads w) / 1000) it = false →
  let run := updateAndReleaseLock toISOString env itemId pid updateData w in
  (∃ e, run.2 = inl e)
  ∧ table run.1 = concurrent env (length (exchanges w)) (table w)
  ∧ timeouts run.1 = timeouts w.
Proof.
  intros Hf Ht Hh Hr run. subst run.
  unfold updateAndReleaseLock, docClient_send. mrun.
  rewrite Hh. mrun. rewrite Hf, (updateItem_release_item _ _ _ _ _ _ _ Ht).
  rewrite Hr. mrun.
  match goal with |- context [lockInfoOf _ _ ?W] =>
    pose proof (lockInfoOf_world (Some it) W) as Hw;
    destruct (lockInfoOf toISOString (Some it) W) as [w2 [e|a]]
  end; cbn in Hw; subst w2; cbn [fst snd table exchanges timeouts]; eauto.
Qed.

(** X24. [acquireLockAndRead] on a stored record, with [now] its first
    clock reading in seconds and a duration that gives a safe integer as
    expiry: it succeeds exactly when [lockTime] is absent or strictly
    less than [now]; on success it writes
    [lockTime := now + lockDuration] and [lockedBy := pid], leaves every
    other attribute (the current hash among them) as it was and returns
    the whole record as written, in its only request; when [lockTime] is
    not below [now] and within the range of [Date], it throws a
    [LockError] that carries the record as it stood, holder and expiry
    included, and the table is not changed. *)
Theorem acquireLockAndRead_spec itemId pid lockDuration (w : World)
    (it : Item) :
  fault env (length (exchanges w)) = None →
  concurrent env (length (exchanges w)) (table w) !! itemId = Some it →
  safeInteger (dateNow env (clockReads w) / 1000 + lockDuration) = true →
  let now := dateNow env (clockReads w) / 1000 in
  let t := concurrent env (length (exchanges w)) (table w) in
  let w' := (acquireLockAndRead toISOString env itemId pid lockDuration w).1 in
  let r := (acquireLockAndRead toISOString env itemId pid lockDuration w).2 in
  let new := acquired pid (now + lockDuration) it in
  ((∃ v, r = inr v) ↔
     (it !! "lockTime" = None ∨
      ∃ e, it !! "lockTime" = Some (AttrN e) ∧ e < now))
  ∧ ((∃ v, r = inr v) →
       r = inr (Some new) ∧ table w' = <[itemId := new]> t
       ∧ new !! "lockTime" = Some (AttrN (now + lockDuration))
       ∧ new !! "lockedBy" = Some (AttrS pid)
       ∧ (∀ a, a ≠ "lockTime" → a ≠ "lockedBy" → new !! a = it !! a)
       ∧ length (exchanges w') = S (length (exchanges w)))
  ∧ (∀ e, it !! "lockTime" = Some (AttrN e) → now ≤ e →
       validTime (e * 1000) = true →
       (∃ msg, r = inl (LockError msg (Some it))) ∧ table w' = t).
Proof.
  intros Hf Ht Hsafe now t w' r new. subst w' r.
  rewrite <- (acquirable_iff now it).
  destruct (acquirable now it) eqn:Ha.
  - destruct (acquire_granted_run itemId pid lockDuration w it Hf Ht Ha)
      as (Hr & Htab & Hex & _).
    rewrite Hr, Htab, Hex. fold now new.
    split; [split; eauto|]. split.
    + intros _. split; [done|]. split; [done|]. unfold new, acquired.
      split; [by simplify_map_eq|]. split; [by simplify_map_eq|].
      split; [intros a H1 H2; by simplify_map_eq|].
      rewrite length_app. cbn. lia.
    + intros e He Hle. apply acquirable_iff in Ha.
      destruct Ha as [?|(e' & ? & ?)]; simplify_eq. lia.
  - destruct (acquire_refused_run itemId pid lockDuration w it Hf Ht Ha)
      as ([e He] & Hlock & Htab & _).
    split; [rewrite He; split; [intros [v Hv]|]; done|].
    split; [rewrite He; intros [v Hv]; done|].
    intros e' He' _ Hrange. split; [apply Hlock; eauto|done].
Qed.

(** C3 (as amended). [updateAndReleaseLock] on a stored record, with
    [now] its first clock reading in seconds and [stamp] its second one:
    it succeeds exactly when [lockedBy] is [pid] and [lockTime] is
    strictly greater than [now]; on success it writes, in one request,
    [currentHash := newHash] and [lastUpdated := stamp] and removes
    [lockTime] and [lockedBy]; when it fails the table is unchanged. *)
Theorem updateAndReleaseLock_spec itemId pid (updateData : Item)
    (newHash : AttributeValue) (w : World) (it : Item) :
  fault env (length (exchanges w)) = None →
  concurrent env (length (exchanges w)) (table w) !! itemId = Some it →
  updateData !! "currentHash" = Some newHash →
  let now := dateNow env (clockReads w) / 1000 in
  let stamp := dateNow env (S (clockReads w)) / 1000 in
  let t := concurrent env (length (exchanges w)) (table w) in
  let w' := (updateAndReleaseLock toISOString env itemId pid updateData w).1 in
  let r := (updateAndReleaseLock toISOString env itemId pid updateData w).2 in
  let new := released newHash stamp it in
  ((∃ v, r = inr v) ↔
     (it !! "lockedBy" = Some (AttrS pid) ∧
      ∃ e, it !! "lockTime" = Some (AttrN e) ∧ now < e))
  ∧ ((∃ v, r = inr v) →
       r = inr (Some new) ∧ table w' = <[itemId := new]> t
       ∧ new !! "currentHash" = Some newHash
       ∧ new !! "lastUpdated" = Some (AttrN stamp)
       ∧ new !! "lockTime" = None ∧ new !! "lockedBy" = None
       ∧ length (exchanges w') = S (length (exchanges w)))
  ∧ ((∃ e, r = inl e) → table w' = t).
Proof.
  intros Hf Ht Hh now stamp t w' r new. subst w' r.
  rewrite <- (releasable_iff pid now it).
  destruct (releasable pid now it) eqn:Hr.
  - destruct (release_granted_run itemId pid updateData newHash w it
                Hf Ht Hh Hr) as (Hres & Htab & Hex & _).
    rewrite Hres, Htab, Hex. fold stamp new.
    split; [split; eauto|]. split; [|intros [e He]; done].
    intros _. split; [done|]. split; [done|]. unfold new, released.
    repeat (split; [by simplify_map_eq|]).
    rewrite length_app. cbn. lia.
  - destruct (release_refused_run itemId pid updateData newHash w it
                Hf Ht Hh Hr) as ([e He] & Htab & _).
    rewrite He, Htab. split; [split; [intros [v Hv]|]; done|].
    split; [intros [v Hv]; done|done].
Qed.



(** C10 (as amended). A release that is granted writes the
    [currentHash] of the record it is given and nothing else of it, and
    stamps [lastUpdated] with the second clock reading that
    [updateAndReleaseLock] takes itself while it builds the request: a
    reading of the caller's clock, taken before the request is sent, and
    the last one the call takes.  Two records with the same
    [currentHash] give the same run, so the [lastUpdated] that
    [extendHashChain] computed and the lock attributes copied from the
    acquired item are never written.  On a record that [pid] holds with
    a [lockTime] above the first reading the release is granted: the
    request carries that [currentHash] and that stamp, the record is
    written with them and without its lock attributes, and every other
    attribute stays as stored; and every release that returns has
    written exactly this. *)
Theorem updateAndReleaseLock_reads_currentHash_only itemId pid
    (updateData : Item) (w : World) :
  let now := dateNow env (clockReads w) / 1000 in
  let stamp := dateNow env (S (clockReads w)) / 1000 in
  let t := concurrent env (length (exchanges w)) (table w) in
  (∀ other : Item,
     other !! "currentHash" = updateData !! "currentHash" →
     updateAndReleaseLock toISOString env itemId pid other w =
     updateAndReleaseLock toISOString env itemId pid updateData w)
  ∧ (∀ (item item' : Item) nextHash lastUpdated lastUpdated',
       updateAndReleaseLock toISOString env itemId pid
         (updatedItemOf item nextHash lastUpdated) w =
       updateAndReleaseLock toISOString env itemId pid
         (updatedItemOf item' nextHash lastUpdated') w)
  ∧ (∀ (it : Item) (h : AttributeValue),
       fault env (length (exchanges w)) = None →
       t !! itemId = Some it →
       updateData !! "currentHash" = Some h →
       it !! "lockedBy" = Some (AttrS pid) →
       (∃ e, it !! "lockTime" = Some (AttrN e) ∧ now < e) →
       let run := updateAndReleaseLock toISOString env itemId pid updateData w in
       let new := released h stamp it in
       run.2 = inr (Some new)
       ∧ table run.1 = <[itemId := new]> t
       ∧ exchanges run.1
         = exchanges w ++ [(releaseCommand itemId pid h stamp now,
                            inr (Some new))]
       ∧ clockReads run.1 = S (S (clockReads w))
       ∧ new !! "currentHash" = Some h
       ∧ new !! "lastUpdated" = Some (AttrN stamp)
       ∧ new !! "lockTime" = None ∧ new !! "lockedBy" = None
       ∧ (∀ a, a ≠ "currentHash" → a ≠ "lastUpdated" → a ≠ "lockTime" →
               a ≠ "lockedBy" → new !! a = it !! a))
  ∧ (∀ (it new : Item),
       fault env (length (exchanges w)) = None →
       t !! itemId = Some it →
       let run := updateAndReleaseLock toISOString env itemId pid updateData w in
       run.2 = inr (Some new) →
       ∃ h, updateData !! "currentHash" = Some h
            ∧ new = released h stamp it
            ∧ table run.1 = <[itemId := new]> t
            ∧ it !! "lockedBy" = Some (AttrS pid)
            ∧ ∃ e, it !! "lockTime" = Some (AttrN e) ∧ now < e).
Proof.
  intros now stamp t.
  assert (Hsame : ∀ u1 u2 : Item,
            u1 !! "currentHash" = u2 !! "currentHash" →
            updateAndReleaseLock toISOString env itemId pid u1 w =
            updateAndReleaseLock toISOString env itemId pid u2 w).
  { intros u1 u2 H. unfold updateAndReleaseLock. mrun. by rewrite H. }
  split; [intros; by apply Hsame|].
  split.
  { intros. apply Hsame. unfold updatedItemOf.
    destruct nextHash; by simplify_map_eq. }
  split.
  - intros it h Hf Ht Hh Hby Hlease run new.
    assert (Hr : releasable pid now it = true)
      by (apply releasable_iff; by split).
    assert (Hrun : run = ({| table := <[itemId := new]> t;
                            clockReads := S (S (clockReads w));
                            randomDraws := randomDraws w;
                            exchanges :=
                              exchanges w
                              ++ [(releaseCommand itemId pid h stamp now,
                                   inr (Some new))];
                            events := events w;
                            timeouts := timeouts w |}, inr (Some new))).
    { unfold run, updateAndReleaseLock, docClient_send. mrun.
      rewrite Hh. mrun.
      rewrite Hf, (updateItem_release_item _ _ _ _ _ _ _ Ht). fold now.
      rewrite Hr. by mrun. }
    rewrite Hrun. cbn [fst snd table exchanges clockReads].
    repeat (split; [done|]). unfold new, released.
    repeat (split; [by simplify_map_eq|]).
    intros a ????. by simplify_map_eq.
  - intros it new Hf Ht run Hres. unfold run in *.
    destruct (updateData !! "currentHash") as [h|] eqn:Hh.
    + destruct (releasable pid now it) eqn:Hr.
      * destruct (release_granted_run itemId pid updateData h w it
                    Hf Ht Hh Hr) as (Hres' & Htab & _).
        rewrite Hres' in Hres. injection Hres as <-.
        exists h. split; [done|]. split; [done|]. split; [done|].
        by apply releasable_iff in Hr.
      * destruct (release_refused_run itemId pid updateData h w it
                    Hf Ht Hh Hr) as ([e He] & _).
        rewrite He in Hres. done.
    + revert Hres. unfold updateAndReleaseLock. mrun. rewrite Hh. by mrun.
Qed.

End ClientProperties.

(** ** The two operations on concrete records *)

Lemma acquireLockAndRead_spec_witness :
  (acquireLockAndRead stubDate (quietEnv (λ _, 5000) "P1") "HASH-CHAIN-1"
     "P1" 30 (initialWorld (chainTable (initialItem 0)))).2
  = inr (Some (acquired "P1" 35 (initialItem 0)))
  ∧ ∃ msg,
      (acquireLockAndRead stubDate (quietEnv (λ _, 5000) "P2") "HASH-CHAIN-1"
         "P2" 30 (initialWorld (chainTable (leasedItem "P1" 35)))).2
      = inl (LockError msg (Some (leasedItem "P1" 35))).
Proof.
  split.
  - destruct (acquireLockAndRead_spec stubDate (quietEnv (λ _, 5000) "P1")
                "HASH-CHAIN-1" "P1" 30
                (initialWorld (chainTable (initialItem 0))) (initialItem 0))
      as (Hiff & Hok & _); [compute_done|compute_done|compute_done|].
    apply Hok, Hiff. left. compute_done.
  - destruct (acquireLockAndRead_spec stubDate (quietEnv (λ _, 5000) "P2")
                "HASH-CHAIN-1" "P2" 30
                (initialWorld (chainTable (leasedItem "P1" 35)))
                (leasedItem "P1" 35))
      as (_ & _ & Hrefused); [compute_done|compute_done|compute_done|].
    destruct (Hrefused 35) as [Hmsg _];
      [compute_done|compute_done|compute_done|].
    exact Hmsg.
Defined.


Lemma updateAndReleaseLock_spec_witness :
  (updateAndReleaseLock stubDate (quietEnv (λ _, 5000) "P1")
     "HASH-CHAIN-1" "P1" {[ "currentHash" := AttrS "abc" ]}
     (initialWorld (chainTable (leasedItem "P1" 35)))).2
  = inr (Some (released (AttrS "abc") 5 (leasedItem "P1" 35)))
  ∧ table (updateAndReleaseLock stubDate (quietEnv (λ _, 5000) "P2")
             "HASH-CHAIN-1" "P2" {[ "currentHash" := AttrS "abc" ]}
             (initialWorld (chainTable (leasedItem "P1" 35)))).1
    = chainTable (leasedItem "P1" 35).
Proof.
  split.
  - destruct (updateAndReleaseLock_spec stubDate (quietEnv (λ _, 5000) "P1")
                "HASH-CHAIN-1" "P1" {[ "currentHash" := AttrS "abc" ]}
                (AttrS "abc")
                (initialWorld (chainTable (leasedItem "P1" 35)))
                (leasedItem "P1" 35))
      as (Hiff & Hok & _); [compute_done|compute_done|compute_done|].
    apply Hok, Hiff. split; [compute_done|].
    exists 35. split; compute_done.
  - destruct (updateAndReleaseLock_spec stubDate (quietEnv (λ _, 5000) "P2")
                "HASH-CHAIN-1" "P2" {[ "currentHash" := AttrS "abc" ]}
                (AttrS "abc")
                (initialWorld (chainTable (leasedItem "P1" 35)))
                (leasedItem "P1" 35))
      as (_ & _ & Hrefused); [compute_done|compute_done|compute_done|].
    apply Hrefused.
    exists (LockError
              "Failed to update item HASH-CHAIN-1 - locked by process P1 until 35000"
              (Some (leasedItem "P1" 35))).
    compute_done.
Defined.

(** Against C3 as worded ([lastUpdated := now]): the release below
    succeeds with [now = 100] in its condition, and the [lastUpdated] it
    writes is 101, the second reading of the clock. *)
Lemma release_stamps_second_reading :
  (updateAndReleaseLock stubDate (quietEnv tickingClock "P1") "HASH-CHAIN-1"
     "P1" {[ "currentHash" := AttrS "abc" ]}
     (initialWorld (chainTable (leasedItem "P1" 130)))).2
  = inr (Some (released (AttrS "abc") 101 (leasedItem "P1" 130)))
  ∧ tickingClock 0 / 1000 = 100
  ∧ released (AttrS "abc") 101 (leasedItem "P1" 130) !! "lastUpdated"
    = Some (AttrN 101)
  ∧ released (AttrS "abc") 101 (leasedItem "P1" 130) !! "lastUpdated"
    ≠ Some (AttrN (tickingClock 0 / 1000)).
Proof. compute_done. Qed.



Lemma updateAndReleaseLock_reads_currentHash_only_witness :
  (updateAndReleaseLock stubDate (quietEnv tickingClock "P1") "HASH-CHAIN-1"
     "P1" (leasedItem "P9" 77)
     (initialWorld (chainTable (leasedItem "P1" 130)))).2
  = inr (Some (released (AttrS zeroDigest) 101 (leasedItem "P1" 130)))
  ∧ released (AttrS zeroDigest) 101 (leasedItem "P1" 130) !! "lastUpdated"
    = Some (AttrN 101).
Proof.
  destruct (updateAndReleaseLock_reads_currentHash_only stubDate
              (quietEnv tickingClock "P1") "HASH-CHAIN-1" "P1"
              (leasedItem "P9" 77)
              (initialWorld (chainTable (leasedItem "P1" 130))))
    as (_ & _ & Hgranted & _).
  destruct (Hgranted (leasedItem "P1" 130) (AttrS zeroDigest))
    as (Hres & _ & _ & _ & _ & Hstamp & _).
  - reflexivity.
  - compute_done.
  - compute_done.
  - compute_done.
  - exists 130. split; compute_done.
  - split; [exact Hres|exact Hstamp].
Defined.

(** Against C10 as worded (the stamp is a clock reading of the time of
    the store's write): "P1", whose clock stands at second 100, extends
    the chain, and then "P2", whose clock stands at second 40, extends
    it on the table "P1" left.  Both runs return, and the write of "P2",
    which the store serves after that of "P1", leaves the record with
    the earlier [lastUpdated].  Readings of the time of the store's
    writes would not go back from one write to a later one: the stamp is
    what the clock of the caller read before the request was sent. *)
Lemma release_stamp_is_the_callers_reading :
  aheadRun.2 = inr (Some ())
  ∧ table aheadRun.1 !! "HASH-CHAIN-1" ≫= (.!! "lastUpdated")
    = Some (AttrN 100)
  ∧ behindRun.2 = inr (Some ())
  ∧ table behindRun.1 !! "HASH-CHAIN-1" ≫= (.!! "lastUpdated")
    = Some (AttrN 40).
Proof. compute_done. Qed.

(** ** Histories of requests *)

Lemma serve_acquire (t : Table) itemId pid now lockExpiration :
  serve t (AcquireRequest itemId pid now lockExpiration) =
  if acquirable now (default ∅ (t !! itemId))
  then <[itemId := acquired pid lockExpiration
                     (default {[ "id" := AttrS itemId ]} (t !! itemId))]> t
  else t.
Proof.
  unfold serve; cbn [commandOf]. rewrite updateItem_acquire.
  by destruct (acquirable _ _).
Qed.

Lemma serve_release (t : Table) itemId pid h lastUpdated now :
  serve t (ReleaseRequest itemId pid h lastUpdated now) =
  if releasable pid now (default ∅ (t !! itemId))
  then <[itemId := released h lastUpdated
                     (default {[ "id" := AttrS itemId ]} (t !! itemId))]> t
  else t.
Proof.
  unfold serve; cbn [commandOf]. rewrite updateItem_release.
  by destruct (releasable _ _).
Qed.

Lemma granted_acquire (t : Table) itemId pid now lockExpiration :
  granted t (AcquireRequest itemId pid now lockExpiration) =
  acquirable now (default ∅ (t !! itemId)).
Proof.
  unfold granted; cbn [commandOf]. rewrite updateItem_acquire.
  by destruct (acquirable _ _).
Qed.

Lemma granted_release (t : Table) itemId pid h lastUpdated now :
  granted t (ReleaseRequest itemId pid h lastUpdated now) =
  releasable pid now (default ∅ (t !! itemId)).
Proof.
  unfold granted; cbn [commandOf]. rewrite updateItem_release.
  by destruct (releasable _ _).
Qed.

Lemma serve_other_key (t : Table) (q : Request) (k : string) :
  requestKey q ≠ k → serve t q !! k = t !! k.
Proof.
  intros Hk. destruct q as [k' h n e|k' h c l n]; cbn in Hk.
  - rewrite serve_acquire. destruct (acquirable _ _); by simplify_map_eq.
  - rewrite serve_release. destruct (releasable _ _); by simplify_map_eq.
Qed.

Lemma stateAt_S (t0 : Table) (qs : list Request) (i : nat) (q : Request) :
  qs !! i = Some q → stateAt t0 qs (S i) = serve (stateAt t0 qs i) q.
Proof.
  intros H. unfold stateAt. rewrite (take_S_r _ _ _ H), foldl_app. done.
Qed.

Lemma acquired_paired pid lockExpiration (it : Item) :
  leasePaired (acquired pid lockExpiration it).
Proof. unfold leasePaired, acquired. by simplify_map_eq. Qed.

Lemma released_paired h lastUpdated (it : Item) :
  leasePaired (released h lastUpdated it).
Proof. unfold leasePaired, released. by simplify_map_eq. Qed.

Lemma serve_paired (t : Table) (q : Request) :
  leaseFieldsPaired t → leaseFieldsPaired (serve t q).
Proof.
  intros Ht k it. destruct q as [k' h n e|k' h c l n].
  - rewrite serve_acquire. destruct (acquirable _ _); [|apply Ht].
    destruct (decide (k' = k)) as [->|]; simplify_map_eq; [|apply Ht].
    intros [= <-]. apply acquired_paired.
  - rewrite serve_release. destruct (releasable _ _); [|apply Ht].
    destruct (decide (k' = k)) as [->|]; simplify_map_eq; [|apply Ht].
    intros [= <-]. apply released_paired.
Qed.

(** C7. Each request of the protocol keeps [lockTime] and [lockedBy]
    both present or both absent on every record: the acquire sets both
    in its one update and the release removes both in its one update;
    so every table the system can reach, from the empty table or the
    initial item, has the pair together on each of its records. *)
Theorem lease_fields_paired :
  (∀ (t : Table) (q : Request),
     leaseFieldsPaired t → leaseFieldsPaired (serve t q))
  ∧ (∀ t : Table, reachable t → leaseFieldsPaired t).
Proof.
  split; [apply serve_paired|].
  induction 1 as [|now t _ IH|t q _ IH].
  - intros k it. by rewrite lookup_empty.
  - intros k it. destruct (decide ("HASH-CHAIN-1" = k)) as [<-|].
    + rewrite lookup_insert_eq. intros [= <-]. unfold leasePaired, initialItem.
      by simplify_map_eq.
    + rewrite lookup_insert_ne by done. apply IH.
  - by apply serve_paired.
Qed.

Lemma serve_notHeldBy (t : Table) (q : Request) (k h : string) :
  ¬ (requestKey q = k ∧ requestHolder q = h) →
  notHeldBy k h t → notHeldBy k h (serve t q).
Proof.
  intros Hq Ht it.
  destruct (decide (requestKey q = k)) as [Hk|Hk];
    [|rewrite serve_other_key by done; apply Ht].
  assert (Hh : requestHolder q ≠ h) by tauto.
  destruct q as [k' h' n e|k' h' c l n]; cbn in Hk, Hh; subst k'.
  - rewrite serve_acquire. destruct (acquirable _ _); [|apply Ht].
    rewrite lookup_insert_eq. intros [= <-]. unfold acquired.
    simplify_map_eq. congruence.
  - rewrite serve_release. destruct (releasable _ _); [|apply Ht].
    rewrite lookup_insert_eq. intros [= <-]. unfold released.
    by simplify_map_eq.
Qed.

Lemma granted_acquire_notHeldBy (t : Table) (q : Request) (k h : string) :
  granted t q = true → isAcquireRequest q = true → requestKey q = k →
  requestHolder q ≠ h → notHeldBy k h (serve t q).
Proof.
  intros Hg Ha Hk Hh it. destruct q as [k' h' n e|]; [|done].
  cbn in Hk, Hh; subst k'. rewrite granted_acquire in Hg.
  rewrite serve_acquire, Hg, lookup_insert_eq. intros [= <-].
  unfold acquired. simplify_map_eq. congruence.
Qed.

Lemma granted_release_held (t : Table) (q : Request) (k h : string) :
  granted t q = true → isAcquireRequest q = false → requestKey q = k →
  requestHolder q = h → ¬ notHeldBy k h t.
Proof.
  intros Hg Ha Hk Hh Hn. destruct q as [|k' h' c l n]; [done|].
  cbn in Hk, Hh; subst k' h'. rewrite granted_release in Hg.
  unfold releasable in Hg. destruct (t !! k) as [it|] eqn:Hit; cbn in Hg.
  - specialize (Hn it Hit).
    destruct (it !! "lockedBy") as [[?|h']|]; try done.
    destruct (it !! "lockTime") as [[?|?]|]; try done.
    apply andb_true_iff in Hg as [Hg _]. apply bool_decide_eq_true in Hg.
    congruence.
  - by rewrite lookup_empty in Hg.
Qed.

(** A granted acquire of another holder cannot fall within a cycle. *)
Lemma cycle_excludes_acquire (t0 : Table) (qs : list Request)
    (k h1 h2 : string) (a1 r1 a2 : nat) (q2 : Request) :
  cycle t0 qs k h1 a1 r1 →
  qs !! a2 = Some q2 → isAcquireRequest q2 = true → requestKey q2 = k →
  requestHolder q2 = h2 → grantedAt t0 qs a2 = true →
  (a1 < a2 < r1)%nat → False.
Proof.
  intros (Hlt & _ & (qr & Hqr & Hrel & Hrk & Hrh) & _ & Hgr & Hbetween)
    Hq2 Hacq Hk Hh Hg2 [Ha Hr].
  destruct (decide (h2 = h1)) as [->|Hne];
    [by apply (Hbetween a2 q2)|].
  assert (Hinv : ∀ j, (a2 < j ≤ r1)%nat → notHeldBy k h1 (stateAt t0 qs j)).
  { induction j as [|j IH]; [lia|]. intros Hj.
    destruct (decide (j = a2)) as [->|Hja].
    - rewrite (stateAt_S _ _ _ _ Hq2).
      unfold grantedAt in Hg2. rewrite Hq2 in Hg2.
      apply granted_acquire_notHeldBy; try done. congruence.
    - assert (Hjlt : (j < length qs)%nat).
      { apply lookup_lt_Some in Hqr. lia. }
      destruct (lookup_lt_is_Some_2 qs j Hjlt) as [q Hq].
      rewrite (stateAt_S _ _ _ _ Hq).
      apply serve_notHeldBy; [apply (Hbetween j q); [lia|done]|].
      apply IH. lia. }
  unfold grantedAt in Hgr. rewrite Hqr in Hgr.
  apply (granted_release_held _ _ k h1 Hgr Hrel Hrk Hrh).
  apply Hinv. lia.
Qed.

(** C6. Two successful acquire-to-release cycles on the same key never
    overlap: in the order in which the table serves the requests one
    cycle ends before the other begins, so for every clock that does not
    run backwards the half-open intervals from the instant of the acquire
    to the instant of the release are disjoint; an acquire is granted
    only when no holder has a valid lease at its [now]; and at no
    instant do two distinct holders hold a valid lease on the record. *)
Theorem mutual_exclusion (t0 : Table) (qs : list Request)
    (instant : nat → Z) (k h1 h2 : string) (a1 r1 a2 r2 : nat) :
  (∀ i j, (i ≤ j)%nat → instant i ≤ instant j) →
  cycle t0 qs k h1 a1 r1 →
  cycle t0 qs k h2 a2 r2 →
  a1 ≠ a2 →
  (((r1 < a2)%nat ∧ instant r1 ≤ instant a2)
   ∨ ((r2 < a1)%nat ∧ instant r2 ≤ instant a1))
  ∧ (∀ (t : Table) (h h' : string) (now lockExpiration : Z),
       granted t (AcquireRequest k h now lockExpiration) = true →
       ¬ holdsLease t k h' now)
  ∧ (∀ (i : nat) (h h' : string) (now : Z),
       holdsLease (stateAt t0 qs i) k h now →
       holdsLease (stateAt t0 qs i) k h' now → h = h').
Proof.
  intros Hmono C1 C2 Hne. split; [|split].
  - pose proof C1 as (Hlt1 & (q1 & Hq1 & Hacq1 & Hk1 & Hh1) &
                      (p1 & Hp1 & Hrel1 & _) & Hg1 & _).
    pose proof C2 as (Hlt2 & (q2 & Hq2 & Hacq2 & Hk2 & Hh2) &
                      (p2 & Hp2 & Hrel2 & _) & Hg2 & _).
    assert (a2 ≠ r1) by (intros ->; congruence).
    assert (a1 ≠ r2) by (intros ->; congruence).
    destruct (decide (a1 < a2)%nat) as [Hlt|Hge].
    + left. assert (r1 < a2)%nat as Hr; [|split; [done|apply Hmono; lia]].
      destruct (decide (r1 < a2)%nat); [done|]. exfalso.
      apply (cycle_excludes_acquire t0 qs k h1 h2 a1 r1 a2 q2); try done.
      lia.
    + right. assert (r2 < a1)%nat as Hr; [|split; [done|apply Hmono; lia]].
      destruct (decide (r2 < a1)%nat); [done|]. exfalso.
      apply (cycle_excludes_acquire t0 qs k h2 h1 a2 r2 a1 q1); try done.
      lia.
  - intros t h h' now e Hg (it & e' & Hit & _ & He' & Hnow).
    rewrite granted_acquire, Hit in Hg. cbn in Hg.
    unfold acquirable in Hg. rewrite He' in Hg. apply Z.ltb_lt in Hg. lia.
  - intros i h h' now (it & e & Hit & Hh & _) (it' & e' & Hit' & Hh' & _).
    congruence.
Qed.

(** ** What one attempt does to the world *)

Lemma countAcquires_app (l l' : list (UpdateCommand * (Error + option Item))) :
  countAcquires (l ++ l') = (countAcquires l + countAcquires l')%nat.
Proof. induction l as [|x l IH]; cbn; [done|]. rewrite IH. lia. Qed.

Lemma countAcquires_acquire l itemId pid now lockExpiration r :
  countAcquires (l ++ [(acquireCommand itemId pid now lockExpiration, r)])
  = S (countAcquires l).
Proof.
  rewrite countAcquires_app.
  change (countAcquires [(acquireCommand itemId pid now lockExpiration, r)])
    with 1%nat.
  lia.
Qed.

Lemma countAcquires_release l itemId pid h lastUpdated now r :
  countAcquires (l ++ [(releaseCommand itemId pid h lastUpdated now, r)])
  = countAcquires l.
Proof.
  rewrite countAcquires_app.
  change (countAcquires [(releaseCommand itemId pid h lastUpdated now, r)])
    with 0%nat.
  lia.
Qed.

Section RunProperties.

Variable sha256hex : string → string.
Variable toISOString : Z → string.
Variable env : Env.

Lemma acquireLockAndRead_frame itemId pid lockDuration (w : World) :
  let run := acquireLockAndRead toISOString env itemId pid lockDuration w in
  timeouts run.1 = timeouts w
  ∧ randomDraws run.1 = randomDraws w
  ∧ acquireAttempts run.1 = S (acquireAttempts w).
Proof.
  cbv zeta. unfold acquireLockAndRead, docClient_send, acquireAttempts. mrun.
  destruct (fault env (length (exchanges w))); mrun.
  { by rewrite countAcquires_acquire. }
  destruct (updateItem _ _) as [t' [attrs|old|]]; mrun.
  2: match goal with |- context [lockInfoOf _ ?st ?W] =>
       pose proof (lockInfoOf_world toISOString st W) as Hw;
       destruct (lockInfoOf toISOString st W) as [w2 [e|a]]
     end; cbn in Hw; subst w2;
     cbn [fst snd table exchanges timeouts randomDraws].
  all: by rewrite countAcquires_acquire.
Qed.

Lemma updateAndReleaseLock_frame itemId pid (updateData : Item) (w : World) :
  let run := updateAndReleaseLock toISOString env itemId pid updateData w in
  timeouts run.1 = timeouts w
  ∧ randomDraws run.1 = randomDraws w
  ∧ acquireAttempts run.1 = acquireAttempts w.
Proof.
  cbv zeta. unfold updateAndReleaseLock, docClient_send, acquireAttempts. mrun.
  destruct (updateData !! "currentHash") as [h|]; mrun; [|done].
  destruct (fault env (length (exchanges w))); mrun.
  { by rewrite countAcquires_release. }
  destruct (updateItem _ _) as [t' [attrs|old|]]; mrun.
  2: match goal with |- context [lockInfoOf _ ?st ?W] =>
       pose proof (lockInfoOf_world toISOString st W) as Hw;
       destruct (lockInfoOf toISOString st W) as [w2 [e|a]]
     end; cbn in Hw; subst w2;
     cbn [fst snd table exchanges timeouts randomDraws].
  all: by rewrite countAcquires_release.
Qed.

(** The hash rounds touch neither the table nor the requests, and what
    they return is [chained]. *)
Lemma generateHashes_run (rounds : nat) pid (i iterations : Z)
    (v : option AttributeValue) (w : World) :
  let run := generateHashes sha256hex env rounds pid i iterations v w in
  run.2 = chained sha256hex rounds v
  ∧ table run.1 = table w
  ∧ exchanges run.1 = exchanges w
  ∧ timeouts run.1 = timeouts w
  ∧ randomDraws run.1 = randomDraws w.
Proof.
  cbv zeta. revert i v w. induction rounds as [|rounds IH]; intros i v w.
  - done.
  - cbn [generateHashes chained]. unfold nextHashOf. mrun.
    destruct v as [[n|h]|]; mrun; try done.
    match goal with |- context [generateHashes _ _ _ _ ?i' _ ?v' ?W] =>
      destruct (IH i' v' W) as (H1 & H2 & H3 & H4 & H5)
    end.
    rewrite H1, H2, H3, H4, H5. done.
Qed.

Lemma extendAndRelease_frame itemId pid iterations (acq : option Item)
    (w : World) :
  let run := extendAndRelease sha256hex toISOString env itemId pid iterations
               acq w in
  timeouts run.1 = timeouts w
  ∧ randomDraws run.1 = randomDraws w
  ∧ acquireAttempts run.1 = acquireAttempts w.
Proof.
  cbv zeta. unfold extendAndRelease. mrun.
  destruct acq as [item|]; mrun; [|done].
  match goal with |- context [generateHashes _ _ ?n ?p ?i ?it ?v ?W] =>
    destruct (generateHashes_run n p i it v W) as (_ & _ & Hex & Hto & Hrd);
    destruct (generateHashes sha256hex env n p i it v W) as [w1 [e|h]]
  end; cbn [fst snd] in *; mrun.
  { unfold acquireAttempts. by rewrite Hex, Hto, Hrd. }
  match goal with |- context [updateAndReleaseLock _ _ ?k ?p ?u ?W] =>
    destruct (updateAndReleaseLock_frame k p u W) as (Hto' & Hrd' & Hat');
    destruct (updateAndReleaseLock toISOString env k p u W) as [w2 [e|r]]
  end; cbn [fst snd] in *; mrun.
  all: unfold acquireAttempts in *; cbn [exchanges] in *.
  all: by rewrite ?Hto', ?Hrd', ?Hat', ?Hex, ?Hto, ?Hrd.
Qed.

Lemma attemptBody_frame itemId pid iterations (w : World) :
  let run := attemptBody sha256hex toISOString env itemId pid iterations w in
  timeouts run.1 = timeouts w
  ∧ randomDraws run.1 = randomDraws w
  ∧ acquireAttempts run.1 = S (acquireAttempts w).
Proof.
  cbv zeta. unfold attemptBody, acquireStep. mrun.
  match goal with |- context [acquireLockAndRead _ _ ?k ?p ?d ?W] =>
    destruct (acquireLockAndRead_frame k p d W) as (Hto & Hrd & Hat);
    destruct (acquireLockAndRead toISOString env k p d W) as [w1 [e|acq]]
  end; cbn [fst snd] in *; [done|].
  destruct (extendAndRelease_frame itemId pid iterations acq w1)
    as (Hto' & Hrd' & Hat').
  by rewrite Hto', Hrd', Hat'.
Qed.

(** The catch block: a [LockError] before the last attempt draws a
    backoff, awaits it and lets the loop go on; on the last attempt it is
    thrown again; any other error is thrown again at once. *)
Lemma attemptCatch_run pid (attempt maxRetries : Z) (e : Error) (w : World) :
  let run := attemptCatch env pid attempt maxRetries e w in
  exchanges run.1 = exchanges w
  ∧ table run.1 = table w
  ∧ match e with
    | LockError _ _ =>
        if attempt <? maxRetries
        then run.2 = inr true
             ∧ timeouts run.1 = timeouts w ++ [random100 env (randomDraws w)]
        else run.2 = inl e ∧ timeouts run.1 = timeouts w
    | _ => run.2 = inl e ∧ timeouts run.1 = timeouts w
    end.
Proof.
  cbv zeta. unfold attemptCatch. destruct e; mrun; try done.
  destruct (attempt <? maxRetries); by mrun.
Qed.

Lemma attemptLoop_unfold fuel itemId pid (iterations attempt maxRetries : Z)
    (w : World) :
  attempt ≤ maxRetries →
  attemptLoop sha256hex toISOString env (S fuel) itemId pid iterations
    attempt maxRetries w =
  match attemptBody sha256hex toISOString env itemId pid iterations w with
  | (w1, inr _) => (w1, inr (Some ()))
  | (w1, inl e) =>
      match attemptCatch env pid attempt maxRetries e w1 with
      | (w2, inr true) =>
          attemptLoop sha256hex toISOString env fuel itemId pid iterations
            (attempt + 1) maxRetries w2
      | (w2, inr false) => (w2, inr (Some ()))
      | (w2, inl e') => (w2, inl e')
      end
  end.
Proof.
  intros Hle. cbn [attemptLoop].
  rewrite (proj2 (Z.leb_le attempt maxRetries) Hle). mrun.
  destruct (attemptBody _ _ _ _ _ _ w) as [w1 [e|[]]]; [|done].
  destruct (attemptCatch _ _ _ _ _ w1) as [w2 [e'|[|]]]; done.
Qed.

Lemma attemptLoop_done fuel itemId pid (iterations attempt maxRetries : Z)
    (w : World) :
  maxRetries < attempt →
  attemptLoop sha256hex toISOString env fuel itemId pid iterations
    attempt maxRetries w = (w, inr (Some ())).
Proof.
  intros Hlt. destruct fuel; cbn [attemptLoop];
    by rewrite (proj2 (Z.leb_gt attempt maxRetries) Hlt).
Qed.

(** With fuel for every attempt still allowed the loop ends by itself:
    it returns or throws, makes at most that many acquire requests, and
    more fuel changes nothing. *)
Lemma attemptLoop_bound fuel itemId pid (iterations maxRetries : Z) :
  ∀ (attempt : Z) (w : World),
    (Z.to_nat (maxRetries - attempt + 1) ≤ fuel)%nat →
    let run := attemptLoop sha256hex toISOString env fuel itemId pid
                 iterations attempt maxRetries w in
    run.2 ≠ inr None
    ∧ (acquireAttempts w ≤ acquireAttempts run.1
       ≤ acquireAttempts w + Z.to_nat (maxRetries - attempt + 1))%nat
    ∧ run = attemptLoop sha256hex toISOString env
              (Z.to_nat (maxRetries - attempt + 1)) itemId pid iterations
              attempt maxRetries w.
Proof.
  induction fuel as [|fuel IH]; intros attempt w Hfuel; cbv zeta.
  - assert (maxRetries < attempt) by lia.
    rewrite !attemptLoop_done by done. cbn. repeat split; try done; lia.
  - destruct (decide (attempt ≤ maxRetries)) as [Hle|Hgt].
    2: { rewrite !attemptLoop_done by lia. cbn. repeat split; try done; lia. }
    assert (Hrem : Z.to_nat (maxRetries - attempt + 1)
                   = S (Z.to_nat (maxRetries - (attempt + 1) + 1))) by lia.
    rewrite Hrem, !attemptLoop_unfold by done.
    destruct (attemptBody_frame itemId pid iterations w) as (_ & _ & Hat).
    destruct (attemptBody _ _ _ _ _ _ w) as [w1 [e|[]]]; cbn [fst snd] in *.
    2: { repeat split; try done; lia. }
    destruct (attemptCatch_run pid attempt maxRetries e w1) as (Hex & _ & _).
    destruct (attemptCatch _ _ _ _ _ w1) as [w2 [e'|[|]]]; cbn [fst snd] in *.
    + unfold acquireAttempts in *. rewrite Hex. repeat split; try done; lia.
    + destruct (IH (attempt + 1) w2) as (H1 & H2 & H3); [lia|].
      unfold acquireAttempts in *. rewrite Hex in *.
      split; [done|]. split; [lia|done].
    + unfold acquireAttempts in *. rewrite Hex. repeat split; try done; lia.
Qed.

Lemma attemptLoop_monotone fuel itemId pid (iterations maxRetries : Z) :
  ∀ (attempt : Z) (w : World),
    (acquireAttempts w ≤
     acquireAttempts (attemptLoop sha256hex toISOString env fuel itemId pid
                        iterations attempt maxRetries w).1)%nat.
Proof.
  induction fuel as [|fuel IH]; intros attempt w.
  - cbn [attemptLoop]. destruct (attempt <=? maxRetries); by mrun.
  - destruct (decide (attempt ≤ maxRetries)) as [Hle|Hgt];
      [|by rewrite attemptLoop_done by lia].
    rewrite attemptLoop_unfold by done.
    destruct (attemptBody_frame itemId pid iterations w) as (_ & _ & Hat).
    destruct (attemptBody _ _ _ _ _ _ w) as [w1 [e|[]]]; cbn [fst snd] in *;
      [|lia].
    destruct (attemptCatch_run pid attempt maxRetries e w1) as (Hex & _ & _).
    destruct (attemptCatch _ _ _ _ _ w1) as [w2 [e'|[|]]]; cbn [fst snd] in *.
    + unfold acquireAttempts in *. rewrite Hex. lia.
    + specialize (IH (attempt + 1) w2). unfold acquireAttempts in *.
      rewrite Hex in *. lia.
    + unfold acquireAttempts in *. rewrite Hex. lia.
Qed.

Lemma attemptLoop_attempts fuel itemId pid (iterations attempt maxRetries : Z)
    (w : World) :
  attempt ≤ maxRetries →
  (acquireAttempts w <
   acquireAttempts (attemptLoop sha256hex toISOString env (S fuel) itemId pid
                      iterations attempt maxRetries w).1)%nat.
Proof.
  intros Hle. rewrite attemptLoop_unfold by done.
  destruct (attemptBody_frame itemId pid iterations w) as (_ & _ & Hat).
  destruct (attemptBody _ _ _ _ _ _ w) as [w1 [e|[]]]; cbn [fst snd] in *;
    [|lia].
  destruct (attemptCatch_run pid attempt maxRetries e w1) as (Hex & _ & _).
  destruct (attemptCatch _ _ _ _ _ w1) as [w2 [e'|[|]]]; cbn [fst snd] in *.
  - unfold acquireAttempts in *. rewrite Hex. lia.
  - pose proof (attemptLoop_monotone fuel itemId pid iterations maxRetries
                  (attempt + 1) w2) as Hm.
    unfold acquireAttempts in *. rewrite Hex in *. lia.
  - unfold acquireAttempts in *. rewrite Hex. lia.
Qed.

Lemma chained_not_LockError (rounds : nat) (v : option AttributeValue)
    (msg : string) (st : option Item) :
  chained sha256hex rounds v ≠ inl (LockError msg st).
Proof.
  revert v. induction rounds as [|n IH]; intros v; [done|].
  cbn [chained]. destruct v as [[?|?]|]; done.
Qed.

(** A [LockError] out of the part of the [try] block that follows the
    acquire is the refusal of the release request. *)
Lemma extendAndRelease_LockError itemId pid iterations (acq : option Item)
    (w w' : World) (msg : string) (st : option Item) :
  extendAndRelease sha256hex toISOString env itemId pid iterations acq w
  = (w', inl (LockError msg st)) →
  ∃ cmd, last (exchanges w') =
           Some (cmd, inl (ConditionalCheckFailedException st))
         ∧ isAcquire cmd = false.
Proof.
  unfold extendAndRelease. mrun. destruct acq as [item|]; mrun; [|done].
  match goal with |- context [generateHashes _ _ ?n ?p ?i ?it ?v ?W] =>
    destruct (generateHashes_run n p i it v W) as (Hres & _);
    destruct (generateHashes sha256hex env n p i it v W) as [w1 [e|h]]
  end; cbn [fst snd] in *; mrun.
  { intros [= <- ->]. symmetry in Hres. by apply chained_not_LockError in Hres. }
  unfold updateAndReleaseLock, docClient_send. mrun.
  destruct (updatedItemOf _ _ _ !! "currentHash") as [c|]; mrun; [|done].
  destruct (fault env _); mrun; [done|].
  destruct (updateItem _ _) as [t' [attrs|old|]]; mrun; [done| |done].
  match goal with |- context [lockInfoOf _ ?s ?W] =>
    pose proof (lockInfoOf_world toISOString s W) as Hw;
    pose proof (lockInfoOf_throws toISOString s W) as Hthrow;
    destruct (lockInfoOf toISOString s W) as [w2 [e|a]]
  end; cbn in Hw, Hthrow; subst w2.
  - intros [= <- ->]. by specialize (Hthrow _ eq_refl).
  - intros [= <- <- <-]. cbn [exchanges]. rewrite last_snoc. eauto.
Qed.

(** ** The retry loop *)

(** C1 (as amended). A release that fails with a [LockError] ends the run
    only on the last attempt.  When the acquire of an attempt succeeded
    and the rest of its [try] block threw a [LockError] (the refusal of
    its release request), then before the last attempt the catch block
    draws a backoff, awaits it and the loop goes on with the next attempt
    on the table as it stands, which sends a further acquire request and,
    if that is granted, runs the hash rounds again; on the last attempt
    the error is thrown again with no further request and no timer. *)
Theorem failed_release_retried_before_last_attempt fuel itemId pid
    (iterations attempt maxRetries : Z) (w w1 w2 : World)
    (acq : option Item) (msg : string) (st : option Item) :
  attempt ≤ maxRetries →
  acquireStep toISOString env itemId pid w = (w1, inr acq) →
  extendAndRelease sha256hex toISOString env itemId pid iterations acq w1
    = (w2, inl (LockError msg st)) →
  let run := attemptLoop sha256hex toISOString env (S fuel) itemId pid
               iterations attempt maxRetries w in
  let caught := attemptCatch env pid attempt maxRetries (LockError msg st) w2 in
  (∃ cmd, last (exchanges w2) =
            Some (cmd, inl (ConditionalCheckFailedException st))
          ∧ isAcquire cmd = false)
  ∧ (attempt < maxRetries →
       caught.2 = inr true
       ∧ timeouts caught.1 = timeouts w2 ++ [random100 env (randomDraws w2)]
       ∧ table caught.1 = table w2
       ∧ exchanges caught.1 = exchanges w2
       ∧ run = attemptLoop sha256hex toISOString env fuel itemId pid
                 iterations (attempt + 1) maxRetries caught.1
       ∧ (fuel ≠ O → (acquireAttempts w2 < acquireAttempts run.1)%nat))
  ∧ (attempt = maxRetries →
       run.2 = inl (LockError msg st)
       ∧ exchanges run.1 = exchanges w2
       ∧ timeouts run.1 = timeouts w2).
Proof.
  intros Hle Hacq Hrel run caught.
  split; [by eapply extendAndRelease_LockError|].
  assert (Hbody : attemptBody sha256hex toISOString env itemId pid iterations w
                  = (w2, inl (LockError msg st))).
  { unfold attemptBody. unfold mbind at 1, M_bind at 1. by rewrite Hacq, Hrel. }
  assert (Hrun : run = match caught with
                       | (w3, inr true) =>
                           attemptLoop sha256hex toISOString env fuel itemId
                             pid iterations (attempt + 1) maxRetries w3
                       | (w3, inr false) => (w3, inr (Some ()))
                       | (w3, inl e') => (w3, inl e')
                       end).
  { unfold run. rewrite attemptLoop_unfold by done. by rewrite Hbody. }
  destruct (attemptCatch_run pid attempt maxRetries (LockError msg st) w2)
    as (Hex & Htab & Hcase).
  fold caught in Hex, Htab, Hcase. split.
  - intros Hlt. rewrite (proj2 (Z.ltb_lt _ _) Hlt) in Hcase.
    destruct Hcase as [Hres Hto].
    destruct caught as [w3 r]; cbn [fst snd] in *. subst r.
    repeat (split; [done|]). intros Hfuel.
    destruct fuel as [|fuel']; [done|]. rewrite Hrun.
    pose proof (attemptLoop_attempts fuel' itemId pid iterations (attempt + 1)
                  maxRetries w3 ltac:(lia)) as Hm.
    unfold acquireAttempts in *. rewrite Hex in Hm. done.
  - intros ->. rewrite Z.ltb_irrefl in Hcase. destruct Hcase as [Hres Hto].
    destruct caught as [w3 r]; cbn [fst snd] in *. subst r.
    by rewrite Hrun.
Qed.

(** C5 (as amended). When the acquire of the attempt numbered
    [maxRetries] throws its [LockError], the run ends with that very
    error, which holds a message and the record as it stood (holder and
    expiry), and no count of attempts; no timer is awaited and no further
    request is sent.  In particular with [maxRetries = 1], on a record
    whose [lockTime] is not below [now] and is within the range of
    [Date], the run ends so after one acquire request and without any
    timer. *)
Theorem last_attempt_contended fuel itemId (iterations : Z) :
  (∀ (pid : string) (maxRetries : Z) (w w1 : World) (msg : string)
     (st : option Item),
     acquireStep toISOString env itemId pid w
       = (w1, inl (LockError msg st)) →
     let run := attemptLoop sha256hex toISOString env (S fuel) itemId pid
                  iterations maxRetries maxRetries w in
     run.2 = inl (LockError msg st)
     ∧ timeouts run.1 = timeouts w
     ∧ exchanges run.1 = exchanges w1
     ∧ table run.1 = table w1)
  ∧ (∀ (w : World) (it : Item) (e : Z),
       fault env (length (exchanges w)) = None →
       concurrent env (length (exchanges w)) (table w) !! itemId = Some it →
       it !! "lockTime" = Some (AttrN e) →
       dateNow env (S (S (clockReads w))) / 1000 ≤ e →
       validTime (e * 1000) = true →
       let run := extendHashChain sha256hex toISOString env (S fuel) itemId
                    iterations 1 w in
       (∃ msg, run.2 = inl (LockError msg (Some it)))
       ∧ timeouts run.1 = timeouts w
       ∧ acquireAttempts run.1 = S (acquireAttempts w)
       ∧ length (exchanges run.1) = S (length (exchanges w))
       ∧ table run.1 = concurrent env (length (exchanges w)) (table w)).
Proof.
  assert (Hlast : ∀ (pid : string) (maxRetries : Z) (w w1 : World)
                    (msg : string) (st : option Item),
     acquireStep toISOString env itemId pid w
       = (w1, inl (LockError msg st)) →
     let run := attemptLoop sha256hex toISOString env (S fuel) itemId pid
                  iterations maxRetries maxRetries w in
     run.2 = inl (LockError msg st)
     ∧ timeouts run.1 = timeouts w1
     ∧ exchanges run.1 = exchanges w1
     ∧ table run.1 = table w1).
  { intros pid maxRetries w w1 msg st Hacq run. unfold run.
    rewrite attemptLoop_unfold by lia.
    assert (Hbody : attemptBody sha256hex toISOString env itemId pid
                      iterations w = (w1, inl (LockError msg st))).
    { unfold attemptBody. unfold mbind at 1, M_bind at 1. by rewrite Hacq. }
    rewrite Hbody.
    destruct (attemptCatch_run pid maxRetries maxRetries (LockError msg st) w1)
      as (Hex & Htab & Hcase).
    rewrite Z.ltb_irrefl in Hcase. destruct Hcase as [Hres Hto].
    destruct (attemptCatch _ _ _ _ _ w1) as [w3 r]; cbn [fst snd] in *.
    by subst r. }
  split.
  - intros pid maxRetries w w1 msg st Hacq run.
    destruct (Hlast pid maxRetries w w1 msg st Hacq) as (H1 & H2 & H3 & H4).
    repeat (split; [done|]). split; [|done]. fold run in H2. rewrite H2.
    revert Hacq. unfold acquireStep. mrun.
    match goal with |- context [acquireLockAndRead _ _ ?k ?p ?d ?W] =>
      destruct (acquireLockAndRead_frame k p d W) as (Hto & _);
      destruct (acquireLockAndRead toISOString env k p d W) as [w' [err|a]]
    end; cbn [fst snd] in *; [|done].
    by intros [= <- _].
  - intros w it e Hf Ht He Hnow Hrange run. unfold run, extendHashChain. mrun.
    match goal with |- context [attemptLoop _ _ _ _ _ ?p _ _ _ ?W] =>
      set (w0 := W); set (pid := p)
    end.
    assert (Ha : acquirable (dateNow env (S (S (clockReads w))) / 1000) it
                 = false).
    { unfold acquirable. rewrite He. apply Z.ltb_ge. lia. }
    pose (w0' := {| table := table w; clockReads := S (S (clockReads w));
                    randomDraws := randomDraws w; exchanges := exchanges w;
                    events := events w ++
                      [{| time := dateNow env (clockReads w)
                                  - loggerStartTime env;
                          processId := pid; action := "Started";
                          quantity := Some iterations; success := None |};
                       {| time := dateNow env (S (clockReads w))
                                  - loggerStartTime env;
                          processId := pid; action := "Acquiring lock";
                          quantity := None; success := None |}];
                    timeouts := timeouts w |}).
    destruct (acquire_refused_run toISOString env itemId pid 30 w0' it Hf Ht Ha)
      as (_ & Hlock & Htab & Hex & Hto).
    destruct Hlock as [msg Hmsg]; [eauto|].
    assert (Hacq : acquireStep toISOString env itemId pid w0
                   = (acquireLockAndRead toISOString env itemId pid 30 w0')).
    { unfold acquireStep, w0, w0'. mrun. by rewrite <- app_assoc. }
    destruct (acquireLockAndRead toISOString env itemId pid 30 w0')
      as [w1 r] eqn:Hrun1; cbn [fst snd] in Hmsg, Htab, Hex, Hto. subst r.
    destruct (Hlast pid 1 w0 w1 msg (Some it) Hacq) as (H1 & H2 & H3 & H4).
    rewrite H1, H2, H3, H4, Hto, Htab. unfold acquireAttempts.
    rewrite H3, Hex, countAcquires_acquire, length_app. cbn.
    repeat split; eauto; lia.
Qed.

Lemma chained_S (rounds : nat) (v : option AttributeValue) :
  chained sha256hex (S rounds) v =
  match v with
  | Some (AttrS h) =>
      chained sha256hex rounds (Some (AttrS (workTransform sha256hex h)))
  | _ => inl TypeError
  end.
Proof. reflexivity. Qed.

Lemma chained_string (rounds : nat) (h : string) :
  chained sha256hex rounds (Some (AttrS h))
  = inr (Some (AttrS (Nat.iter rounds (workTransform sha256hex) h))).
Proof.
  revert h. induction rounds as [|n IH]; intros h; [reflexivity|].
  rewrite chained_S, IH, Nat.iter_succ_r. reflexivity.
Qed.

(** C8. The chained hash is a function of the payload and the number of
    rounds alone: two runs of the hash rounds from the same payload with
    the same count return the same result, whatever the clocks, the
    process identifiers and the worlds they run in; on a string payload
    it is the work transform, [generateNextHash] with its 50000 digests,
    iterated [N] times, each round on the output of the round before. *)
Theorem hash_chain_deterministic (P : option AttributeValue) (N : Z)
    (env1 env2 : Env) (pid1 pid2 : string) (w1 w2 : World) :
  (generateHashes sha256hex env1 (Z.to_nat N) pid1 0 N P w1).2
  = (generateHashes sha256hex env2 (Z.to_nat N) pid2 0 N P w2).2
  ∧ (∀ h : string,
       P = Some (AttrS h) →
       (generateHashes sha256hex env1 (Z.to_nat N) pid1 0 N P w1).2
       = inr (Some (AttrS (Nat.iter (Z.to_nat N)
                             (workTransform sha256hex) h))))
  ∧ (∀ h : string,
       workTransform sha256hex h = generateNextHash sha256hex h 50000)
  ∧ (∀ (h : string) (workFactor : Z),
       generateNextHash sha256hex h workFactor
       = N.iter (Z.to_N workFactor) sha256hex h).
Proof.
  assert (Hrun : ∀ (e : Env) pid w,
            (generateHashes sha256hex e (Z.to_nat N) pid 0 N P w).2
            = chained sha256hex (Z.to_nat N) P).
  { intros e pid w. generalize 0. generalize (Z.to_nat N) as n.
    intros n i. revert i. revert P w.
    induction n as [|n IH]; intros P w i; [done|].
    cbn [generateHashes chained]. unfold nextHashOf. mrun.
    destruct P as [[?|h]|]; mrun; first [done|apply IH]. }
  split; [by rewrite !Hrun|]. split.
  - intros h ->. rewrite Hrun. apply chained_string.
  - split; [intros h; unfold workTransform; reflexivity|].
    intros h workFactor. unfold generateNextHash. reflexivity.
Qed.

(** C9. For [maxRetries >= 1] a run ends within [maxRetries] iterations
    of the attempt loop: with fuel for [maxRetries] iterations it returns
    or throws, never running out of fuel, and more fuel gives the same
    run; the run sends at most [maxRetries] acquire requests. *)
Theorem extendHashChain_bounded fuel itemId (iterations maxRetries : Z)
    (w : World) :
  1 ≤ maxRetries →
  (Z.to_nat maxRetries ≤ fuel)%nat →
  let run := extendHashChain sha256hex toISOString env fuel itemId
               iterations maxRetries w in
  (run.2 = inr (Some ()) ∨ ∃ e, run.2 = inl e)
  ∧ run = extendHashChain sha256hex toISOString env (Z.to_nat maxRetries)
            itemId iterations maxRetries w
  ∧ (acquireAttempts w ≤ acquireAttempts run.1)%nat
  ∧ Z.of_nat (acquireAttempts run.1 - acquireAttempts w) ≤ maxRetries.
Proof.
  intros Hmax Hfuel run. unfold run, extendHashChain. mrun.
  match goal with |- context [attemptLoop _ _ _ fuel _ ?p _ _ _ ?W] =>
    destruct (attemptLoop_bound fuel itemId p iterations maxRetries 1 W)
      as (Hres & Hat & Hsame); [lia|]
  end.
  replace (Z.to_nat (maxRetries - 1 + 1)) with (Z.to_nat maxRetries)
    in Hat, Hsame by lia.
  split; [|split; [done|]].
  - destruct (attemptLoop _ _ _ fuel _ _ _ _ _ _) as [w' [e|[[]|]]];
      cbn [fst snd] in *; eauto. done.
  - change (acquireAttempts w) with
      (acquireAttempts
         {| table := table w; clockReads := S (clockReads w);
            randomDraws := randomDraws w; exchanges := exchanges w;
            events := events w ++
              [{| time := dateNow env (clockReads w) - loggerStartTime env;
                  processId := ulid env; action := "Started";
                  quantity := Some iterations; success := None |}];
            timeouts := timeouts w |}).
    lia.
Qed.

End RunProperties.

(** ** Runs of the scenarios *)

(** Against C1 as worded (a failed release ends the run): in [slowRun]
    the release of the first attempt is refused (the hash round outlived the lease), and the run
    goes on: it awaits a backoff, sends a second acquire, which is
    granted, runs the hash round again and releases. *)
Lemma release_failure_followed_by_second_attempt :
  exchangeKinds slowRun.1
  = [(true, true); (false, false); (true, true); (false, true)]
  ∧ map action (events slowRun.1)
    = ["Started"; "Acquiring lock"; "Lock request took 0ms"; "Lock acquired";
       "Generating hashes"; "Generated hash 1/1 (took 31000ms)";
       "Lock failed"; "Retrying in 42ms"; "Acquiring lock";
       "Lock request took 0ms"; "Lock acquired"; "Generating hashes";
       "Generated hash 1/1 (took 0ms)"; "Chain extended"]
  ∧ timeouts slowRun.1 = [42]
  ∧ acquireAttempts slowRun.1 = 2%nat
  ∧ slowRun.2 = inr (Some ()).
Proof. compute_done. Qed.

Lemma failed_release_retried_before_last_attempt_witness :
  (acquireAttempts slowRefused <
   acquireAttempts
     (attemptLoop stubDigest stubDate slowEnv 2 "HASH-CHAIN-1" "P1" 1 1 2
        slowStart).1)%nat
  ∧ (attemptLoop stubDigest stubDate slowEnv 1 "HASH-CHAIN-1" "P1" 1 1 1
       slowStart).2
    = inl (LockError
             "Failed to update item HASH-CHAIN-1 - locked by process P1 until 30000"
             (Some (acquired "P1" 30 (initialItem 0)))).
Proof.
  split.
  - destruct (failed_release_retried_before_last_attempt stubDigest stubDate
                slowEnv 1 "HASH-CHAIN-1" "P1" 1 1 2 slowStart slowAcquired
                slowRefused (Some (acquired "P1" 30 (initialItem 0)))
                "Failed to update item HASH-CHAIN-1 - locked by process P1 until 30000"
                (Some (acquired "P1" 30 (initialItem 0))))
      as (_ & Hretry & _); [lia|compute_done|compute_done|].
    destruct Hretry as (_ & _ & _ & _ & _ & Hmore); [lia|].
    apply Hmore. discriminate.
  - destruct (failed_release_retried_before_last_attempt stubDigest stubDate
                slowEnv 0 "HASH-CHAIN-1" "P1" 1 1 1 slowStart slowAcquired
                slowRefused (Some (acquired "P1" 30 (initialItem 0)))
                "Failed to update item HASH-CHAIN-1 - locked by process P1 until 30000"
                (Some (acquired "P1" 30 (initialItem 0))))
      as (_ & _ & Hlast); [lia|compute_done|compute_done|].
    destruct Hlast as [Hthrown _]; [reflexivity|]. exact Hthrown.
Defined.

(** Against C5 as worded (the error carries the number of attempts):
    the error after one attempt and the error after two attempts are the
    same value, a [LockError] with a message and the record; it holds no
    count of attempts. *)
Lemma exhaustion_error_without_attempt_count :
  acquireAttempts (contendedRun 1).1 = 1%nat
  ∧ acquireAttempts (contendedRun 2).1 = 2%nat
  ∧ (contendedRun 1).2 = (contendedRun 2).2
  ∧ (contendedRun 2).2
    = inl (LockError
             "Failed to acquire lock for item HASH-CHAIN-1 - locked by process P1 until 1000000"
             (Some (leasedItem "P1" 1000))).
Proof. compute_done. Qed.

Lemma last_attempt_contended_witness :
  (timeouts (contendedRun 1).1 = []
   ∧ acquireAttempts (contendedRun 1).1 = 1%nat)
  ∧ (attemptLoop stubDigest stubDate contendedEnv 1 "HASH-CHAIN-1" "P2" 1 1 1
       contendedStart).2
    = inl (LockError
             "Failed to acquire lock for item HASH-CHAIN-1 - locked by process P1 until 1000000"
             (Some (leasedItem "P1" 1000))).
Proof.
  destruct (last_attempt_contended stubDigest stubDate contendedEnv 0
              "HASH-CHAIN-1" 1) as [Hlast Hone].
  split.
  - destruct (Hone (initialWorld (chainTable (leasedItem "P1" 1000)))
                (leasedItem "P1" 1000) 1000)
      as (_ & Hto & Hat & _);
      [compute_done|compute_done|compute_done|compute_done|compute_done|].
    split; [exact Hto|exact Hat].
  - destruct (Hlast "P2" 1 contendedStart contendedRefused
                "Failed to acquire lock for item HASH-CHAIN-1 - locked by process P1 until 1000000"
                (Some (leasedItem "P1" 1000)))
      as [Hthrown _]; [compute_done|].
    exact Hthrown.
Defined.

Lemma extendHashChain_bounded_witness :
  Z.of_nat (acquireAttempts slowRun.1
            - acquireAttempts (initialWorld (chainTable (initialItem 0)))) ≤ 2.
Proof.
  apply (extendHashChain_bounded stubDigest stubDate slowEnv 2 "HASH-CHAIN-1"
           1 2 (initialWorld (chainTable (initialItem 0)))).
  - lia.
  - compute_done.
Defined.

(** ** A history of two clients *)

Lemma duel_cycle_P1 :
  cycle (chainTable (initialItem 0)) duel "HASH-CHAIN-1" "P1" 0 2.
Proof.
  split; [lia|]. split; [by eexists|]. split; [by eexists|].
  split; [compute_done|]. split; [compute_done|].
  intros j q Hj Hq [_ Hh]. assert (j = 1%nat) as -> by lia.
  injection Hq as <-. discriminate Hh.
Defined.

Lemma duel_cycle_P2 :
  cycle (chainTable (initialItem 0)) duel "HASH-CHAIN-1" "P2" 3 4.
Proof.
  split; [lia|]. split; [by eexists|]. split; [by eexists|].
  split; [compute_done|]. split; [compute_done|].
  intros j q Hj Hq. lia.
Defined.

Lemma mutual_exclusion_witness :
  (((2 < 3)%nat ∧ 2 ≤ 3) ∨ ((4 < 0)%nat ∧ 4 ≤ 0))
  ∧ ¬ holdsLease (stateAt (chainTable (initialItem 0)) duel 3)
        "HASH-CHAIN-1" "P1" 21
  ∧ "P1" = "P1".
Proof.
  destruct (mutual_exclusion (chainTable (initialItem 0)) duel Z.of_nat
              "HASH-CHAIN-1" "P1" "P2" 0 2 3 4)
    as (Hdisjoint & Hfree & Hunique).
  - intros i j Hij. lia.
  - exact duel_cycle_P1.
  - exact duel_cycle_P2.
  - discriminate.
  - split; [exact Hdisjoint|]. split.
    + apply (Hfree _ "P2" "P1" 21 51). compute_done.
    + apply (Hunique 1%nat "P1" "P1" 5).
      all: exists (acquired "P1" 30 (initialItem 0)), 30.
      all: split; [compute_done|]; split; [compute_done|].
      all: split; [compute_done|lia].
Defined.

Lemma lease_fields_paired_witness :
  leaseFieldsPaired
    (serve (chainTable (initialItem 0))
       (AcquireRequest "HASH-CHAIN-1" "P1" 0 30))
  ∧ leaseFieldsPaired
      (serve (chainTable (leasedItem "P1" 30))
         (ReleaseRequest "HASH-CHAIN-1" "P1" (AttrS "abc") 5 5)).
Proof.
  destruct lease_fields_paired as [Hstep Hreach]. split.
  - apply Hreach. apply reachable_served.
    apply (reachable_put 0 ∅). apply reachable_created.
  - apply Hstep. apply Hreach.
    apply (reachable_served (chainTable (initialItem 0))
             (AcquireRequest "HASH-CHAIN-1" "P1" 0 30)).
    apply (reachable_put 0 ∅). apply reachable_created.
Defined.

Lemma hash_chain_deterministic_witness :
  (generateHashes stubDigest slowEnv (Z.to_nat 2) "P1" 0 2 (Some (AttrS "abc"))
     slowStart).2
  = inr (Some (AttrS (Nat.iter (Z.to_nat 2) (workTransform stubDigest) "abc"))).
Proof.
  destruct (hash_chain_deterministic stubDigest (Some (AttrS "abc")) 2
              slowEnv slowEnv "P1" "P1" slowStart slowStart)
    as (_ & Hstring & _).
  apply Hstring. reflexivity.
Defined.

(** * Further properties of the client *)

(** ** A whole attempt *)

Section WholeRuns.

Variable sha256hex : string → string.
Variable toISOString : Z → string.
Variable env : Env.

Lemma acquired_lookup pid lockExpiration (it : Item) :
  acquired pid lockExpiration it !! "lockedBy" = Some (AttrS pid)
  ∧ acquired pid lockExpiration it !! "lockTime" = Some (AttrN lockExpiration)
  ∧ acquired pid lockExpiration it !! "currentHash" = it !! "currentHash".
Proof. unfold acquired. repeat split; by simplify_map_eq. Qed.

(** One attempt on a record that can be acquired and holds a string
    hash, when no request fails, nobody else writes the record, and the
    clock stays within the lease: the attempt ends in a granted release
    that writes the hash after [iterations] work transforms. *)
Lemma attemptBody_extends itemId pid (iterations : Z) (w : World)
    (it : Item) (h : string) :
  (∀ k, fault env k = None) →
  (∀ k t, concurrent env k t !! itemId = t !! itemId) →
  (∀ k k', dateNow env k' / 1000 < dateNow env k / 1000 + 30) →
  table w !! itemId = Some it →
  (∀ k, acquirable (dateNow env k / 1000) it = true) →
  it !! "currentHash" = Some (AttrS h) →
  ∃ (w1 : World) (k0 k1 : nat),
    attemptBody sha256hex toISOString env itemId pid iterations w
      = (w1, inr ())
    ∧ table w1 !! itemId =
        Some (released
                (AttrS (Nat.iter (Z.to_nat iterations)
                          (workTransform sha256hex) h))
                (dateNow env k1 / 1000)
                (acquired pid (dateNow env k0 / 1000 + 30) it))
    ∧ length (exchanges w1) = S (S (length (exchanges w)))
    ∧ acquireAttempts w1 = S (acquireAttempts w)
    ∧ timeouts w1 = timeouts w.
Proof.
  intros Hfault Hquiet Hclock Ht Hfree Hh.
  unfold attemptBody, acquireStep. mrun.
  match goal with |- context [acquireLockAndRead _ _ _ _ _ ?W] =>
    destruct (acquire_granted_run toISOString env itemId pid 30 W it)
      as (Hr & Htab & Hex & Hto);
      [apply Hfault|cbn [table exchanges]; by rewrite Hquiet|apply Hfree|];
    destruct (acquireLockAndRead toISOString env itemId pid 30 W)
      as [w1 r1]
  end.
  cbn [fst snd clockReads table exchanges timeouts] in Hr, Htab, Hex, Hto.
  subst r1. unfold extendAndRelease. mrun.
  set (new1 := acquired pid (dateNow env (S (clockReads w)) / 1000 + 30) it)
    in *.
  destruct (acquired_lookup pid (dateNow env (S (clockReads w)) / 1000 + 30) it)
    as (Hby & Htime & Hcur). fold new1 in Hby, Htime, Hcur.
  rewrite Hcur, Hh.
  match goal with |- context [generateHashes _ _ ?n ?p ?i ?N ?v ?W] =>
    destruct (generateHashes_run sha256hex env n p i N v W)
      as (Hg & Hgt & Hge & Hgo & _);
    destruct (generateHashes sha256hex env n p i N v W) as [w3 r3]
  end.
  cbn [fst snd clockReads table exchanges timeouts] in Hg, Hgt, Hge, Hgo.
  rewrite chained_string in Hg. subst r3. mrun.
  set (H := Nat.iter (Z.to_nat iterations) (workTransform sha256hex) h) in *.
  match goal with |- context [updateAndReleaseLock _ _ _ _ ?u ?W] =>
    destruct (release_granted_run toISOString env itemId pid u (AttrS H) W
                new1) as (Hr & Htab' & Hex' & Hto');
      [apply Hfault
      |cbn [table exchanges]; by rewrite Hquiet, Hgt, Htab, lookup_insert_eq
      |unfold updatedItemOf; by simplify_map_eq
      |unfold releasable; rewrite Hby, Htime;
       rewrite bool_decide_eq_true_2 by done; apply Z.gtb_lt, Hclock|];
    destruct (updateAndReleaseLock toISOString env itemId pid u W)
      as [w4 r4]
  end.
  cbn [fst snd clockReads table exchanges timeouts] in Hr, Htab', Hex', Hto'.
  subst r4. mrun.
  eexists _, (S (clockReads w)), (S (S (clockReads w3))).
  split; [reflexivity|]. cbn [table exchanges timeouts].
  split; [by rewrite Htab', lookup_insert_eq|].
  unfold acquireAttempts. cbn [exchanges].
  rewrite Hex', Hge, Hex, Hto', Hgo, Hto.
  rewrite countAcquires_release, countAcquires_acquire, !length_app. cbn.
  repeat split; lia.
Qed.

Lemma released_acquired_lookup c stamp pid lockExpiration (it : Item) :
  let new := released c stamp (acquired pid lockExpiration it) in
  new !! "currentHash" = Some c
  ∧ new !! "lastUpdated" = Some (AttrN stamp)
  ∧ new !! "lockTime" = None
  ∧ new !! "lockedBy" = None
  ∧ (∀ a, a ≠ "currentHash" → a ≠ "lastUpdated" → a ≠ "lockTime" →
          a ≠ "lockedBy" → new !! a = it !! a).
Proof.
  cbv zeta. unfold released, acquired.
  repeat (split; [by simplify_map_eq|]). intros a ????. by simplify_map_eq.
Qed.

Lemma extendHashChain_first_attempt fuel itemId (iterations maxRetries : Z)
    (w : World) (it : Item) (h : string) :
  (∀ k, fault env k = None) →
  (∀ k t, concurrent env k t !! itemId = t !! itemId) →
  (∀ k k', dateNow env k' / 1000 < dateNow env k / 1000 + 30) →
  table w !! itemId = Some it →
  (∀ k, acquirable (dateNow env k / 1000) it = true) →
  it !! "currentHash" = Some (AttrS h) →
  1 ≤ maxRetries →
  fuel ≠ O →
  let run := extendHashChain sha256hex toISOString env fuel itemId
               iterations maxRetries w in
  run.2 = inr (Some ())
  ∧ length (exchanges run.1) = S (S (length (exchanges w)))
  ∧ timeouts run.1 = timeouts w
  ∧ ∃ k0 k1 : nat,
      table run.1 !! itemId =
        Some (released
                (AttrS (Nat.iter (Z.to_nat iterations)
                          (workTransform sha256hex) h))
                (dateNow env k1 / 1000)
                (acquired (ulid env) (dateNow env k0 / 1000 + 30) it)).
Proof.
  intros Hfault Hquiet Hclock Ht Hfree Hh Hmax Hfuel run.
  destruct fuel as [|fuel]; [done|].
  unfold run, extendHashChain. mrun.
  rewrite attemptLoop_unfold by lia.
  match goal with |- context [attemptBody _ _ _ _ ?p _ ?W] =>
    destruct (attemptBody_extends itemId p iterations W it h)
      as (w1 & k0 & k1 & Hbody & Htab & Hex & _ & Hto); try done
  end.
  rewrite Hbody. cbn [fst snd].
  cbn [exchanges timeouts] in Hex, Hto. eauto 10.
Qed.

(** X1. A run on a record that can be acquired and holds a string hash,
    when no request fails, nobody else writes the record and the clock
    stays within the lease: the first attempt succeeds.  The run returns
    after two requests and no timer, and leaves the record with the hash
    after [iterations] work transforms, a [lastUpdated] read from the
    clock, no lock attribute, and every other attribute as it was. *)
Theorem extendHashChain_extends fuel itemId (iterations maxRetries : Z)
    (w : World) (it : Item) (h : string) :
  (∀ k, fault env k = None) →
  (∀ k t, concurrent env k t !! itemId = t !! itemId) →
  (∀ k k', dateNow env k' / 1000 < dateNow env k / 1000 + 30) →
  table w !! itemId = Some it →
  (∀ k, acquirable (dateNow env k / 1000) it = true) →
  it !! "currentHash" = Some (AttrS h) →
  1 ≤ maxRetries →
  fuel ≠ O →
  let run := extendHashChain sha256hex toISOString env fuel itemId
               iterations maxRetries w in
  run.2 = inr (Some ())
  ∧ length (exchanges run.1) = S (S (length (exchanges w)))
  ∧ timeouts run.1 = timeouts w
  ∧ ∃ new : Item,
      table run.1 !! itemId = Some new
      ∧ new !! "currentHash" =
          Some (AttrS (Nat.iter (Z.to_nat iterations)
                         (workTransform sha256hex) h))
      ∧ (∃ k, new !! "lastUpdated" = Some (AttrN (dateNow env k / 1000)))
      ∧ new !! "lockTime" = None
      ∧ new !! "lockedBy" = None
      ∧ (∀ a, a ≠ "currentHash" → a ≠ "lastUpdated" → a ≠ "lockTime" →
              a ≠ "lockedBy" → new !! a = it !! a).
Proof.
  intros Hfault Hquiet Hclock Ht Hfree Hh Hmax Hfuel run.
  destruct (extendHashChain_first_attempt fuel itemId iterations maxRetries
              w it h) as (Hres & Hex & Hto & k0 & k1 & Htab); try done.
  split; [done|]. split; [done|]. split; [done|].
  eexists. split; [exact Htab|].
  destruct (released_acquired_lookup
              (AttrS (Nat.iter (Z.to_nat iterations)
                        (workTransform sha256hex) h))
              (dateNow env k1 / 1000) (ulid env)
              (dateNow env k0 / 1000 + 30) it) as (H1 & H2 & H3 & H4 & H5).
  repeat split; eauto.
Qed.

(** ** Standing contention *)

Lemma acquireStep_refused itemId pid (w : World) (it : Item) (e : Z) :
  (∀ k, fault env k = None) →
  (∀ k t, concurrent env k t !! itemId = t !! itemId) →
  (∀ k, dateNow env k / 1000 ≤ e) →
  validTime (e * 1000) = true →
  table w !! itemId = Some it →
  it !! "lockTime" = Some (AttrN e) →
  ∃ (msg : string) (w1 : World),
    acquireStep toISOString env itemId pid w
      = (w1, inl (LockError msg (Some it)))
    ∧ table w1 !! itemId = Some it
    ∧ length (exchanges w1) = S (length (exchanges w))
    ∧ acquireAttempts w1 = S (acquireAttempts w)
    ∧ timeouts w1 = timeouts w.
Proof.
  intros Hfault Hquiet Hclock Hrange Ht He. unfold acquireStep. mrun.
  match goal with |- context [acquireLockAndRead _ _ _ _ _ ?W] =>
    destruct (acquire_refused_run toISOString env itemId pid 30 W it)
      as (_ & Hlock & Htab & Hex & Hto);
      [apply Hfault|cbn [table exchanges]; by rewrite Hquiet
      |unfold acquirable; rewrite He; apply Z.ltb_ge, Hclock|];
    destruct (acquireLockAndRead toISOString env itemId pid 30 W)
      as [w1 r1]
  end.
  cbn [fst snd clockReads table exchanges timeouts] in Hlock, Htab, Hex, Hto.
  destruct Hlock as [msg ->]; [eauto|].
  exists msg, w1. split; [done|]. split; [by rewrite Htab, Hquiet|].
  unfold acquireAttempts.
  rewrite Hex, countAcquires_acquire, length_app. cbn.
  repeat split; [lia|done].
Qed.

Lemma attemptLoop_contended itemId pid (iterations maxRetries : Z)
    (it : Item) (e : Z) :
  (∀ k, fault env k = None) →
  (∀ k t, concurrent env k t !! itemId = t !! itemId) →
  (∀ k, dateNow env k / 1000 ≤ e) →
  validTime (e * 1000) = true →
  it !! "lockTime" = Some (AttrN e) →
  ∀ (n : nat) (attempt : Z) (w : World),
    table w !! itemId = Some it →
    Z.to_nat (maxRetries - attempt + 1) = S n →
    let run := attemptLoop sha256hex toISOString env (S n) itemId pid
                 iterations attempt maxRetries w in
    (∃ msg, run.2 = inl (LockError msg (Some it)))
    ∧ table run.1 !! itemId = Some it
    ∧ length (exchanges run.1) = (length (exchanges w) + S n)%nat
    ∧ acquireAttempts run.1 = (acquireAttempts w + S n)%nat
    ∧ length (timeouts run.1) = (length (timeouts w) + n)%nat.
Proof.
  intros Hfault Hquiet Hclock Hrange He.
  induction n as [|n IH]; intros attempt w Ht Hrem run; unfold run.
  all: rewrite attemptLoop_unfold by lia.
  all: destruct (acquireStep_refused itemId pid w it e)
         as (msg & w1 & Hacq & Ht1 & Hex1 & Hat1 & Hto1); try done.
  all: assert (Hbody : attemptBody sha256hex toISOString env itemId pid
                         iterations w = (w1, inl (LockError msg (Some it))))
         by (unfold attemptBody; unfold mbind at 1, M_bind at 1;
             by rewrite Hacq).
  all: rewrite Hbody.
  all: destruct (attemptCatch_run env pid attempt maxRetries
                   (LockError msg (Some it)) w1) as (Hex & Htab & Hcase).
  - assert (attempt = maxRetries) as -> by lia.
    rewrite Z.ltb_irrefl in Hcase. destruct Hcase as [Hres Hto].
    destruct (attemptCatch _ _ _ _ _ w1) as [w2 r]; cbn [fst snd] in *.
    subst r. cbn [fst snd]. unfold acquireAttempts in *.
    rewrite Htab, Hex, Hto, Hto1.
    split; [eauto|]. split; [done|]. repeat split; lia.
  - rewrite (proj2 (Z.ltb_lt attempt maxRetries)) in Hcase by lia.
    destruct Hcase as [Hres Hto].
    destruct (attemptCatch _ _ _ _ _ w1) as [w2 r]; cbn [fst snd] in *.
    subst r.
    destruct (IH (attempt + 1) w2) as (Hmsg & Ht2 & Hex2 & Hat2 & Hto2);
      [by rewrite Htab|lia|].
    unfold acquireAttempts in *. rewrite Hex in *.
    rewrite Hto, length_app, Hto1 in Hto2. cbn [length] in Hto2.
    split; [done|]. split; [done|]. repeat split; lia.
Qed.

(** X2. A run against a lease that stays valid (the record keeps a
    [lockTime] that no clock reading passes and that is within the range
    of [Date], no request fails and nobody else writes the record) uses
    up its attempts: it sends [maxRetries] acquire requests and nothing
    else, awaits [maxRetries - 1] timers, throws the [LockError] that
    carries the record, and leaves the record as it was. *)
Theorem extendHashChain_exhausts fuel itemId (iterations maxRetries : Z)
    (w : World) (it : Item) (e : Z) :
  (∀ k, fault env k = None) →
  (∀ k t, concurrent env k t !! itemId = t !! itemId) →
  (∀ k, dateNow env k / 1000 ≤ e) →
  validTime (e * 1000) = true →
  table w !! itemId = Some it →
  it !! "lockTime" = Some (AttrN e) →
  1 ≤ maxRetries →
  (Z.to_nat maxRetries ≤ fuel)%nat →
  let run := extendHashChain sha256hex toISOString env fuel itemId
               iterations maxRetries w in
  (∃ msg, run.2 = inl (LockError msg (Some it)))
  ∧ table run.1 !! itemId = Some it
  ∧ Z.of_nat (length (exchanges run.1))
    = Z.of_nat (length (exchanges w)) + maxRetries
  ∧ Z.of_nat (acquireAttempts run.1)
    = Z.of_nat (acquireAttempts w) + maxRetries
  ∧ Z.of_nat (length (timeouts run.1))
    = Z.of_nat (length (timeouts w)) + maxRetries - 1.
Proof.
  intros Hfault Hquiet Hclock Hrange Ht He Hmax Hfuel run.
  unfold run, extendHashChain. mrun.
  match goal with |- context [attemptLoop _ _ _ fuel _ ?p _ _ _ ?W] =>
    destruct (attemptLoop_bound sha256hex toISOString env fuel itemId p
                iterations maxRetries 1 W) as (_ & _ & Hsame); [lia|];
    destruct (attemptLoop_contended itemId p iterations maxRetries it e
                Hfault Hquiet Hclock Hrange He (Z.to_nat maxRetries - 1) 1 W)
      as (Hmsg & Htab & Hex & Hat & Hto); [done|lia|]
  end.
  replace (Z.to_nat (maxRetries - 1 + 1))
    with (S (Z.to_nat maxRetries - 1)) in Hsame by lia.
  rewrite Hsame.
  unfold acquireAttempts in *. cbn [exchanges timeouts] in Hex, Hat, Hto.
  split; [done|]. split; [done|]. repeat split; lia.
Qed.

(** ** Errors that are not lock errors, and the bounds of the loop *)

(** X3. A request that fails in transport is not retried: when the first
    acquire request of a run fails so, the run ends with that error
    after this one request and without any timer, whatever retries are
    left, and the request has changed nothing in the table. *)
Theorem extendHashChain_transport_failure fuel itemId
    (iterations maxRetries : Z) (w : World) (name : string) :
  fault env (length (exchanges w)) = Some name →
  1 ≤ maxRetries →
  fuel ≠ O →
  let run := extendHashChain sha256hex toISOString env fuel itemId
               iterations maxRetries w in
  run.2 = inl (ServiceError name)
  ∧ length (exchanges run.1) = S (length (exchanges w))
  ∧ timeouts run.1 = timeouts w
  ∧ table run.1 = concurrent env (length (exchanges w)) (table w).
Proof.
  intros Hfault Hmax Hfuel run. destruct fuel as [|fuel]; [done|].
  unfold run, extendHashChain. mrun. rewrite attemptLoop_unfold by lia.
  unfold attemptBody, acquireStep, acquireLockAndRead, docClient_send. mrun.
  rewrite Hfault. mrun. unfold attemptCatch. mrun.
  rewrite length_app. cbn [length]. repeat split; [lia|done..].
Qed.

(** X4. With [maxRetries <= 0] the loop body never runs: the run returns
    normally although it has sent no request and the table is as it
    was; its only trace is the event "Started". *)
Theorem extendHashChain_no_attempt fuel itemId (iterations maxRetries : Z)
    (w : World) :
  maxRetries ≤ 0 →
  let run := extendHashChain sha256hex toISOString env fuel itemId
               iterations maxRetries w in
  run.2 = inr (Some ())
  ∧ exchanges run.1 = exchanges w
  ∧ table run.1 = table w
  ∧ timeouts run.1 = timeouts w
  ∧ map action (events run.1) = map action (events w) ++ ["Started"].
Proof.
  intros Hmax run. unfold run, extendHashChain. mrun.
  rewrite attemptLoop_done by lia. cbn [fst snd exchanges table timeouts events].
  rewrite map_app. done.
Qed.

Lemma released_unlocked c stamp (it : Item) :
  released c stamp it !! "lockTime" = None
  ∧ released c stamp it !! "lockedBy" = None.
Proof. unfold released. split; by simplify_map_eq. Qed.

Lemma attemptBody_returns itemId pid (iterations : Z) (w w1 : World) :
  attemptBody sha256hex toISOString env itemId pid iterations w
    = (w1, inr ()) →
  justReleased itemId w1.
Proof.
  unfold attemptBody, acquireStep. mrun.
  destruct (acquireLockAndRead _ _ _ _ _ _) as [w0 [e|acq]]; [done|].
  unfold extendAndRelease. mrun. destruct acq as [item|]; mrun; [|done].
  destruct (generateHashes _ _ _ _ _ _ _ _) as [w2 [e|h]]; mrun; [done|].
  unfold updateAndReleaseLock, docClient_send. mrun.
  destruct (updatedItemOf _ _ _ !! "currentHash") as [c|]; mrun; [|done].
  destruct (fault env _); mrun; [done|].
  rewrite updateItem_release.
  destruct (releasable _ _ _); mrun.
  - intros [= <-]. unfold justReleased. cbn [exchanges table events].
    rewrite !last_snoc, lookup_insert_eq.
    match goal with |- context [released ?c ?s ?i] =>
      destruct (released_unlocked c s i) as [H1 H2]
    end.
    eexists _, _, _. repeat split; done.
  - match goal with |- context [lockInfoOf _ ?st ?W] =>
      destruct (lockInfoOf toISOString st W) as [w3 [e|a]]
    end; done.
Qed.

Lemma attemptLoop_returns itemId pid (iterations maxRetries : Z) :
  ∀ (fuel : nat) (attempt : Z) (w w' : World),
    attempt ≤ maxRetries →
    attemptLoop sha256hex toISOString env fuel itemId pid iterations
      attempt maxRetries w = (w', inr (Some ())) →
    justReleased itemId w'.
Proof.
  induction fuel as [|fuel IH]; intros attempt w w' Hle.
  - cbn [attemptLoop]. rewrite (proj2 (Z.leb_le _ _) Hle). by mrun.
  - rewrite attemptLoop_unfold by done.
    destruct (attemptBody _ _ _ _ _ _ w) as [w1 [e|[]]] eqn:Hbody.
    2: { intros [= <-]. by eapply attemptBody_returns. }
    destruct (attemptCatch_run env pid attempt maxRetries e w1)
      as (_ & _ & Hcase).
    destruct (attemptCatch _ _ _ _ _ w1) as [w2 [e'|[|]]]; cbn [fst snd] in *.
    + done.
    + apply IH. destruct e; try (by destruct Hcase).
      destruct (attempt <? maxRetries) eqn:Hlt; [|by destruct Hcase].
      apply Z.ltb_lt in Hlt. lia.
    + destruct e; try (by destruct Hcase).
      destruct (attempt <? maxRetries); by destruct Hcase.
Qed.

(** X5. A run with [maxRetries >= 1] that returns has released the lock:
    its last request is a granted release, the record it leaves in the
    table has neither [lockTime] nor [lockedBy], and its last event is
    "Chain extended"; this holds whatever the other clients, the clock
    and the transport did. *)
Theorem extendHashChain_returns_released fuel itemId
    (iterations maxRetries : Z) (w w' : World) :
  1 ≤ maxRetries →
  extendHashChain sha256hex toISOString env fuel itemId iterations
    maxRetries w = (w', inr (Some ())) →
  ∃ (cmd : UpdateCommand) (new : Item) (ev : SequenceEvent),
    last (exchanges w') = Some (cmd, inr (Some new))
    ∧ isAcquire cmd = false
    ∧ table w' !! itemId = Some new
    ∧ new !! "lockTime" = None
    ∧ new !! "lockedBy" = None
    ∧ last (events w') = Some ev
    ∧ action ev = "Chain extended"
    ∧ success ev = Some true.
Proof.
  intros Hmax. unfold extendHashChain. mrun. intros Hrun.
  by apply attemptLoop_returns in Hrun.
Qed.

(** ** A key that is not in the table *)

(** X6. On a key that is not in the table (and is not the empty
    string, which the service refuses as a key) the acquire succeeds, for
    every duration that gives a safe integer as expiry, and creates the
    record, with the key and the two lock attributes and nothing else;
    the release is refused, throws a [LockError] without a record ("lock
    information not found") and creates nothing. *)
Theorem missing_record itemId pid (w : World) :
  itemId ≠ "" →
  fault env (length (exchanges w)) = None →
  concurrent env (length (exchanges w)) (table w) !! itemId = None →
  let now := dateNow env (clockReads w) / 1000 in
  let t := concurrent env (length (exchanges w)) (table w) in
  (∀ lockDuration : Z,
     safeInteger (now + lockDuration) = true →
     let run := acquireLockAndRead toISOString env itemId pid lockDuration w in
     let new := acquired pid (now + lockDuration) {[ "id" := AttrS itemId ]} in
     run.2 = inr (Some new) ∧ table run.1 = <[itemId := new]> t
     ∧ ∀ a, a ≠ "id" → a ≠ "lockTime" → a ≠ "lockedBy" → new !! a = None)
  ∧ (∀ (updateData : Item) (c : AttributeValue),
       updateData !! "currentHash" = Some c →
       let run := updateAndReleaseLock toISOString env itemId pid updateData w in
       run.2 = inl (LockError
                      ("Failed to update item " +:+ itemId
                       +:+ " - lock information not found") None)
       ∧ table run.1 = t).
Proof.
  intros Hkey Hf Ht now t. split.
  - intros lockDuration Hsafe run new.
    unfold run, acquireLockAndRead, docClient_send.
    mrun. rewrite Hf, updateItem_acquire, Ht. cbn [default].
    unfold acquirable. rewrite lookup_empty. mrun.
    split; [done|]. split; [done|].
    intros a ???. unfold new, acquired. by simplify_map_eq.
  - intros updateData c Hc run.
    unfold run, updateAndReleaseLock, docClient_send. mrun.
    rewrite Hc. mrun. rewrite Hf, updateItem_release, Ht. cbn [default].
    unfold releasable. rewrite lookup_empty. by mrun.
Qed.

(** ** Failures while the lease is held *)

(** X7. When the work fails after a granted acquire, the lock is not
    released: on a record whose [currentHash] is not a string a run with
    at least one iteration acquires the lease, throws a TypeError from
    the first hash round and ends there, with no release request and no
    retry; the record stays locked by the run until the lease expires. *)
Theorem extendHashChain_work_failure_keeps_lease fuel itemId
    (iterations maxRetries : Z) (w : World) (it : Item) :
  fault env (length (exchanges w)) = None →
  concurrent env (length (exchanges w)) (table w) !! itemId = Some it →
  acquirable (dateNow env (S (S (clockReads w))) / 1000) it = true →
  (∀ s, it !! "currentHash" ≠ Some (AttrS s)) →
  1 ≤ iterations →
  1 ≤ maxRetries →
  fuel ≠ O →
  let now := dateNow env (S (S (clockReads w))) / 1000 in
  let run := extendHashChain sha256hex toISOString env fuel itemId
               iterations maxRetries w in
  run.2 = inl TypeError
  ∧ length (exchanges run.1) = S (length (exchanges w))
  ∧ timeouts run.1 = timeouts w
  ∧ ∃ held : Item,
      table run.1 !! itemId = Some held
      ∧ held !! "lockedBy" = Some (AttrS (ulid env))
      ∧ held !! "lockTime" = Some (AttrN (now + 30)).
Proof.
  intros Hf Ht Ha Hcur Hit Hmax Hfuel now run.
  destruct fuel as [|fuel]; [done|].
  unfold run, extendHashChain. mrun. rewrite attemptLoop_unfold by lia.
  unfold attemptBody, acquireStep. mrun.
  match goal with |- context [acquireLockAndRead _ _ _ ?p _ ?W] =>
    destruct (acquire_granted_run toISOString env itemId p 30 W it)
      as (Hr & Htab & Hex & Hto); [done..|];
    destruct (acquireLockAndRead toISOString env itemId p 30 W) as [w1 r1]
  end.
  cbn [fst snd clockReads table exchanges timeouts] in Hr, Htab, Hex, Hto.
  subst r1. unfold extendAndRelease. mrun.
  destruct (acquired_lookup (ulid env) (now + 30) it) as (Hby & Htime & Hh).
  fold now. rewrite Hh.
  destruct (Z.to_nat iterations) as [|n] eqn:Hn; [lia|].
  cbn [generateHashes]. unfold nextHashOf. mrun.
  destruct (it !! "currentHash") as [[x|s]|] eqn:Hc; mrun;
    [|by destruct (Hcur s)|].
  all: unfold attemptCatch; mrun.
  all: rewrite Hex, Hto, Htab, length_app, lookup_insert_eq; cbn [length].
  all: split; [done|]; split; [lia|]; split; [done|]; eauto.
Qed.

(** X8. When the release request fails in transport after a granted
    acquire, the run ends with that error and the lease stays in place:
    nothing is written, nothing is retried, and the record remains
    locked by the run as long as nobody else writes it. *)
Theorem extendHashChain_release_failure_keeps_lease fuel itemId
    (iterations maxRetries : Z) (w : World) (it : Item) (h name : string) :
  fault env (length (exchanges w)) = None →
  fault env (S (length (exchanges w))) = Some name →
  (∀ k t, concurrent env k t !! itemId = t !! itemId) →
  table w !! itemId = Some it →
  acquirable (dateNow env (S (S (clockReads w))) / 1000) it = true →
  it !! "currentHash" = Some (AttrS h) →
  1 ≤ maxRetries →
  fuel ≠ O →
  let now := dateNow env (S (S (clockReads w))) / 1000 in
  let run := extendHashChain sha256hex toISOString env fuel itemId
               iterations maxRetries w in
  run.2 = inl (ServiceError name)
  ∧ length (exchanges run.1) = S (S (length (exchanges w)))
  ∧ timeouts run.1 = timeouts w
  ∧ table run.1 !! itemId = Some (acquired (ulid env) (now + 30) it).
Proof.
  intros Hf Hf' Hquiet Ht Ha Hh Hmax Hfuel now run.
  destruct fuel as [|fuel]; [done|].
  unfold run, extendHashChain. mrun. rewrite attemptLoop_unfold by lia.
  unfold attemptBody, acquireStep. mrun.
  match goal with |- context [acquireLockAndRead _ _ _ ?p _ ?W] =>
    destruct (acquire_granted_run toISOString env itemId p 30 W it)
      as (Hr & Htab & Hex & Hto);
      [done|cbn [table exchanges]; by rewrite Hquiet|done|];
    destruct (acquireLockAndRead toISOString env itemId p 30 W) as [w1 r1]
  end.
  cbn [fst snd clockReads table exchanges timeouts] in Hr, Htab, Hex, Hto.
  subst r1. unfold extendAndRelease. mrun.
  destruct (acquired_lookup (ulid env) (now + 30) it) as (Hby & Htime & Hc).
  fold now. rewrite Hc, Hh.
  match goal with |- context [generateHashes _ _ ?n ?p ?i ?N ?v ?W] =>
    destruct (generateHashes_run sha256hex env n p i N v W)
      as (Hg & Hgt & Hge & Hgo & _);
    destruct (generateHashes sha256hex env n p i N v W) as [w3 r3]
  end.
  cbn [fst snd clockReads table exchanges timeouts] in Hg, Hgt, Hge, Hgo.
  rewrite chained_string in Hg. subst r3. mrun.
  unfold updateAndReleaseLock, docClient_send. mrun.
  match goal with |- context [updatedItemOf ?i ?v ?l !! "currentHash"] =>
    replace (updatedItemOf i v l !! "currentHash") with v
      by (unfold updatedItemOf; by simplify_map_eq)
  end.
  mrun. rewrite Hge, Hex, length_app. cbn [length].
  replace (length (exchanges w) + 1)%nat with (S (length (exchanges w)))
    by lia.
  rewrite Hf'. mrun. unfold attemptCatch. mrun.
  rewrite !length_app, Hgo, Hto, Hquiet, Hgt, Htab, lookup_insert_eq.
  cbn [length]. repeat split; [lia|done..].
Qed.

End WholeRuns.

(** ** Runs one after the other *)

(** X9. Extensions compose: when a run of [n1] iterations is followed, in
    a calm environment each, by a run of [n2] iterations that starts
    from the table the first one left, the second run succeeds too and
    the record holds the hash after [n1 + n2] work transforms of the
    hash it held before the first run, with no lock attribute. *)
Theorem extensions_compose (sha256hex : string → string)
    (toISOString : Z → string) (env1 env2 : Env) (fuel1 fuel2 : nat)
    (itemId : string) (n1 n2 max1 max2 : Z) (w1 w2 : World) (it : Item)
    (h : string) :
  calm env1 itemId →
  calm env2 itemId →
  table w1 !! itemId = Some it →
  (∀ k, acquirable (dateNow env1 k / 1000) it = true) →
  it !! "currentHash" = Some (AttrS h) →
  1 ≤ max1 → 1 ≤ max2 → fuel1 ≠ O → fuel2 ≠ O →
  table w2 = table (extendHashChain sha256hex toISOString env1 fuel1 itemId
                      n1 max1 w1).1 →
  let run2 := extendHashChain sha256hex toISOString env2 fuel2 itemId
                n2 max2 w2 in
  run2.2 = inr (Some ())
  ∧ ∃ new : Item,
      table run2.1 !! itemId = Some new
      ∧ new !! "currentHash" =
          Some (AttrS (Nat.iter (Z.to_nat n1 + Z.to_nat n2)
                         (workTransform sha256hex) h))
      ∧ new !! "lockTime" = None
      ∧ new !! "lockedBy" = None.
Proof.
  intros (Hf1 & Hq1 & Hc1) (Hf2 & Hq2 & Hc2) Ht Hfree Hh Hmax1 Hmax2
    Hfuel1 Hfuel2 Hw2 run2.
  destruct (extendHashChain_first_attempt sha256hex toISOString env1 fuel1
              itemId n1 max1 w1 it h)
    as (_ & _ & _ & k0 & k1 & Htab1); try done.
  rewrite <- Hw2 in Htab1.
  match type of Htab1 with _ = Some ?x => set (mid := x) in * end.
  destruct (released_acquired_lookup
              (AttrS (Nat.iter (Z.to_nat n1) (workTransform sha256hex) h))
              (dateNow env1 k1 / 1000) (ulid env1)
              (dateNow env1 k0 / 1000 + 30) it) as (Hm1 & _ & Hm3 & _).
  fold mid in Hm1, Hm3.
  destruct (extendHashChain_first_attempt sha256hex toISOString env2 fuel2
              itemId n2 max2 w2 mid
              (Nat.iter (Z.to_nat n1) (workTransform sha256hex) h))
    as (Hres & _ & _ & k2 & k3 & Htab2); try done.
  { intros k. unfold acquirable. by rewrite Hm3. }
  split; [done|]. eexists. split; [exact Htab2|].
  match goal with |- context [released ?c ?s (acquired ?p ?e ?i)] =>
    destruct (released_acquired_lookup c s p e i) as (Hn1 & _ & Hn3 & Hn4 & _)
  end.
  rewrite Hn1, Hn3, Hn4. split; [|done].
  by rewrite (Nat.add_comm (Z.to_nat n1)), Nat.iter_add.
Qed.

(** ** Who can release *)

Lemma serve_refused (t : Table) (q : Request) :
  granted t q = false → serve t q = t.
Proof.
  destruct q as [k h n e|k h c l n].
  - rewrite granted_acquire, serve_acquire. by intros ->.
  - rewrite granted_release, serve_release. by intros ->.
Qed.

Lemma granted_release_record (t : Table) (q : Request) :
  isAcquireRequest q = false → granted t q = true →
  ∃ it : Item,
    t !! requestKey q = Some it
    ∧ it !! "lockedBy" = Some (AttrS (requestHolder q)).
Proof.
  destruct q as [|k h c l n]; [done|]. intros _.
  rewrite granted_release. cbn [requestKey requestHolder].
  unfold releasable. destruct (t !! k) as [it|]; cbn [from_option id].
  - destruct (it !! "lockedBy") as [[?|h']|] eqn:Hby; try done.
    destruct (it !! "lockTime") as [[?|?]|]; try done.
    intros [Hh _]%andb_true_iff. apply bool_decide_eq_true in Hh as ->. eauto.
  - by rewrite lookup_empty.
Qed.

(** Whoever is named as the holder of the record got there by a granted
    acquire after which no request on the record was granted. *)
Lemma holder_acquired (t0 : Table) (qs : list Request) (k : string) :
  (∀ it : Item, t0 !! k = Some it → it !! "lockedBy" = None) →
  ∀ (i : nat) (it : Item) (h : string),
    (i ≤ length qs)%nat →
    stateAt t0 qs i !! k = Some it →
    it !! "lockedBy" = Some (AttrS h) →
    ∃ (a : nat) (qa : Request),
      (a < i)%nat ∧ qs !! a = Some qa ∧ isAcquireRequest qa = true
      ∧ requestKey qa = k ∧ requestHolder qa = h
      ∧ grantedAt t0 qs a = true
      ∧ ∀ (j : nat) (qj : Request),
          (a < j < i)%nat → qs !! j = Some qj → requestKey qj = k →
          grantedAt t0 qs j = false.
Proof.
  intros Hfree. induction i as [|i IH]; intros it h Hi Hit Hby.
  { unfold stateAt in Hit. rewrite take_0 in Hit. cbn in Hit.
    by rewrite (Hfree it Hit) in Hby. }
  destruct (lookup_lt_is_Some_2 qs i) as [q Hq]; [lia|].
  rewrite (stateAt_S _ _ _ _ Hq) in Hit.
  assert (Hkeep : stateAt t0 qs i !! k = Some it →
                  (requestKey q = k → grantedAt t0 qs i = false) →
                  ∃ (a : nat) (qa : Request),
                    (a < S i)%nat ∧ qs !! a = Some qa
                    ∧ isAcquireRequest qa = true
                    ∧ requestKey qa = k ∧ requestHolder qa = h
                    ∧ grantedAt t0 qs a = true
                    ∧ ∀ (j : nat) (qj : Request),
                        (a < j < S i)%nat → qs !! j = Some qj →
                        requestKey qj = k → grantedAt t0 qs j = false).
  { intros Hit' Hi'.
    destruct (IH it h) as (a & qa & Ha & Hqa & H1 & H2 & H3 & H4 & H5);
      [lia|done|done|].
    exists a, qa. repeat (split; [done || lia|]).
    intros j qj Hj Hqj Hkj. destruct (decide (j = i)) as [->|];
      [|apply (H5 j qj); [lia|done..]].
    apply Hi'. congruence. }
  destruct (decide (requestKey q = k)) as [Hk|Hk].
  2: { rewrite serve_other_key in Hit by done. by apply Hkeep. }
  destruct (granted (stateAt t0 qs i) q) eqn:Hg.
  2: { rewrite serve_refused in Hit by done. apply Hkeep; [done|].
       intros _. unfold grantedAt. by rewrite Hq. }
  destruct q as [k' h' n e|k' h' c l n]; cbn [requestKey] in Hk; subst k'.
  - rewrite granted_acquire in Hg.
    rewrite serve_acquire, Hg, lookup_insert_eq in Hit.
    injection Hit as <-. unfold acquired in Hby. simplify_map_eq.
    exists i, (AcquireRequest k h n e).
    split; [lia|]. repeat (split; [done|]).
    split; [unfold grantedAt; by rewrite Hq, granted_acquire|].
    intros j qj Hj. lia.
  - rewrite granted_release in Hg.
    rewrite serve_release, Hg, lookup_insert_eq in Hit.
    injection Hit as <-. unfold released in Hby. by simplify_map_eq.
Qed.

(** X10. Only the holder that acquired can release: in every history on
    a record that starts without a holder, a granted release of [h] is
    preceded by a granted acquire of [h] on the same key, and between
    the two no request on that key was granted, whoever sent it and
    whatever the clocks said. *)
Theorem release_closes_own_acquire (t0 : Table) (qs : list Request)
    (k h : string) (r : nat) (q : Request) :
  (∀ it : Item, t0 !! k = Some it → it !! "lockedBy" = None) →
  qs !! r = Some q →
  isAcquireRequest q = false →
  requestKey q = k →
  requestHolder q = h →
  grantedAt t0 qs r = true →
  ∃ (a : nat) (qa : Request),
    (a < r)%nat ∧ qs !! a = Some qa ∧ isAcquireRequest qa = true
    ∧ requestKey qa = k ∧ requestHolder qa = h
    ∧ grantedAt t0 qs a = true
    ∧ ∀ (j : nat) (qj : Request),
        (a < j < r)%nat → qs !! j = Some qj → requestKey qj = k →
        grantedAt t0 qs j = false.
Proof.
  intros Hfree Hq Hrel Hk Hh Hg.
  unfold grantedAt in Hg. rewrite Hq in Hg.
  destruct (granted_release_record _ _ Hrel Hg) as (it & Hit & Hby).
  rewrite Hk, Hh in *.
  apply (holder_acquired t0 qs k Hfree r it h); [|done..].
  apply lookup_lt_Some in Hq. lia.
Qed.

(** ** The report of the logger *)

Lemma filter_none {A} (P : A → Prop) `{!∀ x, Decision (P x)} (l : list A) :
  (∀ x, x ∈ l → ¬ P x) → filter P l = [].
Proof.
  induction l as [|x l IH]; intros Hl; [done|].
  rewrite filter_cons_False; [|apply Hl, list_elem_of_here].
  apply IH. intros y Hy. by apply Hl, list_elem_of_further.
Qed.

Lemma processSummaries_snoc (events : list SequenceEvent) (e : SequenceEvent) :
  processSummaries (events ++ [e]) = groupInsert e (processSummaries events).
Proof. unfold processSummaries. by rewrite foldl_app. Qed.

Lemma groupInsert_keys (e : SequenceEvent)
    (groups : list (string * list SequenceEvent)) :
  (groupInsert e groups).*1
  = if decide (processId e ∈ groups.*1) then groups.*1
    else groups.*1 ++ [processId e].
Proof.
  induction groups as [|[p es] groups IH]; cbn.
  - rewrite decide_False; [done|]. apply not_elem_of_nil.
  - case_bool_decide as Hp; cbn.
    + subst p. rewrite decide_True; [done|]. apply list_elem_of_here.
    + rewrite IH. destruct (decide (processId e ∈ groups.*1)) as [Hin|Hin].
      * rewrite decide_True; [done|]. by apply list_elem_of_further.
      * rewrite decide_False; [done|].
        intros [Heq|Hin']%elem_of_cons; [by apply Hp|by apply Hin].
Qed.

Lemma elem_of_groupInsert (e : SequenceEvent)
    (groups : list (string * list SequenceEvent)) (p : string)
    (es : list SequenceEvent) :
  NoDup groups.*1 →
  (p, es) ∈ groupInsert e groups →
  (p ≠ processId e ∧ (p, es) ∈ groups)
  ∨ (p = processId e
     ∧ ((∃ es0, (p, es0) ∈ groups ∧ es = es0 ++ [e])
        ∨ ((p ∉ groups.*1) ∧ es = [e]))).
Proof.
  induction groups as [|[p' es'] groups IH]; cbn.
  - intros _ Hin%list_elem_of_singleton. injection Hin as -> ->.
    right. split; [done|]. right. split; [apply not_elem_of_nil|done].
  - intros [Hfresh Hnodup]%NoDup_cons. case_bool_decide as Hp.
    + subst p'. intros [Heq|Hin]%elem_of_cons.
      * injection Heq as -> ->. right. split; [done|]. left.
        exists es'. split; [apply list_elem_of_here|done].
      * left. split; [|by apply list_elem_of_further].
        intros ->. apply Hfresh.
        apply list_elem_of_fmap. by exists (processId e, es).
    + intros [Heq|Hin]%elem_of_cons.
      * injection Heq as -> ->. left. split; [done|apply list_elem_of_here].
      * destruct (IH Hnodup Hin) as [[Hne Hold]|[-> [(es0 & Hold & ->)|[Hnew ->]]]].
        -- left. split; [done|by apply list_elem_of_further].
        -- right. split; [done|]. left. exists es0.
           split; [by apply list_elem_of_further|done].
        -- right. split; [done|]. right. split; [|done].
           intros [Heq|Hin']%elem_of_cons; [by apply Hp|by apply Hnew].
Qed.

(** What the grouping keeps after every event. *)
Lemma processSummaries_invariant (events : list SequenceEvent) :
  NoDup (processSummaries events).*1
  ∧ (∀ p, p ∈ (processSummaries events).*1 ↔ p ∈ processId <$> events)
  ∧ ∀ p es, (p, es) ∈ processSummaries events →
            es = filter (λ e, processId e = p) events ∧ es ≠ [].
Proof.
  induction events as [|e events (Hnodup & Hkeys & Hgroups)] using rev_ind.
  - split; [constructor|]. split; [done|]. by intros p es Hin%elem_of_nil.
  - rewrite processSummaries_snoc, groupInsert_keys. split; [|split].
    + case_decide as Hin; [done|].
      apply NoDup_app. split; [done|]. split; [|apply NoDup_singleton].
      by intros p Hp ->%list_elem_of_singleton.
    + intros p. rewrite fmap_app, elem_of_app. cbn.
      rewrite list_elem_of_singleton, <- Hkeys.
      case_decide as Hin.
      * split; [tauto|]. by intros [Hp| ->].
      * by rewrite elem_of_app, list_elem_of_singleton.
    + intros p es Hin. rewrite filter_app.
      destruct (elem_of_groupInsert _ _ _ _ Hnodup Hin)
        as [[Hne Hold]|[-> [(es0 & Hold & ->)|[Hnew ->]]]].
      * destruct (Hgroups _ _ Hold) as [-> Hnil]. split; [|done].
        rewrite (filter_cons_False _ e []); [by rewrite app_nil_r|done].
      * destruct (Hgroups _ _ Hold) as [-> Hnil].
        split; [|by destruct (filter _ events)].
        by rewrite (filter_cons_True _ e []).
      * split; [|done].
        rewrite (filter_cons_True _ e []); [|done].
        replace (filter (λ e0, processId e0 = processId e) events)
          with (@nil SequenceEvent); [done|].
        symmetry. apply filter_none. intros e' He' Heq. apply Hnew, Hkeys.
        apply list_elem_of_fmap. by exists e'.
Qed.

Lemma includes_occurs (c : ascii) (sub s : string) :
  includes (String c sub) s = true → occurs c s = true.
Proof.
  induction s as [|a s IH]; cbn; [done|].
  destruct (ascii_dec c a) as [->|Hne].
  - intros _. by rewrite bool_decide_eq_true_2.
  - cbn. intros Hin. by rewrite IH, orb_true_r.
Qed.

Lemma occurs_app (c : ascii) (s1 s2 : string) :
  occurs c (s1 +:+ s2) = occurs c s1 || occurs c s2.
Proof.
  induction s1 as [|a s1 IH]; [done|].
  change (String a s1 +:+ s2) with (String a (s1 +:+ s2)).
  cbn [occurs]. by rewrite IH, orb_assoc.
Qed.

Lemma occurs_pretty_N_go (x : N) (s : string) :
  occurs "R" s = false → occurs "R" (pretty_N_go x s) = false.
Proof.
  revert s. induction (N.lt_wf_0 x) as [x _ IH]; intros s Hs.
  assert (x = 0 ∨ 0 < x)%N as [->|Hpos] by lia.
  - by rewrite pretty_N_go_0.
  - rewrite pretty_N_go_step by done. apply IH; [by apply N.div_lt|].
    cbn [occurs]. rewrite Hs, orb_false_r.
    unfold pretty_N_char. by repeat case_match.
Qed.

Lemma occurs_pretty_Z (z : Z) : occurs "R" (pretty z) = false.
Proof.
  assert (Hpos : ∀ p : positive, occurs "R" (pretty p) = false).
  { intros p. unfold pretty, pretty_positive, pretty, pretty_N.
    case_decide; [done|]. by apply occurs_pretty_N_go. }
  destruct z as [|p|p]; [done|apply Hpos|].
  unfold pretty, pretty_Z. rewrite occurs_app. by rewrite Hpos.
Qed.

Lemma first_char_ne (a b : ascii) (s1 s2 t : string) :
  a ≠ b → String a s1 +:+ s2 ≠ String b t.
Proof.
  intros Hne Heq. change (String a (s1 +:+ s2) = String b t) in Heq.
  by injection Heq.
Qed.

Lemma retriesOf_app (l l' : list SequenceEvent) :
  retriesOf (l ++ l') = (retriesOf l + retriesOf l')%nat.
Proof. unfold retriesOf. by rewrite List.filter_app, length_app. Qed.

Lemma succeededOf_app (l l' : list SequenceEvent) :
  succeededOf (l ++ l') = succeededOf l || succeededOf l'.
Proof. apply existsb_app. Qed.

Lemma retriesOf_plain (e : SequenceEvent) (l : list SequenceEvent) :
  occurs "R" (action e) = false → retriesOf (e :: l) = retriesOf l.
Proof.
  intros Hplain. unfold retriesOf. cbn [List.filter].
  destruct (includes "Retrying" (action e)) eqn:Hin; [|done].
  apply includes_occurs in Hin. congruence.
Qed.

Lemma retriesOf_retrying (e : SequenceEvent) (l : list SequenceEvent) :
  includes "Retrying" (action e) = true → retriesOf (e :: l) = S (retriesOf l).
Proof. intros Hin. unfold retriesOf. cbn [List.filter]. by rewrite Hin. Qed.

Lemma succeededOf_other (e : SequenceEvent) (l : list SequenceEvent) :
  action e ≠ "Chain extended" → succeededOf (e :: l) = succeededOf l.
Proof.
  intros Hne. unfold succeededOf. cbn [existsb].
  by rewrite bool_decide_eq_false_2.
Qed.

Lemma logged_same pid (w w' : World) :
  events w' = events w → timeouts w' = timeouts w → logged pid w w' [].
Proof.
  intros He Ht. unfold logged. rewrite He, Ht, app_nil_r.
  split; [done|]. split; [constructor|]. cbn. lia.
Qed.

Lemma logged_trans pid (w w1 w2 : World) (new new' : list SequenceEvent) :
  logged pid w w1 new → logged pid w1 w2 new' →
  logged pid w w2 (new ++ new').
Proof.
  intros (He & Hp & Ht) (He' & Hp' & Ht'). unfold logged.
  rewrite He', He, Ht', Ht, retriesOf_app, app_assoc.
  split; [done|]. split; [by apply Forall_app|lia].
Qed.

Ltac plain_text :=
  cbn [action];
  repeat (rewrite ?occurs_app, ?occurs_pretty_Z; cbn [occurs]);
  reflexivity.

Ltac other_text :=
  cbn [action]; first [discriminate|apply first_char_ne; discriminate].

(** Closes [∃ new, logged pid w w' new ∧ succeededOf new = false] when
    [w'] is [w] with events that are neither retry announcements nor
    "Chain extended". *)
Ltac plain_log :=
  cbn [fst snd events timeouts]; rewrite <- ?app_assoc;
  eexists; split;
  [ split; [cbn [events]; first [reflexivity|symmetry; apply app_nil_r]|];
    split; [repeat constructor|];
    cbn [timeouts app]; rewrite ?retriesOf_plain by plain_text;
    cbn; lia
  | cbn [app]; rewrite ?succeededOf_other by other_text; reflexivity ].

Section ReportProperties.

Variable sha256hex : string → string.
Variable toISOString : Z → string.
Variable env : Env.

Lemma acquireLockAndRead_logged itemId pid lockDuration (w : World) :
  let run := acquireLockAndRead toISOString env itemId pid lockDuration w in
  ∃ new, logged pid w run.1 new ∧ succeededOf new = false.
Proof.
  cbv zeta. unfold acquireLockAndRead, docClient_send. mrun.
  destruct (fault env (length (exchanges w))); mrun; [plain_log|].
  destruct (updateItem _ _) as [t' [attrs|old|]]; mrun.
  2: match goal with |- context [lockInfoOf _ ?st ?W] =>
       pose proof (lockInfoOf_world toISOString st W) as Hw;
       destruct (lockInfoOf toISOString st W) as [w2 [e|a]]
     end; cbn in Hw; subst w2.
  all: plain_log.
Qed.

Lemma updateAndReleaseLock_logged itemId pid (updateData : Item) (w : World) :
  let run := updateAndReleaseLock toISOString env itemId pid updateData w in
  events run.1 = events w ∧ timeouts run.1 = timeouts w.
Proof.
  cbv zeta. unfold updateAndReleaseLock, docClient_send. mrun.
  destruct (updateData !! "currentHash") as [h|]; mrun; [|done].
  destruct (fault env (length (exchanges w))); mrun; [done|].
  destruct (updateItem _ _) as [t' [attrs|old|]]; mrun; try done.
  match goal with |- context [lockInfoOf _ ?st ?W] =>
    pose proof (lockInfoOf_world toISOString st W) as Hw;
    destruct (lockInfoOf toISOString st W) as [w2 [e|a]]
  end; cbn in Hw; by subst w2.
Qed.

Lemma generateHashes_logged (rounds : nat) pid (i iterations : Z)
    (v : option AttributeValue) (w : World) :
  let run := generateHashes sha256hex env rounds pid i iterations v w in
  ∃ new, logged pid w run.1 new ∧ succeededOf new = false.
Proof.
  cbv zeta. revert i v w. induction rounds as [|rounds IH]; intros i v w.
  - exists []. split; [by apply logged_same|done].
  - cbn [generateHashes]. unfold nextHashOf. mrun.
    destruct v as [[n|h]|]; mrun; try plain_log.
    match goal with |- context [generateHashes _ _ _ _ ?i' _ ?v' ?W] =>
      destruct (IH i' v' W) as (new & Hlog & Hok);
      assert (∃ new0, logged pid w W new0 ∧ succeededOf new0 = false)
        as (new0 & Hlog0 & Hok0) by plain_log
    end.
    exists (new0 ++ new). split; [by eapply logged_trans|].
    by rewrite succeededOf_app, Hok0, Hok.
Qed.

Lemma extendAndRelease_logged itemId pid iterations (acq : option Item)
    (w : World) :
  let run := extendAndRelease sha256hex toISOString env itemId pid iterations
               acq w in
  ∃ new, logged pid w run.1 new
         ∧ succeededOf new = (if run.2 is inr _ then true else false).
Proof.
  cbv zeta. unfold extendAndRelease. mrun.
  destruct acq as [item|]; mrun; [|plain_log].
  match goal with |- context [generateHashes _ _ ?n ?p ?i ?it ?v ?W] =>
    assert (∃ new0, logged pid w W new0 ∧ succeededOf new0 = false)
      as (new0 & Hlog0 & Hok0) by plain_log;
    destruct (generateHashes_logged n p i it v W) as (new1 & Hlog1 & Hok1);
    destruct (generateHashes sha256hex env n p i it v W) as [w1 [e|h]]
  end; cbn [fst snd] in *; mrun.
  { exists (new0 ++ new1). split; [by eapply logged_trans|].
    by rewrite succeededOf_app, Hok0, Hok1. }
  match goal with |- context [updateAndReleaseLock _ _ ?k ?p ?u ?W] =>
    destruct (updateAndReleaseLock_logged k p u W) as (Hev & Hto);
    destruct (updateAndReleaseLock toISOString env k p u W) as [w2 [e|r]]
  end; cbn [fst snd events timeouts] in *; mrun.
  - exists ((new0 ++ new1) ++ []). split.
    + eapply logged_trans; [by eapply logged_trans|by apply logged_same].
    + by rewrite !succeededOf_app, Hok0, Hok1.
  - match goal with |- context [{| events := events w2 ++ [?ev] |}] =>
      exists ((new0 ++ new1) ++ [ev])
    end.
    split.
    + eapply logged_trans; [by eapply logged_trans|].
      unfold logged. cbn [events timeouts]. rewrite Hev, Hto.
      split; [done|]. split; [by repeat constructor|].
      rewrite retriesOf_plain by plain_text. cbn. lia.
    + rewrite !succeededOf_app. cbn. by rewrite orb_true_r.
Qed.

Lemma attemptBody_logged itemId pid iterations (w : World) :
  let run := attemptBody sha256hex toISOString env itemId pid iterations w in
  ∃ new, logged pid w run.1 new
         ∧ succeededOf new = (if run.2 is inr _ then true else false).
Proof.
  cbv zeta. unfold attemptBody, acquireStep. mrun.
  match goal with |- context [acquireLockAndRead _ _ ?k ?p ?d ?W] =>
    assert (∃ new0, logged pid w W new0 ∧ succeededOf new0 = false)
      as (new0 & Hlog0 & Hok0) by plain_log;
    destruct (acquireLockAndRead_logged k p d W) as (new1 & Hlog1 & Hok1);
    destruct (acquireLockAndRead toISOString env k p d W) as [w1 [e|acq]]
  end; cbn [fst snd] in *.
  { exists (new0 ++ new1). split; [by eapply logged_trans|].
    by rewrite succeededOf_app, Hok0, Hok1. }
  destruct (extendAndRelease_logged itemId pid iterations acq w1)
    as (new2 & Hlog2 & Hok2).
  exists ((new0 ++ new1) ++ new2).
  split; [eapply logged_trans; [by eapply logged_trans|done]|].
  by rewrite !succeededOf_app, Hok0, Hok1, Hok2.
Qed.

Lemma attemptCatch_logged pid (attempt maxRetries : Z) (e : Error)
    (w : World) :
  let run := attemptCatch env pid attempt maxRetries e w in
  ∃ new, logged pid w run.1 new ∧ succeededOf new = false.
Proof.
  cbv zeta. unfold attemptCatch. destruct e; mrun; try plain_log.
  destruct (attempt <? maxRetries); mrun; [|plain_log].
  cbn [fst snd events timeouts]. rewrite <- !app_assoc.
  eexists. split; [split; [reflexivity|]|].
  - split; [by repeat constructor|]. cbn [app timeouts].
    rewrite retriesOf_plain by plain_text.
    rewrite retriesOf_retrying by reflexivity.
    rewrite length_app. cbn. lia.
  - cbn [app]. rewrite !succeededOf_other by other_text. done.
Qed.

(** The log of the loop: "Chain extended" is in it exactly when the loop
    returned after an attempt. *)
Lemma attemptLoop_logged fuel itemId pid (iterations attempt maxRetries : Z)
    (w : World) :
  let run := attemptLoop sha256hex toISOString env fuel itemId pid iterations
               attempt maxRetries w in
  ∃ new, logged pid w run.1 new
         ∧ (succeededOf new = true → run.2 = inr (Some ()))
         ∧ (attempt ≤ maxRetries → run.2 = inr (Some ()) →
            succeededOf new = true).
Proof.
  cbv zeta. revert attempt w.
  induction fuel as [|fuel IH]; intros attempt w.
  - exists []. cbn [attemptLoop]. destruct (attempt <=? maxRetries) eqn:Hle.
    + split; [by apply logged_same|]. split; [done|]. by intros _ [=].
    + split; [by apply logged_same|]. split; [done|].
      apply Z.leb_gt in Hle. lia.
  - destruct (Z.leb_spec attempt maxRetries) as [Hle|Hgt].
    2: { exists []. cbn [attemptLoop].
         rewrite (proj2 (Z.leb_gt _ _)) by lia.
         split; [by apply logged_same|]. split; [done|]. lia. }
    rewrite attemptLoop_unfold by done.
    destruct (attemptBody_logged itemId pid iterations w)
      as (new & Hlog & Hok).
    destruct (attemptBody _ _ _ _ _ _ w) as [w1 [e|[]]]; cbn [fst snd] in *.
    2: { exists new. by rewrite Hok. }
    destruct (attemptCatch_run env pid attempt maxRetries e w1)
      as (_ & _ & Hcase).
    destruct (attemptCatch_logged pid attempt maxRetries e w1)
      as (new1 & Hlog1 & Hok1).
    destruct (attemptCatch _ _ _ _ _ w1) as [w2 [e'|[|]]] eqn:Hcatch;
      cbn [fst snd] in *.
    + exists (new ++ new1). split; [by eapply logged_trans|].
      rewrite succeededOf_app, Hok, Hok1. by split.
    + destruct (IH (attempt + 1) w2) as (new2 & Hlog2 & Hret & Hsucc).
      exists ((new ++ new1) ++ new2).
      split; [eapply logged_trans; [by eapply logged_trans|done]|].
      rewrite !succeededOf_app, Hok, Hok1. cbn [orb].
      split; [done|]. intros _. apply Hsucc.
      destruct e; try (by destruct Hcase as [[=] _]).
      destruct (Z.ltb_spec attempt maxRetries); [lia|].
      by destruct Hcase as [[=] _].
    + exfalso. destruct e; try (by destruct Hcase as [[=] _]).
      destruct (attempt <? maxRetries); by destruct Hcase as [[=] _].
Qed.

End ReportProperties.

Lemma processSummaries_single (pid : string) (events : list SequenceEvent) :
  events ≠ [] → Forall (λ e, processId e = pid) events →
  processSummaries events = [(pid, events)].
Proof.
  induction events as [|e events IH] using rev_ind; [done|].
  intros _ [Hall He%Forall_inv]%Forall_app.
  rewrite processSummaries_snoc. destruct events as [|e0 events].
  - cbn. by rewrite He.
  - rewrite IH by done. cbn. by rewrite bool_decide_eq_true_2.
Qed.

Lemma printSummaries_returns (groups : list (string * list SequenceEvent)) :
  (∀ p es, (p, es) ∈ groups → es ≠ []) → (printSummaries groups).2 = None.
Proof.
  induction groups as [|[p es] groups IH]; intros Hfull; [done|].
  cbn [printSummaries]. unfold processSummary.
  assert (es ≠ []) as Hes by (apply (Hfull p), list_elem_of_here).
  destruct (head es) as [first|] eqn:Hhead; [|by destruct es].
  destruct (last es) as [final|] eqn:Hlast;
    [|by apply last_None in Hlast].
  specialize (IH (λ p' es' Hin, Hfull p' es' (list_elem_of_further _ _ _ Hin))).
  by destruct (printSummaries groups).
Qed.

(** X12. The per-process part of the report partitions the log: every
    process that logged an event has exactly one group, and the group of
    a process holds all of its events and only them, in the order they
    were logged. *)
Theorem processSummaries_partition (events : list SequenceEvent) :
  NoDup (processSummaries events).*1
  ∧ ∀ p es, (p, es) ∈ processSummaries events
            ↔ es = filter (λ e, processId e = p) events ∧ es ≠ [].
Proof.
  destruct (processSummaries_invariant events) as (Hnodup & Hkeys & Hgroups).
  split; [done|]. intros p es. split; [apply Hgroups|].
  intros [-> Hnil].
  assert (p ∈ (processSummaries events).*1) as Hp.
  { apply Hkeys. destruct (filter _ events) as [|e l] eqn:Hf; [done|].
    assert (e ∈ filter (λ e, processId e = p) events) as He
      by (rewrite Hf; apply list_elem_of_here).
    apply list_elem_of_filter in He as [<- He].
    by apply list_elem_of_fmap_2. }
  apply list_elem_of_fmap in Hp as ([p' es'] & -> & Hin). cbn [fst].
  destruct (Hgroups _ _ Hin) as [Heq _]. by rewrite <- Heq.
Qed.

(** X13. [printSequence] never throws: no group of the report is empty,
    so the first and the last event that the total time is computed
    from exist. *)
Theorem printSequence_never_throws (events : list SequenceEvent) :
  (printSequence events).2 = None.
Proof.
  unfold printSequence.
  pose proof (printSummaries_returns (processSummaries events)) as Hret.
  destruct (printSummaries (processSummaries events)) as [lines thrown].
  apply Hret. intros p es Hin.
  by destruct (processSummaries_invariant events) as (_ & _ & Hgroups);
    destruct (Hgroups _ _ Hin).
Qed.

Section RunReport.

Variable sha256hex : string → string.
Variable toISOString : Z → string.
Variable env : Env.

(** X11. The report of a run is truthful.  For a run with
    [maxRetries >= 1] on a fresh log, whatever the table, the clock and
    the transport did, the log has one group, that of the run, and its
    summary gives the number of iterations asked for, a "Retries" line
    exactly when a backoff timer was awaited, with the number of timers,
    and the outcome "Succeeded" exactly when the run returned. *)
Theorem printSequence_reports_run fuel itemId (iterations maxRetries : Z)
    (w : World) :
  events w = [] →
  1 ≤ maxRetries →
  let run := extendHashChain sha256hex toISOString env fuel itemId
               iterations maxRetries w in
  let evs := events run.1 in
  let retries := (length (timeouts run.1) - length (timeouts w))%nat in
  processSummaries evs = [(ulid env, evs)]
  ∧ ∃ first final : SequenceEvent,
      head evs = Some first ∧ last evs = Some final
      ∧ processSummary (ulid env) evs
        = (printProcessEvents (ulid env) evs
           ++ [newline +:+ "Process-" +:+ sliceLast 4 (ulid env)
               +:+ " summary:";
               "Attempted to extend: " +:+ pretty iterations]
           ++ (if decide (retries = O) then []
               else ["Retries: " +:+ pretty retries])
           ++ ["Total time: " +:+ pretty (time final - time first) +:+ "ms";
               "Outcome: "
               +:+ (if decide (run.2 = inr (Some ())) then "Succeeded ✓"
                    else "Failed ✗");
               "-------------+------------------"],
           None).
Proof.
  intros Hfresh Hmax. cbv zeta. unfold extendHashChain. mrun.
  match goal with |- context [attemptLoop _ _ _ ?f ?k ?p ?n ?a ?m ?W] =>
    destruct (attemptLoop_logged sha256hex toISOString env f k p n a m W)
      as (new & (Hev & Hpid & Hto) & Hret & Hsucc);
    destruct (attemptLoop sha256hex toISOString env f k p n a m W)
      as [w1 r]
  end.
  cbn [fst snd events timeouts] in *. rewrite Hfresh in Hev. cbn [app] in Hev.
  rewrite Hev.
  match type of Hev with _ = ?ev :: _ => set (started := ev) in * end.
  split.
  { apply processSummaries_single; [done|]. by constructor. }
  assert (is_Some (last (started :: new))) as [final Hfinal].
  { destruct (last (started :: new)) eqn:Hl; [done|].
    by apply last_None in Hl. }
  exists started, final. split; [done|]. split; [done|].
  unfold processSummary. cbn [head]. rewrite Hfinal.
  change (quantityOf (started :: new)) with (Some iterations).
  rewrite (retriesOf_plain started) by done.
  rewrite (succeededOf_other started) by done.
  replace (length (timeouts w1) - length (timeouts w))%nat
    with (retriesOf new) by lia.
  assert (succeededOf new = if decide (r = inr (Some ())) then true else false)
    as ->.
  { case_decide as Hr.
    - apply Hsucc; [lia|done].
    - destruct (succeededOf new); [by destruct Hr; apply Hret|done]. }
  cbn [fmap option_fmap option_map default from_option].
  rewrite <- !app_assoc.
  by destruct (retriesOf new) as [|n], (decide (r = inr (Some ()))).
Qed.

(** X14. A run that was allowed no attempt is reported as failed: with
    [maxRetries <= 0] on a fresh log the call returns normally, and the
    report, which looks for the event "Chain extended", gives the
    outcome "Failed" with a total time of 0 ms and no retries. *)
Theorem printSequence_reports_no_attempt fuel itemId
    (iterations maxRetries : Z) (w : World) :
  events w = [] →
  maxRetries ≤ 0 →
  let run := extendHashChain sha256hex toISOString env fuel itemId
               iterations maxRetries w in
  let evs := events run.1 in
  run.2 = inr (Some ())
  ∧ processSummary (ulid env) evs
    = (printProcessEvents (ulid env) evs
       ++ [newline +:+ "Process-" +:+ sliceLast 4 (ulid env) +:+ " summary:";
           "Attempted to extend: " +:+ pretty iterations;
           "Total time: 0ms";
           "Outcome: Failed ✗";
           "-------------+------------------"],
       None).
Proof.
  intros Hfresh Hmax. cbv zeta. unfold extendHashChain. mrun.
  assert (Hloop : ∀ w0, attemptLoop sha256hex toISOString env fuel itemId
                          (ulid env) iterations 1 maxRetries w0
                        = (w0, inr (Some ()))).
  { intros w0. destruct fuel; cbn [attemptLoop];
      by rewrite (proj2 (Z.leb_gt _ _)) by lia. }
  rewrite Hloop. cbn [fst snd events]. rewrite Hfresh. cbn [app].
  split; [done|]. unfold processSummary. cbn [head last].
  rewrite Z.sub_diag. by rewrite <- !app_assoc.
Qed.

End RunReport.

(** * The table scripts *)

Ltac sstep :=
  unfold mbind, Script_bind, mret, Script_ret, tryCatchScript, reject,
    console_log, console_error, sleep;
  cbn [fst snd items sent console sleeps].

Ltac srun := repeat progress sstep.

Section ScriptProperties.

Variable env : AdminEnv.

(** One poll of [waitForTable] that is answered with "not yet". *)
Lemma waitForTableLoop_poll fuel tableName (a : Admin) :
  keepsWaiting (answers env (length (sent a))) = true →
  ∃ line,
    waitForTableLoop env (S fuel) tableName a
    = waitForTableLoop env fuel tableName
        {| items := items a;
           sent := sent a ++ [DescribeTableCommand tableName];
           console := console a ++ [console_log_line line];
           sleeps := sleeps a ++ [1000] |}.
Proof.
  intros Hwait. cbn [waitForTableLoop]. unfold client_send. srun.
  destruct (answers env (length (sent a))) as [[|name]|status];
    cbn in Hwait; try done; cbn [accepted]; srun.
  - by eexists.
  - apply negb_true_iff in Hwait. rewrite Hwait. srun. by eexists.
Qed.

Lemma waitForTableLoop_polls (n : nat) fuel tableName (a : Admin) :
  (∀ j, (j < n)%nat →
        keepsWaiting (answers env (length (sent a) + j)) = true) →
  ∃ a',
    waitForTableLoop env (n + fuel) tableName a
    = waitForTableLoop env fuel tableName a'
    ∧ items a' = items a
    ∧ sent a' = sent a ++ replicate n (DescribeTableCommand tableName)
    ∧ sleeps a' = sleeps a ++ replicate n 1000
    ∧ ∃ lines, console a' = console a ++ lines.
Proof.
  revert a. induction n as [|n IH]; intros a Hwait.
  - exists a. rewrite !app_nil_r. repeat (split; [done|]).
    exists []. by rewrite app_nil_r.
  - destruct (waitForTableLoop_poll (n + fuel) tableName a) as [line Hpoll].
    { specialize (Hwait O ltac:(lia)). by rewrite Nat.add_0_r in Hwait. }
    cbn [Nat.add]. rewrite Hpoll.
    match goal with |- context [waitForTableLoop _ _ _ ?A] =>
      destruct (IH A) as (a' & Hrun & Hit & Hsent & Hsl & lines & Hcon)
    end.
    { intros j Hj. cbn [sent]. rewrite length_app. cbn [length].
      replace (length (sent a) + 1 + j)%nat with (length (sent a) + S j)%nat
        by lia.
      apply Hwait. lia. }
    cbn [items sent console sleeps] in *.
    exists a'. split; [done|]. split; [done|].
    rewrite Hsent, Hsl, Hcon, <- !app_assoc. cbn [replicate].
    repeat (split; [done|]). by eexists.
Qed.

(** The wait of setup does not touch the items. *)
Lemma waitForTableLoop_items fuel tableName (a : Admin) :
  items (waitForTableLoop env fuel tableName a).1 = items a.
Proof.
  revert a. induction fuel as [|fuel IH]; intros a; [done|].
  cbn [waitForTableLoop]. unfold client_send. srun.
  destruct (answers env (length (sent a))) as [[|name]|status];
    cbn [accepted]; srun; try done.
  - by rewrite IH.
  - case_bool_decide; srun; [done|]. by rewrite IH.
Qed.

(** X15. [waitForTable] ends at the first answer that is neither "not
    found" nor a status other than ACTIVE: after [n] such answers it has
    awaited [n] timers of one second and sent [n + 1] DescribeTable
    commands; it returns when that answer is the status ACTIVE and
    throws the error when it is another failure. *)
Theorem waitForTable_first_decisive_answer (n fuel : nat) tableName
    (a : Admin) :
  (∀ j, (j < n)%nat →
        keepsWaiting (answers env (length (sent a) + j)) = true) →
  keepsWaiting (answers env (length (sent a) + n)) = false →
  (n < fuel)%nat →
  let run := waitForTable env fuel tableName a in
  run.2 = match answers env (length (sent a) + n) with
          | inl e => inl e
          | inr _ => inr (Some ())
          end
  ∧ sent run.1 = sent a ++ replicate (S n) (DescribeTableCommand tableName)
  ∧ sleeps run.1 = sleeps a ++ replicate n 1000
  ∧ items run.1 = items a.
Proof.
  intros Hwait Hend Hfuel. cbv zeta. unfold waitForTable. srun.
  replace fuel with (n + S (fuel - S n))%nat by lia.
  match goal with |- context [waitForTableLoop _ _ _ ?A] =>
    destruct (waitForTableLoop_polls n (S (fuel - S n)) tableName A)
      as (a' & -> & Hit & Hsent & Hsl & _); [done|]
  end.
  cbn [items sent console sleeps] in *.
  cbn [waitForTableLoop]. unfold client_send. srun.
  rewrite Hsent, length_app, length_replicate.
  destruct (answers env (length (sent a) + n)) as [[|name]|status];
    cbn in Hend; try done; cbn [accepted]; srun.
  - rewrite replicate_S_end, app_assoc. by rewrite Hsl, Hit.
  - apply negb_false_iff in Hend. rewrite Hend. srun.
    rewrite replicate_S_end, app_assoc. by rewrite Hsl, Hit.
Qed.

(** X16. [waitForTable] has no timeout: as long as the table is not
    found or not ACTIVE it keeps polling, one DescribeTable command and
    one timer of a second per round, and does not return. *)
Theorem waitForTable_no_timeout (fuel : nat) tableName (a : Admin) :
  (∀ k, keepsWaiting (answers env k) = true) →
  let run := waitForTable env fuel tableName a in
  run.2 = inr None
  ∧ sent run.1 = sent a ++ replicate fuel (DescribeTableCommand tableName)
  ∧ sleeps run.1 = sleeps a ++ replicate fuel 1000.
Proof.
  intros Hwait. cbv zeta. unfold waitForTable. srun.
  match goal with |- context [waitForTableLoop _ _ _ ?A] =>
    destruct (waitForTableLoop_polls fuel 0 tableName A)
      as (a' & Hrun & _ & Hsent & Hsl & _); [done|]
  end.
  rewrite Nat.add_0_r in Hrun. by rewrite Hrun.
Qed.

Lemma initialItem_lookup (now : Z) :
  initialItem now !! "id" = Some (AttrS "HASH-CHAIN-1")
  ∧ initialItem now !! "currentHash" = Some (AttrS zeroDigest)
  ∧ initialItem now !! "lockTime" = None.
Proof. unfold initialItem. by simplify_map_eq. Qed.

(** What [createTable] has done when it returns. *)
Lemma createTable_returns fuel (a a' : Admin) :
  createTable env fuel a = (a', inr (Some ())) →
  items a' = {[ "HASH-CHAIN-1" := initialItem (adminNow env / 1000) ]}
  ∧ last (sent a')
    = Some (PutCommand "Inventory" (initialItem (adminNow env / 1000)))
  ∧ last (console a') = Some (console_log_line "Initial hash chain created").
Proof.
  unfold createTable, createInitialItem, waitForTable, client_send.
  srun.
  destruct (answers env (length (sent a))) as [e|status]; srun; [done|].
  cbn [accepted]. srun.
  match goal with |- context [waitForTableLoop _ ?f ?n ?A] =>
    pose proof (waitForTableLoop_items f n A) as Hit;
    destruct (waitForTableLoop env f n A) as [a1 [e|[[]|]]]
  end; cbn [fst snd items] in Hit; srun; try done.
  destruct (answers env (length (sent a1))) as [e|status']; srun; [done|].
  rewrite (proj1 (initialItem_lookup _)). srun.
  intros [= <-]. cbn [items sent console]. rewrite Hit, !last_snoc.
  by rewrite insert_empty.
Qed.

(** X17. When [createTable] returns, the table holds the initial record
    of the chain and nothing else: the key "HASH-CHAIN-1" with the zero
    digest and the second of the clock; the record has no lock, so an
    acquire at any time is granted on it.  The put of the record was the
    last command sent. *)
Theorem createTable_creates_chain fuel (a a' : Admin) :
  createTable env fuel a = (a', inr (Some ())) →
  items a' = {[ "HASH-CHAIN-1" := initialItem (adminNow env / 1000) ]}
  ∧ (∀ now, acquirable now (initialItem (adminNow env / 1000)) = true)
  ∧ initialItem (adminNow env / 1000) !! "currentHash"
    = Some (AttrS zeroDigest)
  ∧ last (sent a')
    = Some (PutCommand "Inventory" (initialItem (adminNow env / 1000)))
  ∧ last (console a') = Some (console_log_line "Initial hash chain created").
Proof.
  intros (Hitems & Hsent & Hcon)%createTable_returns.
  destruct (initialItem_lookup (adminNow env / 1000)) as (_ & Hhash & Hfree).
  split; [done|]. split; [|done].
  intros now. unfold acquirable. by rewrite Hfree.
Qed.

(** X18. When the table cannot be created (it exists already, say),
    setup stops there: the error is written to the console and thrown
    again, no further command is sent and the items of the table are as
    they were; the chain is not reset. *)
Theorem createTable_refused fuel (a : Admin) (e : AdminError) :
  answers env (length (sent a)) = inl e →
  let run := createTable env fuel a in
  run.2 = inl e
  ∧ items run.1 = items a
  ∧ sent run.1 = sent a ++ [CreateTableCommand "Inventory" "id"]
  ∧ sleeps run.1 = sleeps a
  ∧ console run.1
    = console a ++ [console_error_line "Error creating table:" e].
Proof.
  intros Hanswer. cbv zeta. unfold createTable, client_send. srun.
  rewrite Hanswer. by srun.
Qed.

(** teardown *)

Lemma waitForTableDeletionLoop_poll fuel tableName (a : Admin) :
  stillThere (answers env (length (sent a))) = true →
  waitForTableDeletionLoop env (S fuel) tableName a
  = waitForTableDeletionLoop env fuel tableName
      {| items := items a;
         sent := sent a ++ [DescribeTableCommand tableName];
         console := console a
                    ++ [console_log_line "Table still exists, waiting..."];
         sleeps := sleeps a ++ [1000] |}.
Proof.
  intros Hthere. cbn [waitForTableDeletionLoop]. unfold client_send. srun.
  destruct (answers env (length (sent a))) as [e|status]; [done|].
  cbn [accepted]. by srun.
Qed.

Lemma waitForTableDeletionLoop_polls (n : nat) fuel tableName (a : Admin) :
  (∀ j, (j < n)%nat →
        stillThere (answers env (length (sent a) + j)) = true) →
  waitForTableDeletionLoop env (n + fuel) tableName a
  = waitForTableDeletionLoop env fuel tableName
      {| items := items a;
         sent := sent a ++ replicate n (DescribeTableCommand tableName);
         console := console a
                    ++ replicate n
                         (console_log_line "Table still exists, waiting...");
         sleeps := sleeps a ++ replicate n 1000 |}.
Proof.
  revert a. induction n as [|n IH]; intros a Hthere.
  - cbn [replicate Nat.add]. rewrite !app_nil_r. by destruct a.
  - cbn [Nat.add]. rewrite waitForTableDeletionLoop_poll.
    2: { specialize (Hthere O ltac:(lia)). by rewrite Nat.add_0_r in Hthere. }
    rewrite IH.
    2: { intros j Hj. cbn [sent]. rewrite length_app. cbn [length].
         replace (length (sent a) + 1 + j)%nat
           with (length (sent a) + S j)%nat by lia.
         apply Hthere. lia. }
    cbn [items sent console sleeps replicate]. by rewrite <- !app_assoc.
Qed.

(** X19. [deleteTable] on a table that exists: once the DeleteTable
    command is accepted it polls DescribeTable, waiting a second after
    each answer that still describes the table, whatever status it
    gives; the first failed poll ends it: "not found" confirms the
    deletion and the script returns, any other error is written to the
    console and thrown. *)
Theorem deleteTable_waits_for_deletion (n fuel : nat) (a : Admin)
    (e : AdminError) :
  stillThere (answers env (length (sent a))) = true →
  (∀ j, (j < n)%nat →
        stillThere (answers env (length (sent a) + 1 + j)) = true) →
  answers env (length (sent a) + 1 + n) = inl e →
  (n < fuel)%nat →
  let run := deleteTable env fuel a in
  run.2 = match e with
          | ResourceNotFoundException => inr (Some ())
          | OtherError _ => inl e
          end
  ∧ items run.1 = ∅
  ∧ sent run.1
    = sent a ++ DeleteTableCommand "Inventory"
             :: replicate (S n) (DescribeTableCommand "Inventory")
  ∧ sleeps run.1 = sleeps a ++ replicate n 1000
  ∧ console run.1
    = console a
      ++ [console_log_line "Table deleted successfully";
          console_log_line "Waiting for table to be deleted..."]
      ++ replicate n (console_log_line "Table still exists, waiting...")
      ++ [match e with
          | ResourceNotFoundException =>
              console_log_line "Table deletion confirmed"
          | OtherError _ => console_error_line "Error deleting table:" e
          end].
Proof.
  intros Hdel Hthere Hend Hfuel run.
  assert (run = ({| items := ∅;
                    sent := sent a ++ DeleteTableCommand "Inventory"
                            :: replicate (S n)
                                 (DescribeTableCommand "Inventory");
                    console :=
                      console a
                      ++ [console_log_line "Table deleted successfully";
                          console_log_line "Waiting for table to be deleted..."]
                      ++ replicate n
                           (console_log_line "Table still exists, waiting...")
                      ++ [match e with
                          | ResourceNotFoundException =>
                              console_log_line "Table deletion confirmed"
                          | OtherError _ =>
                              console_error_line "Error deleting table:" e
                          end];
                    sleeps := sleeps a ++ replicate n 1000 |},
                 match e with
                 | ResourceNotFoundException => inr (Some ())
                 | OtherError _ => inl e
                 end)) as ->; [|done].
  unfold run, deleteTable, waitForTableDeletion. unfold client_send at 1.
  srun.
  destruct (answers env (length (sent a))) as [e0|status]; [done|].
  cbn [accepted]. srun.
  replace fuel with (n + S (fuel - S n))%nat by lia.
  rewrite waitForTableDeletionLoop_polls.
  2: { intros j Hj. cbn [sent]. rewrite length_app. by apply Hthere. }
  cbn [items sent console sleeps].
  cbn [waitForTableDeletionLoop]. unfold client_send. srun.
  rewrite !length_app, length_replicate. cbn [length]. rewrite Hend.
  rewrite replicate_S_end.
  destruct e as [|name]; srun; by rewrite <- !app_assoc.
Qed.

(** X20. A missing table is never an error of teardown: [deleteTable]
    never throws "not found"; and when the DeleteTable command itself is
    answered so, the script returns at once with the line "Table does
    not exist", having sent nothing else and awaited no timer. *)
Theorem deleteTable_missing_table fuel (a : Admin) :
  let run := deleteTable env fuel a in
  run.2 ≠ inl ResourceNotFoundException
  ∧ (answers env (length (sent a)) = inl ResourceNotFoundException →
     run.2 = inr (Some ())
     ∧ items run.1 = items a
     ∧ sent run.1 = sent a ++ [DeleteTableCommand "Inventory"]
     ∧ sleeps run.1 = sleeps a
     ∧ console run.1 = console a ++ [console_log_line "Table does not exist"]).
Proof.
  cbv zeta. split.
  - unfold deleteTable, tryCatchScript.
    match goal with |- context [match ?body a with _ => _ end] =>
      destruct (body a) as [a1 [[|name]|r]]
    end; by srun.
  - intros Hanswer. unfold deleteTable, client_send. srun.
    rewrite Hanswer. by srun.
Qed.

End ScriptProperties.

(** X21. Setup and the client compose: on the table that [createTable]
    left when it returned, a run of the client in a calm environment
    succeeds on its first attempt, and the record then holds the hash
    after [iterations] work transforms of the zero digest, with no lock
    attribute. *)
Theorem setup_then_extend (sha256hex : string → string)
    (toISOString : Z → string) (admin : AdminEnv) (env : Env)
    (adminFuel fuel : nat) (a a' : Admin) (iterations maxRetries : Z)
    (w : World) :
  createTable admin adminFuel a = (a', inr (Some ())) →
  table w = items a' →
  calm env "HASH-CHAIN-1" →
  1 ≤ maxRetries →
  fuel ≠ O →
  let run := extendHashChain sha256hex toISOString env fuel "HASH-CHAIN-1"
               iterations maxRetries w in
  run.2 = inr (Some ())
  ∧ ∃ new : Item,
      table run.1 !! "HASH-CHAIN-1" = Some new
      ∧ new !! "currentHash"
        = Some (AttrS (Nat.iter (Z.to_nat iterations)
                         (workTransform sha256hex) zeroDigest))
      ∧ new !! "lockTime" = None
      ∧ new !! "lockedBy" = None.
Proof.
  intros (Hitems & _)%createTable_returns Htable (Hfault & Hquiet & Hclock)
    Hmax Hfuel run.
  destruct (extendHashChain_first_attempt sha256hex toISOString env fuel
              "HASH-CHAIN-1" iterations maxRetries w
              (initialItem (adminNow admin / 1000)) zeroDigest)
    as (Hres & _ & _ & k0 & k1 & Htab); try done.
  { by rewrite Htable, Hitems, lookup_singleton_eq. }
  split; [done|]. eexists. split; [exact Htab|].
  match goal with |- context [released ?c ?s (acquired ?p ?x ?i)] =>
    destruct (released_acquired_lookup c s p x i) as (Hn1 & _ & Hn3 & Hn4 & _)
  end.
  by rewrite Hn1, Hn3, Hn4.
Qed.


(** * Backoff and clock *)

Section BackoffAndClock.

Variable sha256hex : string → string.
Variable toISOString : Z → string.
Variable env : Env.

Lemma attemptCatch_draws pid (attempt maxRetries : Z) (e : Error) (w : World) :
  let run := attemptCatch env pid attempt maxRetries e w in
  (run.2 = inr true ∧ attempt < maxRetries
   ∧ timeouts run.1 = timeouts w ++ [random100 env (randomDraws w)]
   ∧ randomDraws run.1 = S (randomDraws w))
  ∨ ((∃ e', run.2 = inl e')
     ∧ timeouts run.1 = timeouts w ∧ randomDraws run.1 = randomDraws w).
Proof.
  cbv zeta. unfold attemptCatch.
  destruct e; mrun; try (right; split; [by eexists|done]).
  destruct (Z.ltb_spec attempt maxRetries); mrun.
  - by left.
  - right. split; [by eexists|done].
Qed.

Lemma attemptLoop_backoff fuel itemId pid (iterations maxRetries : Z) :
  ∀ (attempt : Z) (w : World),
    let run := attemptLoop sha256hex toISOString env fuel itemId pid
                 iterations attempt maxRetries w in
    ∃ n : nat,
      timeouts run.1
      = timeouts w ++ map (random100 env) (seq (randomDraws w) n)
      ∧ randomDraws run.1 = (randomDraws w + n)%nat
      ∧ Z.of_nat n ≤ Z.max 0 (maxRetries - attempt).
Proof.
  cbv zeta. induction fuel as [|fuel IH]; intros attempt w.
  { exists O. cbn [attemptLoop]. destruct (attempt <=? maxRetries);
      cbn; rewrite app_nil_r; (split; [done|split; lia]). }
  destruct (Z.leb_spec attempt maxRetries) as [Hle|Hgt].
  2: { rewrite attemptLoop_done by lia. exists O. cbn.
       rewrite app_nil_r. split; [done|split; lia]. }
  rewrite attemptLoop_unfold by done.
  destruct (attemptBody_frame sha256hex toISOString env itemId pid iterations w)
    as (Hto & Hrd & _).
  destruct (attemptBody _ _ _ _ _ _ w) as [w1 [e|[]]]; cbn [fst snd] in *.
  2: { exists O. cbn. rewrite app_nil_r, Hto, Hrd. split; [done|split; lia]. }
  destruct (attemptCatch_draws pid attempt maxRetries e w1)
    as [(Hres & Hlt & Hto' & Hrd')|([e' Hres] & Hto' & Hrd')];
    destruct (attemptCatch _ _ _ _ _ w1) as [w2 r]; cbn [fst snd] in *;
    subst r.
  - destruct (IH (attempt + 1) w2) as (n & Hn1 & Hn2 & Hn3).
    exists (S n). rewrite Hn1, Hn2, Hto', Hrd', Hto, Hrd. cbn [seq map].
    rewrite <- app_assoc. split; [done|split; lia].
  - exists O. cbn. rewrite app_nil_r, Hto', Hrd', Hto, Hrd.
    split; [done|split; lia].
Qed.

(** X22. The backoff is not exponential: the timers a run awaits are,
    in order, the random numbers it drew, one draw per timer, and there
    are at most [maxRetries - 1] of them; so with a generator below 100
    every wait is shorter than 100 ms, whatever the attempt. *)
Theorem extendHashChain_backoff fuel itemId (iterations maxRetries : Z)
    (w : World) :
  let run := extendHashChain sha256hex toISOString env fuel itemId
               iterations maxRetries w in
  ∃ n : nat,
    timeouts run.1
    = timeouts w ++ map (random100 env) (seq (randomDraws w) n)
    ∧ randomDraws run.1 = (randomDraws w + n)%nat
    ∧ Z.of_nat n ≤ Z.max 0 (maxRetries - 1).
Proof.
  cbv zeta. unfold extendHashChain. mrun.
  match goal with |- context [attemptLoop _ _ _ ?f ?k ?p ?i ?a ?m ?W] =>
    destruct (attemptLoop_backoff f k p i m a W) as (n & Hn1 & Hn2 & Hn3)
  end.
  by exists n.
Qed.

End BackoffAndClock.

(** ** The times of the events *)

Lemma stampedFrom_weaken (env : Env) (lo lo' hi : nat)
    (new : list SequenceEvent) :
  (lo ≤ lo')%nat → stampedFrom env lo' new hi → stampedFrom env lo new hi.
Proof.
  destruct new as [|e new]; cbn [stampedFrom]; [lia|].
  intros Hlo (k & Htime & Hk & Hrest). exists k. split; [done|]. split; [lia|done].
Qed.

Lemma stampedFrom_bounds (env : Env) (lo hi : nat) (new : list SequenceEvent) :
  stampedFrom env lo new hi → (lo ≤ hi)%nat.
Proof.
  revert lo. induction new as [|e new IH]; intros lo; cbn [stampedFrom]; [done|].
  intros (k & _ & Hk & Hrest%IH). lia.
Qed.

Lemma stampedFrom_app (env : Env) (lo mid hi : nat)
    (new new' : list SequenceEvent) :
  stampedFrom env lo new mid → stampedFrom env mid new' hi →
  stampedFrom env lo (new ++ new') hi.
Proof.
  revert lo. induction new as [|e new IH]; intros lo; cbn [stampedFrom app].
  - intros Hlo Hnew. by eapply stampedFrom_weaken.
  - intros (k & Htime & Hk & Hrest) Hnew. exists k.
    split; [done|]. split; [done|]. by apply IH.
Qed.

Lemma stampedFrom_ordered (env : Env) (lo hi : nat)
    (new : list SequenceEvent) :
  (∀ k k', (k ≤ k')%nat → dateNow env k ≤ dateNow env k') →
  stampedFrom env lo new hi →
  Forall (λ e, dateNow env lo - loggerStartTime env ≤ time e) new
  ∧ ∀ (i j : nat) (ei ej : SequenceEvent),
      (i ≤ j)%nat → new !! i = Some ei → new !! j = Some ej →
      time ei ≤ time ej.
Proof.
  intros Hclock. revert lo.
  induction new as [|e new IH]; intros lo; cbn [stampedFrom].
  { intros _. split; [constructor|]. by intros i j ei ej _ Hi. }
  intros (k & Htime & Hk & [Hall Hsorted]%IH). split.
  - constructor.
    + rewrite Htime. pose proof (Hclock lo k Hk). lia.
    + eapply Forall_impl; [exact Hall|]. cbn. intros e' He'.
      pose proof (Hclock lo (S k) ltac:(lia)). lia.
  - intros [|i] [|j] ei ej Hij Hi Hj; cbn in Hi, Hj; [| |lia|].
    + injection Hi as <-. injection Hj as <-. lia.
    + injection Hi as <-. rewrite Forall_forall in Hall.
      pose proof (Hall ej (list_elem_of_lookup_2 _ _ _ Hj)) as Hej. cbn in Hej.
      rewrite Htime. pose proof (Hclock k (S k) ltac:(lia)). lia.
    + apply (Hsorted i j); [lia|done|done].
Qed.

Lemma stamped_same (env : Env) (w w' : World) :
  events w' = events w → (clockReads w ≤ clockReads w')%nat →
  stamped env w w' [].
Proof. intros Hev Hclk. unfold stamped. by rewrite Hev, app_nil_r. Qed.

Lemma stamped_trans (env : Env) (w w1 w2 : World)
    (new new' : list SequenceEvent) :
  stamped env w w1 new → stamped env w1 w2 new' →
  stamped env w w2 (new ++ new').
Proof.
  intros [Hev Hst] [Hev' Hst']. unfold stamped.
  rewrite Hev', Hev, app_assoc. split; [done|]. by eapply stampedFrom_app.
Qed.

(** Closes [∃ new, stamped env w w' new] when [w'] is given by its
    fields. *)
Ltac stamp_log :=
  unfold stamped; cbn [fst snd events clockReads]; rewrite <- ?app_assoc;
  eexists; split; [first [reflexivity|symmetry; apply app_nil_r]|];
  cbn [app stampedFrom];
  repeat (eexists; split; [cbn [time]; reflexivity|split; [lia|]]);
  lia.

Section ClockProperties.

Variable sha256hex : string → string.
Variable toISOString : Z → string.
Variable env : Env.

Lemma acquireLockAndRead_stamps itemId pid lockDuration (w : World) :
  let run := acquireLockAndRead toISOString env itemId pid lockDuration w in
  ∃ new, stamped env w run.1 new.
Proof.
  cbv zeta. unfold acquireLockAndRead, docClient_send. mrun.
  destruct (fault env (length (exchanges w))); mrun; [stamp_log|].
  destruct (updateItem _ _) as [t' [attrs|old|]]; mrun.
  2: match goal with |- context [lockInfoOf _ ?st ?W] =>
       pose proof (lockInfoOf_world toISOString st W) as Hw;
       destruct (lockInfoOf toISOString st W) as [w2 [e|a]]
     end; cbn in Hw; subst w2.
  all: stamp_log.
Qed.

Lemma updateAndReleaseLock_stamps itemId pid (updateData : Item) (w : World) :
  let run := updateAndReleaseLock toISOString env itemId pid updateData w in
  stamped env w run.1 [].
Proof.
  cbv zeta. apply stamped_same.
  all: unfold updateAndReleaseLock, docClient_send; mrun.
  all: destruct (updateData !! "currentHash") as [h|]; mrun; [|done || lia].
  all: destruct (fault env (length (exchanges w))); mrun; [done || lia|].
  all: destruct (updateItem _ _) as [t' [attrs|old|]]; mrun;
    try (done || lia).
  all: match goal with |- context [lockInfoOf _ ?st ?W] =>
         pose proof (lockInfoOf_world toISOString st W) as Hw;
         destruct (lockInfoOf toISOString st W) as [w2 [e|a]]
       end; cbn in Hw; subst w2; cbn; (done || lia).
Qed.

Lemma generateHashes_stamps (rounds : nat) pid (i iterations : Z)
    (v : option AttributeValue) (w : World) :
  let run := generateHashes sha256hex env rounds pid i iterations v w in
  ∃ new, stamped env w run.1 new.
Proof.
  cbv zeta. revert i v w. induction rounds as [|rounds IH]; intros i v w.
  - exists []. by apply stamped_same.
  - cbn [generateHashes]. unfold nextHashOf. mrun.
    destruct v as [[n|h]|]; mrun; try stamp_log.
    match goal with |- context [generateHashes _ _ _ _ ?i' _ ?v' ?W] =>
      destruct (IH i' v' W) as (new & Hst);
      assert (∃ new0, stamped env w W new0) as (new0 & Hst0) by stamp_log
    end.
    exists (new0 ++ new). by eapply stamped_trans.
Qed.

Lemma extendAndRelease_stamps itemId pid iterations (acq : option Item)
    (w : World) :
  let run := extendAndRelease sha256hex toISOString env itemId pid iterations
               acq w in
  ∃ new, stamped env w run.1 new.
Proof.
  cbv zeta. unfold extendAndRelease. mrun.
  destruct acq as [item|]; mrun; [|stamp_log].
  match goal with |- context [generateHashes _ _ ?n ?p ?i ?it ?v ?W] =>
    assert (∃ new0, stamped env w W new0) as (new0 & Hst0) by stamp_log;
    destruct (generateHashes_stamps n p i it v W) as (new1 & Hst1);
    destruct (generateHashes sha256hex env n p i it v W) as [w1 [e|h]]
  end; cbn [fst snd] in *; mrun.
  { exists (new0 ++ new1). by eapply stamped_trans. }
  match goal with |- context [updateAndReleaseLock _ _ ?k ?p ?u ?W] =>
    assert (∃ new2, stamped env w1 W new2) as (new2 & Hst2) by stamp_log;
    pose proof (updateAndReleaseLock_stamps k p u W) as Hst3;
    destruct (updateAndReleaseLock toISOString env k p u W) as [w2 [e|r]]
  end; cbn [fst snd] in *; mrun.
  - exists (((new0 ++ new1) ++ new2) ++ []).
    repeat (eapply stamped_trans; [|done]). done.
  - match goal with |- context [stamped _ _ ?W] =>
      assert (∃ new4, stamped env w2 W new4) as (new4 & Hst4) by stamp_log
    end.
    exists ((((new0 ++ new1) ++ new2) ++ []) ++ new4).
    repeat (eapply stamped_trans; [|done]). done.
Qed.

Lemma attemptBody_stamps itemId pid iterations (w : World) :
  let run := attemptBody sha256hex toISOString env itemId pid iterations w in
  ∃ new, stamped env w run.1 new.
Proof.
  cbv zeta. unfold attemptBody, acquireStep. mrun.
  match goal with |- context [acquireLockAndRead _ _ ?k ?p ?d ?W] =>
    assert (∃ new0, stamped env w W new0) as (new0 & Hst0) by stamp_log;
    destruct (acquireLockAndRead_stamps k p d W) as (new1 & Hst1);
    destruct (acquireLockAndRead toISOString env k p d W) as [w1 [e|acq]]
  end; cbn [fst snd] in *.
  { exists (new0 ++ new1). by eapply stamped_trans. }
  destruct (extendAndRelease_stamps itemId pid iterations acq w1)
    as (new2 & Hst2).
  exists ((new0 ++ new1) ++ new2).
  repeat (eapply stamped_trans; [|done]). done.
Qed.

Lemma attemptCatch_stamps pid (attempt maxRetries : Z) (e : Error)
    (w : World) :
  let run := attemptCatch env pid attempt maxRetries e w in
  ∃ new, stamped env w run.1 new.
Proof.
  cbv zeta. unfold attemptCatch. destruct e; mrun; try stamp_log.
  destruct (attempt <? maxRetries); mrun; stamp_log.
Qed.

Lemma attemptLoop_stamps fuel itemId pid (iterations attempt maxRetries : Z)
    (w : World) :
  let run := attemptLoop sha256hex toISOString env fuel itemId pid iterations
               attempt maxRetries w in
  ∃ new, stamped env w run.1 new.
Proof.
  cbv zeta. revert attempt w.
  induction fuel as [|fuel IH]; intros attempt w.
  - exists []. cbn [attemptLoop].
    destruct (attempt <=? maxRetries); by apply stamped_same.
  - destruct (Z.leb_spec attempt maxRetries) as [Hle|Hgt].
    2: { exists []. rewrite attemptLoop_done by lia. by apply stamped_same. }
    rewrite attemptLoop_unfold by done.
    destruct (attemptBody_stamps itemId pid iterations w) as (new & Hst).
    destruct (attemptBody _ _ _ _ _ _ w) as [w1 [e|[]]]; cbn [fst snd] in *.
    2: { by exists new. }
    destruct (attemptCatch_stamps pid attempt maxRetries e w1)
      as (new1 & Hst1).
    destruct (attemptCatch _ _ _ _ _ w1) as [w2 [e'|[|]]];
      cbn [fst snd] in *.
    + exists (new ++ new1). by eapply stamped_trans.
    + destruct (IH (attempt + 1) w2) as (new2 & Hst2).
      exists ((new ++ new1) ++ new2).
      repeat (eapply stamped_trans; [|done]). done.
    + exists (new ++ new1). by eapply stamped_trans.
Qed.

(** X23. The log of a run is in clock order: when the clock does not
    go back, the times of the events of a run on a fresh log never
    decrease from one event to a later one, and the total time of the
    report, the time of the last event less that of the first, is not
    negative. *)
Theorem extendHashChain_log_in_clock_order fuel itemId
    (iterations maxRetries : Z) (w : World) :
  events w = [] →
  (∀ k k', (k ≤ k')%nat → dateNow env k ≤ dateNow env k') →
  let evs := events (extendHashChain sha256hex toISOString env fuel itemId
                       iterations maxRetries w).1 in
  (∀ (i j : nat) (ei ej : SequenceEvent),
     (i ≤ j)%nat → evs !! i = Some ei → evs !! j = Some ej →
     time ei ≤ time ej)
  ∧ ∀ first final : SequenceEvent,
      head evs = Some first → last evs = Some final →
      0 ≤ time final - time first.
Proof.
  intros Hfresh Hclock evs.
  assert (∃ new, stamped env w
                   (extendHashChain sha256hex toISOString env fuel itemId
                      iterations maxRetries w).1 new) as (new & Hev & Hst).
  { unfold extendHashChain. mrun.
    match goal with |- context [attemptLoop _ _ _ ?f ?k ?p ?i ?a ?m ?W] =>
      assert (∃ new0, stamped env w W new0) as (new0 & Hst0) by stamp_log;
      destruct (attemptLoop_stamps f k p i a m W) as (new1 & Hst1)
    end.
    exists (new0 ++ new1). by eapply stamped_trans. }
  rewrite Hfresh in Hev. cbn [app] in Hev. fold evs in Hev.
  destruct (stampedFrom_ordered env _ _ _ Hclock Hst) as [_ Hordered].
  rewrite <- Hev in Hordered. split; [done|].
  intros first final Hfirst Hfinal.
  rewrite head_lookup in Hfirst. rewrite last_lookup in Hfinal.
  pose proof (Hordered O _ first final ltac:(lia) Hfirst Hfinal). lia.
Qed.

End ClockProperties.

(** ** The further properties on the scenarios *)

Lemma extendHashChain_extends_witness :
  (extendHashChain stubDigest stubDate steadyEnv 1 "HASH-CHAIN-1" 2 10
     freshWorld).2 = inr (Some ())
  ∧ ∃ new : Item,
      table (extendHashChain stubDigest stubDate steadyEnv 1 "HASH-CHAIN-1"
               2 10 freshWorld).1 !! "HASH-CHAIN-1" = Some new
      ∧ new !! "currentHash"
        = Some (AttrS (Nat.iter 2 (workTransform stubDigest) zeroDigest)).
Proof.
  destruct (extendHashChain_extends stubDigest stubDate steadyEnv 1
              "HASH-CHAIN-1" 2 10 freshWorld (initialItem 0) zeroDigest)
    as (Hret & _ & _ & new & Hnew & Hhash & _).
  - reflexivity.
  - reflexivity.
  - intros k k'. cbn. lia.
  - compute_done.
  - intros k. compute_done.
  - compute_done.
  - lia.
  - lia.
  - split; [exact Hret|]. exists new. split; [exact Hnew|exact Hhash].
Defined.

Lemma extendHashChain_exhausts_witness :
  (∃ msg, (contendedRun 3).2 = inl (LockError msg (Some (leasedItem "P1" 1000))))
  ∧ Z.of_nat (acquireAttempts (contendedRun 3).1) = 3
  ∧ Z.of_nat (length (timeouts (contendedRun 3).1)) = 2.
Proof.
  destruct (extendHashChain_exhausts stubDigest stubDate contendedEnv 3
              "HASH-CHAIN-1" 1 3
              (initialWorld (chainTable (leasedItem "P1" 1000)))
              (leasedItem "P1" 1000) 1000)
    as (Herr & _ & _ & Hacq & Hto).
  - reflexivity.
  - reflexivity.
  - intros k. compute_done.
  - reflexivity.
  - compute_done.
  - compute_done.
  - lia.
  - cbn. lia.
  - split; [exact Herr|]. split; [exact Hacq|exact Hto].
Defined.

Lemma extendHashChain_transport_failure_witness :
  (extendHashChain stubDigest stubDate (failingAt 0 (λ _, 5000) "P1") 5
     "HASH-CHAIN-1" 2 10 freshWorld).2 = inl (ServiceError "TimeoutError")
  ∧ length (exchanges (extendHashChain stubDigest stubDate
                         (failingAt 0 (λ _, 5000) "P1") 5 "HASH-CHAIN-1" 2 10
                         freshWorld).1) = 1%nat.
Proof.
  destruct (extendHashChain_transport_failure stubDigest stubDate
              (failingAt 0 (λ _, 5000) "P1") 5 "HASH-CHAIN-1" 2 10 freshWorld
              "TimeoutError")
    as (Herr & Hlen & _).
  - reflexivity.
  - lia.
  - lia.
  - split; [exact Herr|exact Hlen].
Defined.

Lemma extendHashChain_no_attempt_witness :
  (extendHashChain stubDigest stubDate steadyEnv 5 "HASH-CHAIN-1" 2 0
     freshWorld).2 = inr (Some ())
  ∧ exchanges (extendHashChain stubDigest stubDate steadyEnv 5 "HASH-CHAIN-1"
                 2 0 freshWorld).1 = [].
Proof.
  destruct (extendHashChain_no_attempt stubDigest stubDate steadyEnv 5
              "HASH-CHAIN-1" 2 0 freshWorld)
    as (Hret & Hex & _).
  - lia.
  - split; [exact Hret|exact Hex].
Defined.

Lemma extendHashChain_returns_released_witness :
  ∃ new : Item,
    table slowRun.1 !! "HASH-CHAIN-1" = Some new
    ∧ new !! "lockTime" = None
    ∧ new !! "lockedBy" = None.
Proof.
  destruct (extendHashChain_returns_released stubDigest stubDate
              (quietEnv slowClock "P1") 2 "HASH-CHAIN-1" 1 2
              (initialWorld (chainTable (initialItem 0))) slowRun.1)
    as (cmd & new & ev & _ & _ & Hnew & Htime & Hby & _).
  - lia.
  - compute_done.
  - exists new. split; [exact Hnew|]. split; [exact Htime|exact Hby].
Defined.

Lemma missing_record_witness :
  (acquireLockAndRead stubDate steadyEnv "HASH-CHAIN-2" "P1" 30 freshWorld).2
  = inr (Some (acquired "P1" 35 {[ "id" := AttrS "HASH-CHAIN-2" ]}))
  ∧ (updateAndReleaseLock stubDate steadyEnv "HASH-CHAIN-2" "P1"
       (initialItem 0) freshWorld).2
    = inl (LockError
             "Failed to update item HASH-CHAIN-2 - lock information not found"
             None).
Proof.
  destruct (missing_record stubDate steadyEnv "HASH-CHAIN-2" "P1" freshWorld)
    as [Hacq Hrel].
  - discriminate.
  - reflexivity.
  - compute_done.
  - split.
    + destruct (Hacq 30) as [Hret _]; [reflexivity|]. exact Hret.
    + destruct (Hrel (initialItem 0) (AttrS zeroDigest)) as [Herr _];
        [compute_done|exact Herr].
Defined.

Lemma extendHashChain_work_failure_keeps_lease_witness :
  (extendHashChain stubDigest stubDate steadyEnv 5 "HASH-CHAIN-1" 2 10
     (initialWorld (chainTable hashlessItem))).2 = inl TypeError
  ∧ ∃ held : Item,
      table (extendHashChain stubDigest stubDate steadyEnv 5 "HASH-CHAIN-1"
               2 10 (initialWorld (chainTable hashlessItem))).1
        !! "HASH-CHAIN-1" = Some held
      ∧ held !! "lockedBy" = Some (AttrS "P1")
      ∧ held !! "lockTime" = Some (AttrN 35).
Proof.
  destruct (extendHashChain_work_failure_keeps_lease stubDigest stubDate
              steadyEnv 5 "HASH-CHAIN-1" 2 10
              (initialWorld (chainTable hashlessItem)) hashlessItem)
    as (Herr & _ & _ & held & Hheld & Hby & Htime).
  - reflexivity.
  - compute_done.
  - compute_done.
  - intros s. compute_done.
  - lia.
  - lia.
  - lia.
  - split; [exact Herr|]. exists held.
    split; [exact Hheld|]. split; [exact Hby|exact Htime].
Defined.

Lemma extendHashChain_release_failure_keeps_lease_witness :
  (extendHashChain stubDigest stubDate (failingAt 1 (λ _, 5000) "P1") 5
     "HASH-CHAIN-1" 2 10 freshWorld).2 = inl (ServiceError "TimeoutError")
  ∧ table (extendHashChain stubDigest stubDate (failingAt 1 (λ _, 5000) "P1")
             5 "HASH-CHAIN-1" 2 10 freshWorld).1 !! "HASH-CHAIN-1"
    = Some (acquired "P1" 35 (initialItem 0)).
Proof.
  destruct (extendHashChain_release_failure_keeps_lease stubDigest stubDate
              (failingAt 1 (λ _, 5000) "P1") 5 "HASH-CHAIN-1" 2 10 freshWorld
              (initialItem 0) zeroDigest "TimeoutError")
    as (Herr & _ & _ & Hheld).
  - reflexivity.
  - reflexivity.
  - reflexivity.
  - compute_done.
  - compute_done.
  - compute_done.
  - lia.
  - lia.
  - split; [exact Herr|exact Hheld].
Defined.

Lemma extensions_compose_witness :
  ∃ new : Item,
    table (extendHashChain stubDigest stubDate steadyEnv 1 "HASH-CHAIN-1" 3 1
             (extendHashChain stubDigest stubDate steadyEnv 1 "HASH-CHAIN-1"
                2 1 freshWorld).1).1 !! "HASH-CHAIN-1" = Some new
    ∧ new !! "currentHash"
      = Some (AttrS (Nat.iter 5 (workTransform stubDigest) zeroDigest)).
Proof.
  destruct (extensions_compose stubDigest stubDate steadyEnv steadyEnv 1 1
              "HASH-CHAIN-1" 2 3 1 1 freshWorld
              (extendHashChain stubDigest stubDate steadyEnv 1 "HASH-CHAIN-1"
                 2 1 freshWorld).1 (initialItem 0) zeroDigest)
    as (_ & new & Hnew & Hhash & _).
  - repeat split; intros; cbn; lia.
  - repeat split; intros; cbn; lia.
  - compute_done.
  - intros k. compute_done.
  - compute_done.
  - lia.
  - lia.
  - lia.
  - lia.
  - reflexivity.
  - exists new. split; [exact Hnew|exact Hhash].
Defined.

Lemma release_closes_own_acquire_witness :
  ∃ (a : nat) (qa : Request),
    (a < 2)%nat ∧ duel !! a = Some qa ∧ isAcquireRequest qa = true
    ∧ requestHolder qa = "P1"
    ∧ grantedAt (chainTable (initialItem 0)) duel a = true.
Proof.
  destruct (release_closes_own_acquire (chainTable (initialItem 0)) duel
              "HASH-CHAIN-1" "P1" 2
              (ReleaseRequest "HASH-CHAIN-1" "P1" (AttrS "h1") 20 20))
    as (a & qa & Ha & Hqa & Hacq & _ & Hh & Hg & _).
  - intros it Hit. vm_compute in Hit. injection Hit as <-. reflexivity.
  - reflexivity.
  - reflexivity.
  - reflexivity.
  - reflexivity.
  - compute_done.
  - exists a, qa. repeat split; assumption.
Defined.

Lemma printSequence_reports_run_witness :
  processSummaries (events slowRun.1) = [("P1", events slowRun.1)].
Proof.
  apply (printSequence_reports_run stubDigest stubDate
           (quietEnv slowClock "P1") 2 "HASH-CHAIN-1" 1 2
           (initialWorld (chainTable (initialItem 0)))).
  - reflexivity.
  - lia.
Defined.

Lemma printSequence_reports_no_attempt_witness :
  (extendHashChain stubDigest stubDate steadyEnv 5 "HASH-CHAIN-1" 2 0
     freshWorld).2 = inr (Some ())
  ∧ succeededOf (events (extendHashChain stubDigest stubDate steadyEnv 5
                           "HASH-CHAIN-1" 2 0 freshWorld).1) = false.
Proof.
  destruct (printSequence_reports_no_attempt stubDigest stubDate steadyEnv 5
              "HASH-CHAIN-1" 2 0 freshWorld) as [Hret _].
  - reflexivity.
  - lia.
  - split; [exact Hret|reflexivity].
Defined.

Lemma waitForTable_first_decisive_answer_witness :
  (waitForTable setupEnv 5 "Inventory" (emptyAdmin ∅)).2 = inr (Some ())
  ∧ sleeps (waitForTable setupEnv 5 "Inventory" (emptyAdmin ∅)).1
    = [1000; 1000; 1000].
Proof.
  destruct (waitForTable_first_decisive_answer setupEnv 3 5 "Inventory"
              (emptyAdmin ∅)) as (Hret & _ & Hsleeps & _).
  - intros j Hj. destruct j as [|[|[|j]]]; [reflexivity..|lia].
  - reflexivity.
  - lia.
  - split; [exact Hret|exact Hsleeps].
Defined.

Lemma waitForTable_no_timeout_witness :
  (waitForTable creatingEnv 7 "Inventory" (emptyAdmin ∅)).2 = inr None
  ∧ sleeps (waitForTable creatingEnv 7 "Inventory" (emptyAdmin ∅)).1
    = replicate 7 1000.
Proof.
  destruct (waitForTable_no_timeout creatingEnv 7 "Inventory" (emptyAdmin ∅))
    as (Hret & _ & Hsleeps).
  - intros k. reflexivity.
  - split; [exact Hret|exact Hsleeps].
Defined.

Lemma createTable_creates_chain_witness :
  items (createTable setupEnv 5 (emptyAdmin ∅)).1
  = {[ "HASH-CHAIN-1" := initialItem 5 ]}.
Proof.
  destruct (createTable_creates_chain setupEnv 5 (emptyAdmin ∅)
              (createTable setupEnv 5 (emptyAdmin ∅)).1) as [Hitems _].
  - compute_done.
  - exact Hitems.
Defined.

Lemma createTable_refused_witness :
  (createTable takenEnv 5 (emptyAdmin (chainTable (leasedItem "P1" 1000)))).2
  = inl (OtherError "ResourceInUseException")
  ∧ items (createTable takenEnv 5
             (emptyAdmin (chainTable (leasedItem "P1" 1000)))).1
    = chainTable (leasedItem "P1" 1000).
Proof.
  destruct (createTable_refused takenEnv 5
              (emptyAdmin (chainTable (leasedItem "P1" 1000)))
              (OtherError "ResourceInUseException"))
    as (Herr & Hitems & _).
  - reflexivity.
  - split; [exact Herr|exact Hitems].
Defined.

Lemma deleteTable_waits_for_deletion_witness :
  (deleteTable teardownEnv 5 (emptyAdmin (chainTable (initialItem 0)))).2
  = inr (Some ())
  ∧ sleeps (deleteTable teardownEnv 5
              (emptyAdmin (chainTable (initialItem 0)))).1 = [1000].
Proof.
  destruct (deleteTable_waits_for_deletion teardownEnv 1 5
              (emptyAdmin (chainTable (initialItem 0)))
              ResourceNotFoundException)
    as (Hret & _ & _ & Hsleeps & _).
  - reflexivity.
  - intros j Hj. destruct j as [|j]; [reflexivity|lia].
  - reflexivity.
  - lia.
  - split; [exact Hret|exact Hsleeps].
Defined.

Lemma deleteTable_missing_table_witness :
  (deleteTable goneEnv 5 (emptyAdmin ∅)).2 = inr (Some ())
  ∧ console (deleteTable goneEnv 5 (emptyAdmin ∅)).1
    = [console_log_line "Table does not exist"].
Proof.
  destruct (deleteTable_missing_table goneEnv 5 (emptyAdmin ∅))
    as [_ Hgone].
  destruct Hgone as (Hret & _ & _ & _ & Hconsole).
  - reflexivity.
  - split; [exact Hret|exact Hconsole].
Defined.

Lemma setup_then_extend_witness :
  (extendHashChain stubDigest stubDate steadyEnv 1 "HASH-CHAIN-1" 2 10
     (initialWorld (items (createTable setupEnv 5 (emptyAdmin ∅)).1))).2
  = inr (Some ()).
Proof.
  destruct (setup_then_extend stubDigest stubDate setupEnv steadyEnv 5 1
              (emptyAdmin ∅) (createTable setupEnv 5 (emptyAdmin ∅)).1 2 10
              (initialWorld (items (createTable setupEnv 5 (emptyAdmin ∅)).1)))
    as [Hret _].
  - compute_done.
  - reflexivity.
  - repeat split; intros; cbn; lia.
  - lia.
  - lia.
  - exact Hret.
Defined.

Lemma extendHashChain_log_in_clock_order_witness :
  0 ≤ time {| time := 31000; processId := "P1"; action := "Chain extended";
              quantity := Some 1; success := Some true |}
      - time {| time := 0; processId := "P1"; action := "Started";
                quantity := Some 1; success := None |}.
Proof.
  destruct (extendHashChain_log_in_clock_order stubDigest stubDate
              (quietEnv slowClock "P1") 2 "HASH-CHAIN-1" 1 2
              (initialWorld (chainTable (initialItem 0)))) as [_ Htotal].
  - reflexivity.
  - intros k k' Hk. cbn. unfold slowClock.
    destruct (Nat.ltb_spec k 9), (Nat.ltb_spec k' 9); lia.
  - apply Htotal; compute_done.
Defined.
